(** * Commando workshop: simulation core

    A shallow embedding of the rules of the arcade shooter: enemy damage
    and Boss phases, the collision engine, the spawn controller, the
    level objectives and the player's grenade stock.

    Conventions of the embedding.
    - A JavaScript [number] that only ever holds a count (health, score,
      kills, grenades, level index) is a [Z]; a [number] that holds a
      time, a distance, a coordinate, a speed or a random draw is a [Q].
      Comparisons on [Q] are exact; the thresholds of the source
      (0.33, 0.66, 0.60, ...) are far from every value they are compared
      with on integer health, so the rounding of doubles plays no part
      there. The one test that rounding can decide, the distance of
      an enemy from a blast, is computed as the code computes it, in
      the arithmetic of doubles (module [Double]).
    - An object is a record; its identity is the field [oid].
    - Calls that leave the simulation (callbacks, sounds, particles,
      [overlap] tests, [destroy]) are recorded in a trace of events, in
      the order in which the code performs them.
    - [Math.random] is an oracle [nat -> Q]: the n-th draw of the run. *)

From Stdlib Require Import ZArith QArith Qminmax Qround Qabs Qpower.
From Stdlib Require Import Lqa Lia Bool.
From stdpp Require Import base decidable option list gmap strings.

Local Open Scope Z_scope.

(** ** Helpers on rationals *)

(** [a < b] on numbers, as a boolean. *)
Definition Qltb (a b : Q) : bool := negb (Qle_bool b a).

(** ** config/GameConfig.ts *)

Module GameConfig.
Definition GRENADE_INITIAL_COUNT : Z := 10.
Definition GRENADE_EXPLOSION_RADIUS : Q := 80.
Definition GRENADE_EXPLOSION_DELAY : Q := 800.

Definition SOLDIER_HEALTH : Z := 1.
Definition SOLDIER_POINTS : Z := 100.
Definition TANK_SPEED : Q := 50.
Definition TANK_HEALTH : Z := 3.
Definition TANK_POINTS : Z := 300.
Definition JEEP_HEALTH : Z := 2.
Definition JEEP_POINTS : Z := 200.
Definition KNIFE_SOLDIER_HEALTH : Z := 1.
Definition KNIFE_SOLDIER_POINTS : Z := 150.
Definition ROCKET_LAUNCHER_SPEED : Q := 40.
Definition ROCKET_LAUNCHER_HEALTH : Z := 2.
Definition ROCKET_LAUNCHER_POINTS : Z := 250.
Definition COVERED_SOLDIER_SPEED : Q := 100.
Definition COVERED_SOLDIER_HEALTH : Z := 2.
Definition COVERED_SOLDIER_POINTS : Z := 175.
Definition BUNKER_HEALTH : Z := 5.
Definition BUNKER_POINTS : Z := 400.
Definition BOSS_SPEED : Q := 60.
Definition BOSS_HEALTH : Z := 20.
Definition BOSS_POINTS : Z := 1000.

Definition ENEMY_SPAWN_RATE_INITIAL : Q := 1200.
Definition ENEMY_SPAWN_RATE_MIN : Q := 400.

Definition EXPLOSION_PARTICLE_COUNT : Z := 16.

Definition SCREEN_WIDTH : Q := 768.
Definition SCREEN_HEIGHT : Q := 672.
Definition PLAYER_INITIAL_LIVES : Z := 3.
Definition PLAYER_RESPAWN_INVINCIBILITY_TIME : Q := 2000.
Definition SPAWN_FROM_TOP : Q := 0.7.
Definition SPAWN_FROM_LEFT : Q := 0.15.
End GameConfig.

(** ** types/index.ts *)

(** [EnemyType] is a string enum: at run time a tag is the string itself,
    which is what the [default] branch of a [switch] on it can see. *)
Definition EnemyType : Type := string.

Module EnemyType.
Definition SOLDIER : EnemyType := "SOLDIER".
Definition TANK : EnemyType := "TANK".
Definition JEEP : EnemyType := "JEEP".
Definition KNIFE_SOLDIER : EnemyType := "KNIFE_SOLDIER".
Definition ROCKET_LAUNCHER : EnemyType := "ROCKET_LAUNCHER".
Definition COVERED_SOLDIER : EnemyType := "COVERED_SOLDIER".
Definition BUNKER : EnemyType := "BUNKER".
Definition BOSS : EnemyType := "BOSS".

Definition all : list EnemyType :=
  [SOLDIER; TANK; JEEP; KNIFE_SOLDIER; ROCKET_LAUNCHER; COVERED_SOLDIER;
   BUNKER; BOSS].
End EnemyType.

(** ** Sprites *)

(** The part of a Phaser sprite the rules read or write. *)
Record Sprite : Type := mkSprite {
  sx : Q;
  sy : Q;
  tint : Z
}.

(** [clearTint()] restores the default white tint. *)
Definition clearTint (s : Sprite) : Sprite := mkSprite (sx s) (sy s) 0xffffff.

Definition setTint (c : Z) (s : Sprite) : Sprite := mkSprite (sx s) (sy s) c.

Definition setPosition (x y : Q) (s : Sprite) : Sprite := mkSprite x y (tint s).
(** ** entities/enemies/Enemy.ts *)

Module Enemy.

(** The fields a subclass adds to the base class, which also says which
    [takeDamage] the object answers with. *)
Inductive Sub : Type :=
| Base                                   (* takeDamage inherited *)
| CoveredSoldier (inCover : bool)
| Boss (phase : Z) (maxHealth : Z).

Record t : Type := mk {
  oid : nat;
  sprite : Sprite;
  speed : Q;
  health : Z;
  type : EnemyType;
  sub : Sub
}.

Definition set_health (h : Z) (e : t) : t :=
  mk (oid e) (sprite e) (speed e) h (type e) (sub e).

(** [takeDamage(): boolean] of the base class. *)
Definition takeDamage (e : t) : t * bool :=
  let e' := set_health (health e - 1) e in
  (e', health e' <=? 0).

(** [n] successive calls; the answers, first call first. *)
Fixpoint takeDamage_times (n : nat) (e : t) : t * list bool :=
  match n with
  | O => (e, [])
  | S n' =>
      let '(e1, d) := takeDamage e in
      let '(e2, ds) := takeDamage_times n' e1 in
      (e2, d :: ds)
  end.

(** [isOffScreen()] of the base class. *)
Definition isOffScreen (e : t) : bool :=
  Qltb (GameConfig.SCREEN_HEIGHT + 60) (sy (sprite e))
  || Qltb (sy (sprite e)) (-60)
  || Qltb (GameConfig.SCREEN_WIDTH + 60) (sx (sprite e))
  || Qltb (sx (sprite e)) (-60).
End Enemy.

(** ** entities/enemies/Boss.ts *)

Module Boss.
Import GameConfig.

Definition constructor (oid : nat) (x y : Q) : Enemy.t :=
  Enemy.mk oid (mkSprite x y 0xff0000) BOSS_SPEED BOSS_HEALTH
           EnemyType.BOSS (Enemy.Boss 1 BOSS_HEALTH).

(** The override of [takeDamage]; [phase] and [maxHealth] are the
    fields of the Boss. *)
Definition takeDamage (e : Enemy.t) (phase maxHealth : Z) : Enemy.t * bool :=
  let h := Enemy.health e - 1 in
  let healthPercent := (inject_Z h / inject_Z maxHealth)%Q in
  let s := Enemy.sprite e in
  let e' :=
    if Qle_bool healthPercent 0.33 && negb (phase =? 3) then
      Enemy.mk (Enemy.oid e) (mkSprite (sx s) (sy s) 0xff00ff)
               (BOSS_SPEED * 1.5)%Q h (Enemy.type e) (Enemy.Boss 3 maxHealth)
    else if Qle_bool healthPercent 0.66 && negb (phase =? 2) then
      Enemy.mk (Enemy.oid e) (mkSprite (sx s) (sy s) 0xff6600)
               (BOSS_SPEED * 1.2)%Q h (Enemy.type e) (Enemy.Boss 2 maxHealth)
    else
      Enemy.mk (Enemy.oid e) s (Enemy.speed e) h (Enemy.type e)
               (Enemy.Boss phase maxHealth)
  in
  (e', h <=? 0).

(** The [phase] field, read off an enemy that is a Boss. *)
Definition phase (e : Enemy.t) : option Z :=
  match Enemy.sub e with
  | Enemy.Boss p _ => Some p
  | _ => None
  end.

(** A Boss after [n] calls of its [takeDamage]. *)
Fixpoint hits (n : nat) (e : Enemy.t) : Enemy.t :=
  match n with
  | O => e
  | S n' =>
      let e' := hits n' e in
      match Enemy.sub e' with
      | Enemy.Boss p m => fst (takeDamage e' p m)
      | _ => fst (Enemy.takeDamage e')
      end
  end.

(** The phases seen after 0, 1, ..., [n] calls. *)
Definition phases (n : nat) (e : Enemy.t) : list (option Z) :=
  map (fun k => phase (hits k e)) (seq 0 (S n)).

End Boss.

(** ** entities/enemies/CoveredSoldier.ts *)

Module CoveredSoldier.
Import GameConfig.

Definition constructor (oid : nat) (x y : Q) : Enemy.t :=
  Enemy.mk oid (mkSprite x y 0x888888) COVERED_SOLDIER_SPEED
           COVERED_SOLDIER_HEALTH EnemyType.COVERED_SOLDIER
           (Enemy.CoveredSoldier false).

(** The override of [takeDamage]. [random] is the oracle and [draws]
    the number of draws made so far; the answer carries the new number
    of draws. *)
Definition takeDamage (random : nat -> Q) (draws : nat)
    (e : Enemy.t) (inCover : bool) : Enemy.t * bool * nat :=
  if inCover then
    if Qltb (random draws) 0.5 then (e, false, S draws)
    else
      let '(e', d) := Enemy.takeDamage e in (e', d, S draws)
  else
    let '(e', d) := Enemy.takeDamage e in (e', d, draws).

End CoveredSoldier.

(** The other archetypes inherit [takeDamage]; only the constructor's
    arguments to the base class differ. *)
Module Tank.
Import GameConfig.
Definition constructor (oid : nat) (x y : Q) : Enemy.t :=
  Enemy.mk oid (mkSprite x y 0) TANK_SPEED TANK_HEALTH EnemyType.TANK
           Enemy.Base.
End Tank.

Module RocketLauncher.
Import GameConfig.
Definition constructor (oid : nat) (x y : Q) : Enemy.t :=
  Enemy.mk oid (mkSprite x y 0) ROCKET_LAUNCHER_SPEED
           ROCKET_LAUNCHER_HEALTH EnemyType.ROCKET_LAUNCHER Enemy.Base.
End RocketLauncher.

(** ** entities/enemies/Bunker.ts *)

Module Bunker.
Import GameConfig.
Definition constructor (oid : nat) (x y : Q) : Enemy.t :=
  Enemy.mk oid (mkSprite x y 0x666666) 0 BUNKER_HEALTH EnemyType.BUNKER
           Enemy.Base.

(** The override of [isOffScreen]. *)
Definition isOffScreen (e : Enemy.t) : bool :=
  Qltb (sy (Enemy.sprite e)) (-100)
  || Qltb 900 (sx (Enemy.sprite e))
  || Qltb (sx (Enemy.sprite e)) (-100).
End Bunker.
(** Dynamic dispatch of [enemy.takeDamage()]. *)
Definition takeDamage_dispatch (random : nat -> Q) (draws : nat)
    (e : Enemy.t) : Enemy.t * bool * nat :=
  match Enemy.sub e with
  | Enemy.Base => let '(e', d) := Enemy.takeDamage e in (e', d, draws)
  | Enemy.CoveredSoldier c => CoveredSoldier.takeDamage random draws e c
  | Enemy.Boss p m => let '(e', d) := Boss.takeDamage e p m in (e', d, draws)
  end.

(** ** entities/Bullet.ts *)

Module Bullet.
Record t : Type := mk {
  oid : nat;
  sprite : Sprite
}.
Definition isOffScreen (b : t) : bool := Qltb (sy (sprite b)) (-20).
End Bullet.

(** ** entities/Grenade.ts *)

Module Grenade.
Import GameConfig.

Record t : Type := mk {
  oid : nat;
  sprite : Sprite;
  explosionRadius : Q;
  throwTime : Q;
  hasExploded : bool;
  shouldDestroy : bool
}.

(** [new Grenade(scene, x, y)], with [now] the scene clock. *)
Definition constructor (oid : nat) (x y now : Q) : t :=
  mk oid (mkSprite x y 0) GRENADE_EXPLOSION_RADIUS now false false.

Definition isExploded (g : t) : bool := hasExploded g.
Definition getExplosionRadius (g : t) : Q := explosionRadius g.
Definition getX (g : t) : Q := sx (sprite g).
Definition getY (g : t) : Q := sy (sprite g).

(** What a call asks of the scene: a [delayedCall] and the destroy of
    the sprite. *)
Inductive Effect : Type :=
| DelayedCall (delay : Q)
| SpriteDestroy.

Definition isDelayedCall (e : Effect) : bool :=
  match e with DelayedCall _ => true | SpriteDestroy => false end.

(** [explode()]; the timer it starts is reported by [update]. *)
Definition explode (g : t) : t :=
  mk (oid g) (sprite g) (explosionRadius g) (throwTime g) true
     (shouldDestroy g).

(** The callback of the timer started by [explode]. *)
Definition destroyCallback (g : t) : t :=
  mk (oid g) (sprite g) (explosionRadius g) (throwTime g) (hasExploded g)
     true.

(** [update()], with [now] the scene clock. *)
Definition update (now : Q) (g : t) : t * list Effect :=
  let elapsedTime := (now - throwTime g)%Q in
  let '(g1, t1) :=
    if negb (hasExploded g) && Qle_bool GRENADE_EXPLOSION_DELAY elapsedTime
    then (explode g, [DelayedCall 100])
    else (g, []) in
  if hasExploded g1 && shouldDestroy g1 then (g1, t1 ++ [SpriteDestroy])
  else (g1, t1).

Definition isOffScreen (g : t) : bool :=
  Qltb (SCREEN_HEIGHT + 50) (sy (sprite g))
  || Qltb (sy (sprite g)) (-50)
  || Qltb (sx (sprite g)) (-50)
  || Qltb (SCREEN_WIDTH + 50) (sx (sprite g)).

Definition shouldBeDestroyed (g : t) : bool :=
  shouldDestroy g || isOffScreen g.

(** The life of one grenade: calls of [update] and the firing of its
    timer. [pending] counts the timers started and not yet fired; a
    timer that was not started cannot fire. *)
Inductive step : Type :=
| Update (now : Q)
| TimerFires.

Record Live : Type := mkLive {
  grenade : t;
  pending : nat;
  started : nat
}.

Definition live (l : Live) (s : step) : Live :=
  match s with
  | Update now =>
      let '(g', eff) := update now (grenade l) in
      let n := length (List.filter isDelayedCall eff) in
      mkLive g' (pending l + n)%nat (started l + n)%nat
  | TimerFires =>
      match pending l with
      | O => l
      | S k => mkLive (destroyCallback (grenade l)) k (started l)
      end
  end.

Definition lives (ss : list step) (l : Live) : Live := fold_left live ss l.
End Grenade.

(** ** entities/Player.ts *)

Module Player.
Import GameConfig.

Record t : Type := mk {
  sprite : Sprite;
  grenadeCount : Z;
  lastGrenadeThrow : Q;
  grenadeThrowRate : Q;
  isInvincible : bool;
  invincibilityEndTime : Q;
  speedBoostActive : bool;
  speedBoostEndTime : Q;
  speedBoostMultiplier : Q;
  weaponUpgradeActive : bool;
  weaponUpgradeEndTime : Q;
  weaponUpgradeMultiplier : Q;
  isDead : bool
}.

Definition constructor (x y : Q) : t :=
  mk (mkSprite x y 0) GRENADE_INITIAL_COUNT 0 300 false 0
     false 0 1 false 0 1 false.

Definition set_grenades (count : Z) (last : Q) (p : t) : t :=
  mk (sprite p) count last (grenadeThrowRate p)
     (isInvincible p) (invincibilityEndTime p)
     (speedBoostActive p) (speedBoostEndTime p) (speedBoostMultiplier p)
     (weaponUpgradeActive p) (weaponUpgradeEndTime p)
     (weaponUpgradeMultiplier p) (isDead p).

(** [throwGrenade(time)]: the grenade thrown, or [None] for [null].
    [fresh] is the identity of the new object and [now] the scene
    clock its constructor reads. *)
Definition throwGrenade (fresh : nat) (now time : Q) (p : t)
    : t * option Grenade.t :=
  if (0 <? grenadeCount p)
     && Qltb (lastGrenadeThrow p + grenadeThrowRate p) time then
    (set_grenades (grenadeCount p - 1) time p,
     Some (Grenade.constructor fresh (sx (sprite p)) (sy (sprite p) - 10) now))
  else (p, None).

Definition getGrenadeCount (p : t) : Z := grenadeCount p.

Definition addGrenades (count : Z) (p : t) : t :=
  set_grenades (grenadeCount p + count) (lastGrenadeThrow p) p.

Definition getIsDead (p : t) : bool := isDead p.
Definition getIsInvincible (p : t) : bool := isInvincible p.

Definition activateInvincibility (duration currentTime : Q) (p : t) : t :=
  mk (sprite p) (grenadeCount p) (lastGrenadeThrow p) (grenadeThrowRate p)
     true (currentTime + duration)
     (speedBoostActive p) (speedBoostEndTime p) (speedBoostMultiplier p)
     (weaponUpgradeActive p) (weaponUpgradeEndTime p)
     (weaponUpgradeMultiplier p) (isDead p).

Definition activateSpeedBoost (multiplier duration currentTime : Q) (p : t)
    : t :=
  mk (sprite p) (grenadeCount p) (lastGrenadeThrow p) (grenadeThrowRate p)
     (isInvincible p) (invincibilityEndTime p)
     true (currentTime + duration) multiplier
     (weaponUpgradeActive p) (weaponUpgradeEndTime p)
     (weaponUpgradeMultiplier p) (isDead p).

Definition activateWeaponUpgrade (multiplier duration currentTime : Q)
    (p : t) : t :=
  mk (sprite p) (grenadeCount p) (lastGrenadeThrow p) (grenadeThrowRate p)
     (isInvincible p) (invincibilityEndTime p)
     (speedBoostActive p) (speedBoostEndTime p) (speedBoostMultiplier p)
     true (currentTime + duration) multiplier (isDead p).

Definition setGrenadeCount (count : Z) (p : t) : t :=
  set_grenades count (lastGrenadeThrow p) p.

Definition set_sprite (s : Sprite) (p : t) : t :=
  mk s (grenadeCount p) (lastGrenadeThrow p) (grenadeThrowRate p)
     (isInvincible p) (invincibilityEndTime p)
     (speedBoostActive p) (speedBoostEndTime p) (speedBoostMultiplier p)
     (weaponUpgradeActive p) (weaponUpgradeEndTime p)
     (weaponUpgradeMultiplier p) (isDead p).

Definition set_isDead (d : bool) (p : t) : t :=
  mk (sprite p) (grenadeCount p) (lastGrenadeThrow p) (grenadeThrowRate p)
     (isInvincible p) (invincibilityEndTime p)
     (speedBoostActive p) (speedBoostEndTime p) (speedBoostMultiplier p)
     (weaponUpgradeActive p) (weaponUpgradeEndTime p)
     (weaponUpgradeMultiplier p) d.


(** [updatePowerUps(time)]: four statements in a row. *)
Definition updatePowerUps (time : Q) (p : t) : t :=
  let p1 :=
    if speedBoostActive p && Qle_bool (speedBoostEndTime p) time then
      mk (clearTint (sprite p)) (grenadeCount p) (lastGrenadeThrow p)
         (grenadeThrowRate p) (isInvincible p) (invincibilityEndTime p)
         false (speedBoostEndTime p) 1
         (weaponUpgradeActive p) (weaponUpgradeEndTime p)
         (weaponUpgradeMultiplier p) (isDead p)
    else p in
  let p2 :=
    if weaponUpgradeActive p1 && Qle_bool (weaponUpgradeEndTime p1) time then
      mk (sprite p1) (grenadeCount p1) (lastGrenadeThrow p1)
         (grenadeThrowRate p1) (isInvincible p1) (invincibilityEndTime p1)
         (speedBoostActive p1) (speedBoostEndTime p1)
         (speedBoostMultiplier p1)
         false (weaponUpgradeEndTime p1) 1 (isDead p1)
    else p1 in
  let p3 :=
    if speedBoostActive p2 && negb (isInvincible p2) then
      set_sprite (setTint 0x00ffff (sprite p2)) p2
    else p2 in
  if weaponUpgradeActive p3 && negb (isInvincible p3)
     && negb (speedBoostActive p3) then
    set_sprite (setTint 0xff6600 (sprite p3)) p3
  else p3.


(** [playDeathAnimation()]: the flag it sets before the tween starts. *)
Definition playDeathAnimation (p : t) : t := set_isDead true p.

(** [reset()]; the rest of it restores how the sprite is drawn. *)
Definition reset (p : t) : t := set_isDead false p.

Definition respawn (x y time invincibilityDuration : Q) (p : t) : t :=
  let p1 := reset p in
  let p2 := set_sprite (setPosition x y (sprite p1)) p1 in
  activateInvincibility invincibilityDuration time p2.
(** The calls the grenade stock answers to; a throw comes with the
    identity of the grenade it may create and the scene clock. *)
Inductive call : Type :=
| ThrowGrenade (fresh : nat) (now time : Q)
| AddGrenades (count : Z).

Definition step (p : t) (c : call) : t :=
  match c with
  | ThrowGrenade fresh now time => fst (throwGrenade fresh now time p)
  | AddGrenades count => addGrenades count p
  end.

Definition run (cs : list call) (p : t) : t := fold_left step cs p.

End Player.

(** ** entities/powerups *)

Module PowerUp.

(** The four subclasses, each with its private fields. *)
Inductive Sub : Type :=
| GrenadePack (grenadeCount : Z)
| SpeedBoost (speedMultiplier duration : Q)
| Shield (duration : Q)
| WeaponUpgrade (fireRateMultiplier duration : Q).

Record t : Type := mk {
  oid : nat;
  sprite : Sprite;
  sub : Sub;
  collected : bool
}.

(** [apply(player)], dispatched on the subclass; [now] is the scene
    clock. *)
Definition apply (now : Q) (u : t) (p : Player.t) : Player.t :=
  match sub u with
  | GrenadePack n => Player.addGrenades n p
  | SpeedBoost m d => Player.activateSpeedBoost m d now p
  | Shield d => Player.activateInvincibility d now p
  | WeaponUpgrade m d => Player.activateWeaponUpgrade m d now p
  end.

Definition collect (u : t) : t := mk (oid u) (sprite u) (sub u) true.
Definition isOffScreen (u : t) : bool :=
  Qltb (GameConfig.SCREEN_HEIGHT + 60) (sy (sprite u)).

Definition isCollected (u : t) : bool := collected u.
End PowerUp.

(** ** Numbers: the arithmetic of doubles *)

(** A finite double is a rational [m * 2 ^ e] with [|m| < 2 ^ 53] and
    [-1074 <= e]. An operation of JavaScript on numbers returns the
    exact result rounded to the nearest double, ties to the even [m];
    a result of magnitude [2 ^ 1024] or more is an infinity. [None]
    stands for every result that is not finite (an infinity or NaN). *)
Module Double.
Local Open Scope Q_scope.

(** The integer [k] with [2 ^ k <= q < 2 ^ (k + 1)], for [0 < q]. *)
Definition ilog2 (q : Q) : Z :=
  let k := (Z.log2 (Qnum q) - Z.log2 (Zpos (Qden q)))%Z in
  if Qle_bool (2 ^ k) q then k else (k - 1)%Z.

(** The nearest integer, ties to even. *)
Definition rint (x : Q) : Z :=
  let f := Qfloor x in
  match Qcompare (x - inject_Z f) (1 # 2) with
  | Lt => f
  | Gt => (f + 1)%Z
  | Eq => if Z.even f then f else (f + 1)%Z
  end.

(** The unit roundoff, and half the least positive double. *)
Definition u : Q := 2 ^ (-53).
Definition eta : Q := 2 ^ (-1075).

(** The exponent of the last place of the doubles next to [q]. *)
Definition exponent (q : Q) : Z := Z.max (-1074) (ilog2 (Qabs q) - 52).

Definition round (q : Q) : option Q :=
  if Qeq_bool q 0 then Some 0
  else
    let e := exponent q in
    let r := inject_Z (rint (q / 2 ^ e)) * 2 ^ e in
    if Qle_bool (2 ^ 1024) (Qabs r) then None else Some (Qred r).

(** [x + y], [x - y] and [x * y] on numbers. *)
Definition add (x y : Q) : option Q := round (x + y).
Definition sub (x y : Q) : option Q := round (x - y).
Definition mul (x y : Q) : option Q := round (x * y).

(** [Math.sqrt], correctly rounded: with [s = x * 4 ^ e] and
    [2 ^ 104 <= x < 2 ^ 106] the root of [x] has 53 bits before the
    point, and is rounded up when [x] is above the square of the
    midpoint (the root of a double is never a midpoint). NaN on a
    negative number. *)
Definition sqrt (s : Q) : option Q :=
  if Qltb s 0 then None
  else if Qeq_bool s 0 then Some 0
  else
    let e := (ilog2 s / 2 - 52)%Z in
    let x := s / 2 ^ (2 * e) in
    let m0 := Z.sqrt (Qfloor x) in
    let h := inject_Z m0 + (1 # 2) in
    let m := if Qltb (h * h) x then (m0 + 1)%Z else m0 in
    Some (Qred (inject_Z m * 2 ^ e)).

End Double.

(** [Phaser.Math.Distance.Between(x1, y1, x2, y2)], of the Phaser
    library: [dx = x1 - x2; dy = y1 - y2;
    return Math.sqrt(dx * dx + dy * dy)]. *)
Module Distance.

Definition Between (x1 y1 x2 y2 : Q) : option Q :=
  dx ← Double.sub x1 x2; dy ← Double.sub y1 y2;
  xx ← Double.mul dx dx; yy ← Double.mul dy dy;
  s ← Double.add xx yy; Double.sqrt s.

End Distance.

(** ** systems/CollisionSystem.ts *)

Module CollisionSystem.
Import GameConfig.

(** Objects named in the trace. *)
Inductive Obj : Type :=
| OPlayer
| OBullet (oid : nat)
| OGrenade (oid : nat)
| OEnemy (oid : nat)
| OPowerUp (oid : nat).

#[global] Instance Obj_eq_dec : EqDecision Obj.
Proof. solve_decision. Defined.

Inductive SoundId : Type :=
| EnemyDeathSound | ExplosionSound | PlayerHitSound | PowerUpSound.

(** What the call does that is visible outside of it. *)
Inductive Event : Type :=
| Overlap (a b : Obj)               (* scene.physics.overlap(a, b) *)
| BulletDestroy (b : nat)           (* bullet.destroy() *)
| TakeDamage (by_ : Obj) (e : nat)  (* enemy.takeDamage(), and its cause *)
| EmitParticleAt (x y : Q) (n : Z)
| Sound (s : SoundId)
| BossDefeated                      (* onBossDefeated() *)
| EnemyDestroy (e : nat) (ty : EnemyType)  (* enemy.destroy() *)
| ScoreUpdate (score kills : Z)     (* onScoreUpdate(score, kills) *)
| GameOver                          (* onGameOver() *)
| Apply (p : nat)                   (* powerUp.apply(player) *)
| Collect (p : nat)                 (* powerUp.collect() *)
| GrenadeCountUpdate (count : Z).   (* onGrenadeCountUpdate(count) *)

(** The system's fields and the objects passed to [checkCollisions],
    which mutates them in place. [draws] counts the calls of
    [Math.random]. *)
Record World : Type := mkWorld {
  score : Z;
  kills : Z;
  player : Player.t;
  bullets : list Bullet.t;
  grenades : list Grenade.t;
  enemies : list Enemy.t;
  powerUps : list PowerUp.t;
  draws : nat
}.

Definition getPointsForEnemy (type : EnemyType) : Z :=
  if String.eqb type EnemyType.SOLDIER then SOLDIER_POINTS
  else if String.eqb type EnemyType.TANK then TANK_POINTS
  else if String.eqb type EnemyType.JEEP then JEEP_POINTS
  else if String.eqb type EnemyType.KNIFE_SOLDIER then KNIFE_SOLDIER_POINTS
  else if String.eqb type EnemyType.ROCKET_LAUNCHER
    then ROCKET_LAUNCHER_POINTS
  else if String.eqb type EnemyType.COVERED_SOLDIER
    then COVERED_SOLDIER_POINTS
  else if String.eqb type EnemyType.BUNKER then BUNKER_POINTS
  else if String.eqb type EnemyType.BOSS then BOSS_POINTS
  else 100.

(** [distance <= explosionRadius] with [distance] the value of
    [Phaser.Math.Distance.Between(grenadeX, grenadeY, enemySprite.x,
    enemySprite.y)]; a distance that is not finite is not below any
    radius. *)
Definition withinRadius (g : Grenade.t) (e : Enemy.t) : bool :=
  match Distance.Between (Grenade.getX g) (Grenade.getY g)
          (sx (Enemy.sprite e)) (sy (Enemy.sprite e)) with
  | Some distance => Qle_bool distance (Grenade.getExplosionRadius g)
  | None => false
  end.

Section Call.
(** [scene.physics.overlap], the [Math.random] oracle, and whether
    the optional [onBossDefeated] was passed. *)
Variable overlap : Sprite -> Sprite -> bool.
Variable random : nat -> Q.
Variable onBossDefeated : bool.

(** [enemies[j].takeDamage()] for the projectile [by_]; when it
    answers [true], the block that scores the kill and splices the
    enemy out. [particles] and [sound] are what differs between the
    bullet loop (16, death sound) and the grenade loop (8, none). *)
Definition damageEnemy (by_ : Obj) (particles : Z) (sound : bool)
    (j : nat) (e : Enemy.t) (w : World) : World * list Event :=
  let '(e', destroyed, d') := takeDamage_dispatch random (draws w) e in
  let hit := TakeDamage by_ (Enemy.oid e) in
  if destroyed then
    let enemyType := Enemy.type e' in
    let points := getPointsForEnemy enemyType in
    let score' := score w + points in
    let kills' := kills w + 1 in
    (mkWorld score' kills' (player w) (bullets w) (grenades w)
             (delete j (<[j := e']> (enemies w))) (powerUps w) d',
     [hit; EmitParticleAt (sx (Enemy.sprite e')) (sy (Enemy.sprite e'))
             particles]
     ++ (if sound then [Sound EnemyDeathSound] else [])
     ++ (if String.eqb enemyType EnemyType.BOSS && onBossDefeated
         then [BossDefeated] else [])
     ++ [EnemyDestroy (Enemy.oid e') enemyType;
         ScoreUpdate score' kills'])
  else
    (mkWorld (score w) (kills w) (player w) (bullets w) (grenades w)
             (<[j := e']> (enemies w)) (powerUps w) d',
     [hit]).

Definition spliceBullet (i : nat) (w : World) : World :=
  mkWorld (score w) (kills w) (player w) (delete i (bullets w))
          (grenades w) (enemies w) (powerUps w) (draws w).

(** The inner loop of the bullet pass, for the bullet [b] at index
    [i]: [for (j = n - 1; j >= 0; j--)]. It stops at the first
    overlap. The loop starts at [n = enemies.length], so the read of
    [enemies[j]] never leaves the array. *)
Fixpoint bulletScan (b : Bullet.t) (i : nat) (n : nat) (w : World)
    : World * list Event :=
  match n with
  | O => (w, [])
  | S j =>
      match enemies w !! j with
      | None => (w, [])
      | Some e =>
          let test := Overlap (OBullet (Bullet.oid b))
                              (OEnemy (Enemy.oid e)) in
          if overlap (Bullet.sprite b) (Enemy.sprite e) then
            let '(w', tr) :=
              damageEnemy (OBullet (Bullet.oid b)) 16 true j e
                          (spliceBullet i w) in
            (w', test :: BulletDestroy (Bullet.oid b) :: tr)
          else
            let '(w', tr) := bulletScan b i j w in
            (w', test :: tr)
      end
  end.

(** The bullet pass: [for (i = n - 1; i >= 0; i--)]. *)
Fixpoint bulletLoop (n : nat) (w : World) : World * list Event :=
  match n with
  | O => (w, [])
  | S i =>
      match bullets w !! i with
      | None => (w, [])
      | Some b =>
          let '(w1, t1) := bulletScan b i (length (enemies w)) w in
          let '(w2, t2) := bulletLoop i w1 in
          (w2, t1 ++ t2)
      end
  end.

(** The inner loop of the grenade pass for an exploded grenade [g]:
    every enemy is looked at, none stops the loop. *)
Fixpoint grenadeScan (g : Grenade.t) (n : nat) (w : World)
    : World * list Event :=
  match n with
  | O => (w, [])
  | S j =>
      match enemies w !! j with
      | None => (w, [])
      | Some e =>
          if withinRadius g e then
            let '(w1, t1) :=
              damageEnemy (OGrenade (Grenade.oid g)) 8 false j e w in
            let '(w2, t2) := grenadeScan g j w1 in
            (w2, t1 ++ t2)
          else grenadeScan g j w
      end
  end.

(** The grenade pass. *)
Fixpoint grenadeLoop (n : nat) (w : World) : World * list Event :=
  match n with
  | O => (w, [])
  | S i =>
      match grenades w !! i with
      | None => (w, [])
      | Some g =>
          if Grenade.isExploded g then
            let '(w1, t1) := grenadeScan g (length (enemies w)) w in
            let '(w2, t2) := grenadeLoop i w1 in
            (w2,
             EmitParticleAt (Grenade.getX g) (Grenade.getY g)
                   (EXPLOSION_PARTICLE_COUNT * 2)
             :: Sound ExplosionSound :: t1 ++ t2)
          else grenadeLoop i w
      end
  end.

(** [for (const enemy of enemies)] of the player pass: [true] when
    the loop left the function through [return]. *)
Fixpoint playerScan (p : Player.t) (es : list Enemy.t)
    : bool * list Event :=
  match es with
  | [] => (false, [])
  | e :: es' =>
      let test := Overlap OPlayer (OEnemy (Enemy.oid e)) in
      if overlap (Player.sprite p) (Enemy.sprite e) then
        (true, [test; Sound PlayerHitSound; GameOver])
      else
        let '(r, tr) := playerScan p es' in (r, test :: tr)
  end.

Definition setPickup (p : Player.t) (us : list PowerUp.t) (w : World)
    : World :=
  mkWorld (score w) (kills w) p (bullets w) (grenades w) (enemies w)
          us (draws w).

(** The power-up pass: [for (i = n - 1; i >= 0; i--)], left at the
    first overlap. [now] is the scene clock read by [apply]. *)
Fixpoint powerUpLoop (now : Q) (n : nat) (w : World)
    : World * list Event :=
  match n with
  | O => (w, [])
  | S i =>
      match powerUps w !! i with
      | None => (w, [])
      | Some u =>
          let test := Overlap OPlayer (OPowerUp (PowerUp.oid u)) in
          if overlap (Player.sprite (player w)) (PowerUp.sprite u) then
            let p' := PowerUp.apply now u (player w) in
            (setPickup p' (<[i := PowerUp.collect u]> (powerUps w)) w,
             [test; Apply (PowerUp.oid u); Collect (PowerUp.oid u);
              Sound PowerUpSound;
              GrenadeCountUpdate (Player.getGrenadeCount p')])
          else
            let '(w', tr) := powerUpLoop now i w in (w', test :: tr)
      end
  end.

(** [checkCollisions]: the world after the call, whose lists are the
    returned ones, and the trace of the call. *)
Definition checkCollisions (now : Q) (w : World) : World * list Event :=
  let '(w1, t1) := bulletLoop (length (bullets w)) w in
  let '(w2, t2) := grenadeLoop (length (grenades w1)) w1 in
  let '(dead, t3) :=
    if negb (Player.getIsInvincible (player w2))
       && negb (Player.getIsDead (player w2))
    then playerScan (player w2) (enemies w2)
    else (false, []) in
  if dead then (w2, t1 ++ t2 ++ t3)
  else
    let '(w4, t4) := powerUpLoop now (length (powerUps w2)) w2 in
    (w4, t1 ++ t2 ++ t3 ++ t4).

End Call.

(** *** Reading a trace *)

Fixpoint count (p : Event -> bool) (tr : list Event) : nat :=
  match tr with
  | [] => O
  | ev :: tr' => (if p ev then 1 else 0)%nat + count p tr'
  end.

(** A call of [takeDamage] caused by [by_], on any enemy. *)
Definition isDamageBy (by_ : Obj) (ev : Event) : bool :=
  match ev with
  | TakeDamage o _ => bool_decide (o = by_)
  | _ => false
  end.

(** A call of [takeDamage] caused by [by_] on the enemy [e]. *)
Definition isDamageByOn (by_ : Obj) (e : nat) (ev : Event) : bool :=
  match ev with
  | TakeDamage o e' => bool_decide (o = by_) && bool_decide (e' = e)
  | _ => false
  end.

(** An overlap test whose first argument is [o]. *)
Definition isTestOf (o : Obj) (ev : Event) : bool :=
  match ev with
  | Overlap a _ => bool_decide (a = o)
  | _ => false
  end.

Definition isBossDefeated (ev : Event) : bool :=
  match ev with BossDefeated => true | _ => false end.

Definition isPickup (ev : Event) : bool :=
  match ev with
  | Apply _ | Collect _ | GrenadeCountUpdate _ => true
  | _ => false
  end.

(** The archetypes of the enemies destroyed, in order. *)
Fixpoint destroyed (tr : list Event) : list EnemyType :=
  match tr with
  | [] => []
  | EnemyDestroy _ ty :: tr' => ty :: destroyed tr'
  | _ :: tr' => destroyed tr'
  end.

Fixpoint sumPoints (tys : list EnemyType) : Z :=
  match tys with
  | [] => 0
  | ty :: tys' => getPointsForEnemy ty + sumPoints tys'
  end.

Definition isGameOver (ev : Event) : bool :=
  match ev with GameOver => true | _ => false end.

(** [enemy.destroy()] on the enemy [e]. *)
Definition isDestroyOf (e : nat) (ev : Event) : bool :=
  match ev with
  | EnemyDestroy e' _ => bool_decide (e' = e)
  | _ => false
  end.

(** An overlap test or a [takeDamage] on behalf of the bullet [b]. *)
Definition aboutBullet (b : nat) (ev : Event) : bool :=
  isTestOf (OBullet b) ev || isDamageBy (OBullet b) ev.

(** Events that leave the world as it is: tests, particles, sounds and
    the destroy of a bullet's sprite. *)
Definition quiet (ev : Event) : bool :=
  match ev with
  | Overlap _ _ | BulletDestroy _ | EmitParticleAt _ _ _ | Sound _ => true
  | _ => false
  end.

(** The events after the first one that satisfies [p]. *)
Fixpoint after (p : Event -> bool) (tr : list Event) : list Event :=
  match tr with
  | [] => []
  | ev :: tr' => if p ev then tr' else after p tr'
  end.

(** The number of Boss tags in a list of archetypes. *)
Fixpoint countBoss (tys : list EnemyType) : nat :=
  match tys with
  | [] => O
  | ty :: tys' =>
      ((if String.eqb ty EnemyType.BOSS then 1 else 0) + countBoss tys')%nat
  end.

(** A stand-in for [scene.physics.overlap] in the examples: two sprites
    overlap when their centres are at most 10 apart. *)
Definition nearby (a b : Sprite) : bool :=
  Qle_bool ((sx a - sx b) * (sx a - sx b) + (sy a - sy b) * (sy a - sy b))
           100.

(** The damage passes keep the player, the power-ups and the grenades,
    and neither fire the death callback nor pick anything up. *)
Definition framed (w : World) (tr : list Event) (w' : World) : Prop :=
  player w' = player w /\ powerUps w' = powerUps w
  /\ grenades w' = grenades w
  /\ count isGameOver tr = 0%nat /\ count isPickup tr = 0%nat.

(** What no [takeDamage] changes in an enemy: its identity, its place
    and its archetype. *)
Definition key (e : Enemy.t) : nat * Q * Q * EnemyType :=
  (Enemy.oid e, sx (Enemy.sprite e), sy (Enemy.sprite e), Enemy.type e).

(** Score and kills move with the enemies destroyed, and the boss
    callback, when there is one, with the Boss tags among them. *)
Definition accounted (onBossDefeated : bool)
    (w : World) (tr : list Event) (w' : World) : Prop :=
  score w' = score w + sumPoints (destroyed tr)
  /\ kills w' = kills w + Z.of_nat (length (destroyed tr))
  /\ count isBossDefeated tr
     = (if onBossDefeated then countBoss (destroyed tr) else 0%nat).

(** The events before the first one that satisfies [p]; all of them
    when none does. *)
Fixpoint before (p : Event -> bool) (tr : list Event) : list Event :=
  match tr with
  | [] => []
  | ev :: tr' => if p ev then [] else ev :: before p tr'
  end.

(** What the explosion of [g] does to the enemies [es], read off the
    trace [tr]: an enemy takes at most one [takeDamage] from [g]; one
    that takes it is in [es] and within the radius; one of [es] within
    the radius takes it exactly when it was not destroyed before [g]
    damaged anything. *)
Definition blastSpec (g : Grenade.t) (es : list Enemy.t)
    (tr : list Event) : Prop :=
  forall y : nat,
    let by_g := isDamageBy (OGrenade (Grenade.oid g)) in
    let hits := count (isDamageByOn (OGrenade (Grenade.oid g)) y) tr in
    (hits <= 1)%nat
    /\ (hits = 1%nat ->
        exists e, e ∈ es /\ Enemy.oid e = y /\ withinRadius g e = true)
    /\ (forall e,
          e ∈ es -> Enemy.oid e = y -> withinRadius g e = true ->
          hits = 1%nat <-> count (isDestroyOf y) (before by_g tr) = 0%nat).

(** The enemies after are enemies from before, in the same order and at
    the same place; the ones destroyed were in the list; the ones not
    destroyed are still there; the ones destroyed are not, when no two
    enemies share an identity. *)
Definition evolves (w : World) (tr : list Event) (w' : World) : Prop :=
  key <$> enemies w' `sublist_of` key <$> enemies w
  /\ (forall x ty,
        EnemyDestroy x ty ∈ tr ->
        exists e, e ∈ enemies w /\ Enemy.oid e = x /\ Enemy.type e = ty)
  /\ (forall e,
        e ∈ enemies w -> count (isDestroyOf (Enemy.oid e)) tr = 0%nat ->
        key e ∈ key <$> enemies w')
  /\ (NoDup (Enemy.oid <$> enemies w) ->
      forall y, count (isDestroyOf y) tr <> 0%nat ->
                y ∉ Enemy.oid <$> enemies w').

(** [powerUp.apply(player)], on any power-up. *)
Definition isApply (ev : Event) : bool :=
  match ev with Apply _ => true | _ => false end.

End CollisionSystem.

(** ** systems/SpawnSystem.ts *)

Module SpawnSystem.
Import GameConfig.

Record t : Type := mk {
  lastEnemySpawn : Q;
  enemySpawnRate : Q;
  lastPowerUpSpawn : Q;
  powerUpSpawnRate : Q
}.

Definition constructor : t := mk 0 ENEMY_SPAWN_RATE_INITIAL 0 15000.

Definition shouldSpawnPowerUp (time : Q) (s : t) : bool :=
  Qltb (lastPowerUpSpawn s + powerUpSpawnRate s) time.

Definition shouldSpawn (time : Q) (s : t) : bool :=
  Qltb (lastEnemySpawn s + enemySpawnRate s) time.

(** The timers of [update]. The enemies and the power-up it pushes are
    left out; the two booleans say whether it spawned enemies and
    whether it spawned a power-up. *)
Definition update (time mapProgress : Q) (s : t) : t * bool * bool :=
  let spawnE := shouldSpawn time s in
  let s1 :=
    if spawnE then
      mk time
         (Qmax ENEMY_SPAWN_RATE_MIN
               (ENEMY_SPAWN_RATE_INITIAL - mapProgress / 10))
         (lastPowerUpSpawn s) (powerUpSpawnRate s)
    else s in
  let spawnP := shouldSpawnPowerUp time s1 in
  let s2 :=
    if spawnP then
      mk (lastEnemySpawn s1) (enemySpawnRate s1) time (powerUpSpawnRate s1)
    else s1 in
  (s2, spawnE, spawnP).

(** The class whose constructor [createRandomEnemy] calls. *)
Inductive EnemyClass : Type :=
| Soldier | Jeep | Tank | KnifeSoldier | CoveredSoldier
| RocketLauncher | Bunker | Boss.

#[global] Instance EnemyClass_eq_dec : EqDecision EnemyClass.
Proof. solve_decision. Defined.

(** [createRandomEnemy], as a function of its draw [roll]. *)
Definition createRandomEnemy (roll mapProgress : Q) : EnemyClass :=
  if Qltb mapProgress 100 then
    if Qltb roll 0.60 then Soldier
    else if Qltb roll 0.85 then Jeep
    else Tank
  else if Qltb mapProgress 200 then
    if Qltb roll 0.40 then Soldier
    else if Qltb roll 0.60 then Jeep
    else if Qltb roll 0.75 then Tank
    else if Qltb roll 0.90 then KnifeSoldier
    else CoveredSoldier
  else if Qltb mapProgress 300 then
    if Qltb roll 0.30 then Soldier
    else if Qltb roll 0.45 then Jeep
    else if Qltb roll 0.60 then Tank
    else if Qltb roll 0.75 then KnifeSoldier
    else if Qltb roll 0.85 then CoveredSoldier
    else if Qltb roll 0.95 then RocketLauncher
    else Bunker
  else
    if Qltb roll 0.25 then Soldier
    else if Qltb roll 0.35 then Jeep
    else if Qltb roll 0.45 then Tank
    else if Qltb roll 0.60 then KnifeSoldier
    else if Qltb roll 0.70 then CoveredSoldier
    else if Qltb roll 0.85 then RocketLauncher
    else if Qltb roll 0.95 then Bunker
    else Boss.

(** The table of the specification: the share of each class in each
    progress band, in the order Soldier, Jeep, Tank, KnifeSoldier,
    CoveredSoldier, RocketLauncher, Bunker, Boss. *)
Definition band (mapProgress : Q) : nat :=
  if Qltb mapProgress 100 then 0%nat
  else if Qltb mapProgress 200 then 1%nat
  else if Qltb mapProgress 300 then 2%nat
  else 3%nat.

Definition shareIn (b : nat) (c : EnemyClass) : Q :=
  match b, c with
  | 0%nat, Soldier => 0.60 | 0%nat, Jeep => 0.25 | 0%nat, Tank => 0.15
  | 0%nat, _ => 0
  | 1%nat, Soldier => 0.40 | 1%nat, Jeep => 0.20 | 1%nat, Tank => 0.15
  | 1%nat, KnifeSoldier => 0.15 | 1%nat, CoveredSoldier => 0.10
  | 1%nat, _ => 0
  | 2%nat, Soldier => 0.30 | 2%nat, Jeep => 0.15 | 2%nat, Tank => 0.15
  | 2%nat, KnifeSoldier => 0.15 | 2%nat, CoveredSoldier => 0.10
  | 2%nat, RocketLauncher => 0.10 | 2%nat, Bunker => 0.05
  | 2%nat, Boss => 0
  | _, Soldier => 0.25 | _, Jeep => 0.10 | _, Tank => 0.10
  | _, KnifeSoldier => 0.15 | _, CoveredSoldier => 0.10
  | _, RocketLauncher => 0.15 | _, Bunker => 0.10 | _, Boss => 0.05
  end.

Definition share (mapProgress : Q) (c : EnemyClass) : Q :=
  shareIn (band mapProgress) c.

(** The classes in the order of the thresholds. *)
Definition classes : list EnemyClass :=
  [Soldier; Jeep; Tank; KnifeSoldier; CoveredSoldier; RocketLauncher;
   Bunker; Boss].

Fixpoint sumShares (b : nat) (cs : list EnemyClass) : Q :=
  match cs with
  | [] => 0
  | c :: cs' => (shareIn b c + sumShares b cs')%Q
  end.

(** The classes listed before [c]. *)
Fixpoint before (c : EnemyClass) (cs : list EnemyClass)
    : list EnemyClass :=
  match cs with
  | [] => []
  | c' :: cs' => if bool_decide (c' = c) then [] else c' :: before c cs'
  end.

(** The cumulative threshold below [c]: the shares of the classes
    before it, added up. *)
Definition cumulative (mapProgress : Q) (c : EnemyClass) : Q :=
  sumShares (band mapProgress) (before c classes).

(** The progress from which a class can be spawned. *)
Definition threshold (c : EnemyClass) : Q :=
  match c with
  | Soldier | Jeep | Tank => 0
  | KnifeSoldier | CoveredSoldier => 100
  | RocketLauncher | Bunker => 200
  | Boss => 300
  end.

(** [reset()]. *)
Definition reset (s : t) : t :=
  mk 0 ENEMY_SPAWN_RATE_INITIAL 0 (powerUpSpawnRate s).

(** The class whose constructor [createRandomPowerUp] calls. *)
Inductive PowerUpClass : Type :=
| GrenadePack | SpeedBoost | Shield | WeaponUpgrade.

#[global] Instance PowerUpClass_eq_dec : EqDecision PowerUpClass.
Proof. solve_decision. Defined.

(** [createRandomPowerUp], as a function of its draw [roll]. *)
Definition createRandomPowerUp (roll : Q) : PowerUpClass :=
  if Qltb roll 0.4 then GrenadePack
  else if Qltb roll 0.7 then SpeedBoost
  else if Qltb roll 0.9 then Shield
  else WeaponUpgrade.

(** [getRandomSpawnPosition()]: [spawnRoll] is its draw and [between]
    answers its one call of [Phaser.Math.Between]. *)
Definition getRandomSpawnPosition (spawnRoll : Q) (between : Q -> Q -> Q)
    : Q * Q :=
  if Qltb spawnRoll SPAWN_FROM_TOP then
    (between 50 (SCREEN_WIDTH - 50), -40)%Q
  else if Qltb spawnRoll (SPAWN_FROM_TOP + SPAWN_FROM_LEFT) then
    (-40, between 50 (SCREEN_HEIGHT - 50))%Q
  else
    (SCREEN_WIDTH + 40, between 50 (SCREEN_HEIGHT - 50))%Q.

(** Successive calls of [update], each with its [time] and
    [mapProgress]: the system after them, the times at which enemies
    were spawned and the times at which a power-up was. *)
Fixpoint updates (calls : list (Q * Q)) (s : t) : t * list Q * list Q :=
  match calls with
  | [] => (s, [], [])
  | (time, mapProgress) :: calls' =>
      let '(s1, e, p) := update time mapProgress s in
      let '(s2, es, ps) := updates calls' s1 in
      (s2, (if e then [time] else []) ++ es,
           (if p then [time] else []) ++ ps)
  end.

(** Each time of [ts] comes more than [d] after the one before it, the
    first one more than [d] after [last]. *)
Fixpoint gapped (d last : Q) (ts : list Q) : Prop :=
  match ts with
  | [] => True
  | t :: ts' => (last + d < t)%Q /\ gapped d t ts'
  end.
End SpawnSystem.

(** ** systems/LevelSystem.ts *)

Module LevelSystem.

Inductive ObjectiveType : Type :=
| TKills | TDistance | TSurvive | TBoss.

Record LevelObjective : Type := mkObjective {
  type : ObjectiveType;
  target : Q;
  description : string;
  completed : bool
}.

(** The [briefing] text is presentation only and is left out. *)
Record LevelData : Type := mkLevel {
  number : Z;
  name : string;
  environment : string;
  objectives : list LevelObjective;
  victoryDistance : Q;
  bossRequired : bool;
  difficulty : Q
}.

Record LevelProgress : Type := mkProgress {
  currentLevel : Z;
  levelsCompleted : list Z;
  totalScore : Z;
  totalKills : Z
}.

(** The entry of [localStorage] under [STORAGE_KEY]: the progress it
    holds, if any; whether reading it throws ([getItem], or
    [JSON.parse] on what it returns), and whether writing it
    ([setItem]) throws. The source catches the two apart. *)
Record Storage : Type := mkStorage {
  item : option LevelProgress;
  readFails : bool;
  writeFails : bool
}.

Record t : Type := mk {
  current : Z;                      (* this.currentLevel *)
  levels : gmap Z LevelData
}.

Definition initializeLevels : gmap Z LevelData :=
  <[3 := mkLevel 3 "OPERATION: FROZEN STRIKE" "arctic"
           [mkObjective TDistance 500
              "Advance 500m through arctic base" false;
            mkObjective TKills 35 "Eliminate 35 enemy combatants" false;
            mkObjective TBoss 1 "Defeat installation commander" false]
           500 true 1.6]>
  (<[2 := mkLevel 2 "OPERATION: DESERT HAWK" "desert"
           [mkObjective TDistance 400 "Advance 400m through desert" false;
            mkObjective TKills 25 "Eliminate 25 enemy combatants" false]
           400 false 1.3]>
  (<[1 := mkLevel 1 "OPERATION: JUNGLE STORM" "jungle"
           [mkObjective TDistance 300
              "Advance 300m into enemy territory" false;
            mkObjective TKills 15 "Eliminate 15 enemy combatants" false]
           300 false 1.0]> ∅)).

Definition defaultProgress : LevelProgress := mkProgress 1 [] 0 0.

(** [getProgress()]: what the store holds, or the default. *)
Definition getProgress (st : Storage) : LevelProgress :=
  if readFails st then defaultProgress
  else match item st with
       | Some p => p
       | None => defaultProgress
       end.

(** [saveProgress(progress)]: a [setItem] that throws is caught and
    leaves the entry as it was. *)
Definition saveProgress (p : LevelProgress) (st : Storage) : Storage :=
  if writeFails st then st
  else mkStorage (Some p) (readFails st) (writeFails st).

(** The constructor: [initializeLevels()] then [loadProgress()]. *)
Definition constructor (st : Storage) : t :=
  mk (if readFails st then 1
      else match item st with
           | Some p => currentLevel p
           | None => 1
           end)
     initializeLevels.

(** [levels.get(currentLevel) || levels.get(1)!]; [None] is
    [undefined]. *)
Definition getCurrentLevelData (s : t) : option LevelData :=
  match levels s !! current s with
  | Some l => Some l
  | None => levels s !! 1
  end.

(** The loop of [areObjectivesComplete] over the objectives. *)
Fixpoint checkObjectives (kills : Z) (distance : Q) (bossDefeated : bool)
    (os : list LevelObjective) : bool :=
  match os with
  | [] => true
  | o :: os' =>
      match type o with
      | TKills =>
          if Qltb (inject_Z kills) (target o) then false
          else checkObjectives kills distance bossDefeated os'
      | TDistance =>
          if Qltb distance (target o) then false
          else checkObjectives kills distance bossDefeated os'
      | TBoss =>
          if negb bossDefeated then false
          else checkObjectives kills distance bossDefeated os'
      | TSurvive => checkObjectives kills distance bossDefeated os'
      end
  end.

(** [areObjectivesComplete]; [None] when there is no level to read
    (a [TypeError] in the source). *)
Definition areObjectivesComplete (kills : Z) (distance : Q)
    (bossDefeated : bool) (s : t) : option bool :=
  match getCurrentLevelData s with
  | Some level =>
      Some (checkObjectives kills distance bossDefeated (objectives level))
  | None => None
  end.

Definition hasNextLevel (s : t) : bool :=
  bool_decide (is_Some (levels s !! (current s + 1))).

(** [completeLevel(score, kills)]. *)
Definition completeLevel (score kills : Z) (s : t) (st : Storage)
    : t * Storage :=
  let progress := getProgress st in
  let completed' :=
    if bool_decide (current s ∈ levelsCompleted progress)
    then levelsCompleted progress
    else levelsCompleted progress ++ [current s] in
  let totalScore' := totalScore progress + score in
  let totalKills' := totalKills progress + kills in
  if hasNextLevel s then
    let next := current s + 1 in
    (mk next (levels s),
     saveProgress (mkProgress next completed' totalScore' totalKills') st)
  else
    (s,
     saveProgress
       (mkProgress (currentLevel progress) completed' totalScore'
                   totalKills') st).

Definition getLevelData (levelNumber : Z) (s : t) : option LevelData :=
  levels s !! levelNumber.

Definition getCurrentLevel (s : t) : Z := current s.

Definition getObjectives (s : t) : option (list LevelObjective) :=
  objectives <$> getCurrentLevelData s.

(** The body of the [forEach] of [updateObjectives]. *)
Definition updateObjective (kills : Z) (distance : Q) (bossDefeated : bool)
    (o : LevelObjective) : LevelObjective :=
  match type o with
  | TKills =>
      mkObjective (type o) (target o) (description o)
                  (Qle_bool (target o) (inject_Z kills))
  | TDistance =>
      mkObjective (type o) (target o) (description o)
                  (Qle_bool (target o) distance)
  | TBoss => mkObjective (type o) (target o) (description o) bossDefeated
  | TSurvive => o
  end.

(** The key under which [getCurrentLevelData] finds its level. *)
Definition currentKey (s : t) : Z :=
  if bool_decide (is_Some (levels s !! current s)) then current s else 1.

(** [updateObjectives]: the objectives are written in place, in the
    level held by the map, and returned. *)
Definition updateObjectives (kills : Z) (distance : Q) (bossDefeated : bool)
    (s : t) : option (t * list LevelObjective) :=
  match getCurrentLevelData s with
  | Some level =>
      let os := map (updateObjective kills distance bossDefeated)
                    (objectives level) in
      let level' :=
        mkLevel (number level) (name level) (environment level) os
                (victoryDistance level) (bossRequired level)
                (difficulty level) in
      Some (mk (current s) (<[currentKey s := level']> (levels s)), os)
  | None => None
  end.

Definition setLevel (levelNumber : Z) (s : t) : t :=
  if bool_decide (is_Some (levels s !! levelNumber))
  then mk levelNumber (levels s)
  else s.

Definition getTotalLevels (s : t) : nat := size (levels s).

Definition resetProgress (s : t) (st : Storage) : t * Storage :=
  (mk 1 (levels s), saveProgress defaultProgress st).

(** The calls that change a level system or its store. *)
Inductive call : Type :=
| CompleteLevel (score kills : Z)
| SetLevel (levelNumber : Z)
| ResetProgress
| UpdateObjectives (kills : Z) (distance : Q) (bossDefeated : bool).

Definition step (x : t * Storage) (c : call) : t * Storage :=
  let '(s, st) := x in
  match c with
  | CompleteLevel score kills => completeLevel score kills s st
  | SetLevel n => (setLevel n s, st)
  | ResetProgress => resetProgress s st
  | UpdateObjectives kills distance bossDefeated =>
      match updateObjectives kills distance bossDefeated s with
      | Some (s', _) => (s', st)
      | None => (s, st)
      end
  end.

Definition run (cs : list call) (x : t * Storage) : t * Storage :=
  fold_left step cs x.
(** What the specification asks of one objective. *)
Definition satisfied (kills : Z) (distance : Q) (bossDefeated : bool)
    (o : LevelObjective) : Prop :=
  match type o with
  | TKills => (target o <= inject_Z kills)%Q
  | TDistance => (target o <= distance)%Q
  | TBoss => bossDefeated = true
  | TSurvive => True
  end.

End LevelSystem.

(** ** systems/HighScoreSystem.ts *)

Module HighScoreSystem.

(** [distance] is a whole number: the callers pass [Math.floor]. *)
Record HighScoreEntry : Type := mkEntry {
  score : Z;
  kills : Z;
  distance : Z;
  date : string
}.

(** The entry of [localStorage] under [STORAGE_KEY]: the list it
    holds, if any; whether reading it throws, and whether writing
    does. *)
Record Storage : Type := mkStorage {
  item : option (list HighScoreEntry);
  readFails : bool;
  writeFails : bool
}.

Definition MAX_SCORES : nat := 10.

Definition getHighScores (st : Storage) : list HighScoreEntry :=
  if readFails st then []
  else match item st with
       | Some l => l
       | None => []
       end.

(** [scores.sort((a, b) => b.score - a.score)]: the sort is stable, so
    an entry goes behind the ones with the same score that came before
    it. *)
Fixpoint insert (x : HighScoreEntry) (l : list HighScoreEntry)
    : list HighScoreEntry :=
  match l with
  | [] => [x]
  | y :: l' => if score y <? score x then x :: y :: l' else y :: insert x l'
  end.

Definition sort (l : list HighScoreEntry) : list HighScoreEntry :=
  fold_left (fun acc x => insert x acc) l [].

Definition sameRun (score' kills' distance' : Z) (e : HighScoreEntry)
    : bool :=
  (score e =? score') && (kills e =? kills') && (distance e =? distance').

(** [saveScore(score, kills, distance)]; [date'] is the clock read by
    [new Date()]. *)
Definition saveScore (date' : string) (score' kills' distance' : Z)
    (st : Storage) : Storage * bool :=
  let scores :=
    sort (getHighScores st ++ [mkEntry score' kills' distance' date']) in
  let topScores := take MAX_SCORES scores in
  if writeFails st then (st, false)
  else (mkStorage (Some topScores) (readFails st) false,
        existsb (sameRun score' kills' distance') topScores).

Definition getHighestScore (st : Storage) : Z :=
  match getHighScores st with
  | [] => 0
  | e :: _ => score e
  end.


Definition clearHighScores (st : Storage) : Storage :=
  if writeFails st then st else mkStorage None (readFails st) false.

(** Successive calls of [saveScore]. *)
Definition saveAll (runs : list (string * Z * Z * Z)) (st : Storage)
    : Storage :=
  fold_left (fun st r =>
               let '(d, s, k, m) := r in fst (saveScore d s k m st))
            runs st.

(** The list is in the order the sort leaves it in. *)
Fixpoint descending (l : list HighScoreEntry) : Prop :=
  match l with
  | [] => True
  | x :: l' => Forall (fun y => score y <= score x) l' /\ descending l'
  end.

End HighScoreSystem.

(** ** scenes/GameScene.ts *)

Module GameScene.
Import GameConfig.

(** [updateBullets()]: [for (i = n - 1; i >= 0; i--)]; the bullets
    kept and the identities of the ones destroyed. *)
Fixpoint updateBulletsLoop (n : nat) (bs : list Bullet.t)
    : list Bullet.t * list nat :=
  match n with
  | O => (bs, [])
  | S i =>
      match bs !! i with
      | None => (bs, [])
      | Some b =>
          if Bullet.isOffScreen b then
            let '(bs', tr) := updateBulletsLoop i (delete i bs) in
            (bs', Bullet.oid b :: tr)
          else updateBulletsLoop i bs
      end
  end.

Definition updateBullets (bs : list Bullet.t) : list Bullet.t * list nat :=
  updateBulletsLoop (length bs) bs.

(** [updateGrenadeStates()], with [now] the scene clock: the grenades
    kept and, by grenade, what the calls asked of the scene. *)
Fixpoint updateGrenadeStatesLoop (now : Q) (n : nat) (gs : list Grenade.t)
    : list Grenade.t * list (nat * Grenade.Effect) :=
  match n with
  | O => (gs, [])
  | S i =>
      match gs !! i with
      | None => (gs, [])
      | Some g =>
          let '(g', eff) := Grenade.update now g in
          let gs1 := <[i := g']> gs in
          if Grenade.shouldBeDestroyed g' then
            let '(gs2, tr) := updateGrenadeStatesLoop now i (delete i gs1) in
            (gs2,
             map (pair (Grenade.oid g)) (eff ++ [Grenade.SpriteDestroy])
             ++ tr)
          else
            let '(gs2, tr) := updateGrenadeStatesLoop now i gs1 in
            (gs2, map (pair (Grenade.oid g)) eff ++ tr)
      end
  end.

Definition updateGrenadeStates (now : Q) (gs : list Grenade.t)
    : list Grenade.t * list (nat * Grenade.Effect) :=
  updateGrenadeStatesLoop now (length gs) gs.

(** [updatePowerUps()]. *)
Fixpoint updatePowerUpsLoop (n : nat) (us : list PowerUp.t)
    : list PowerUp.t * list nat :=
  match n with
  | O => (us, [])
  | S i =>
      match us !! i with
      | None => (us, [])
      | Some u =>
          if PowerUp.isOffScreen u || PowerUp.isCollected u then
            let '(us', tr) := updatePowerUpsLoop i (delete i us) in
            (us', PowerUp.oid u :: tr)
          else updatePowerUpsLoop i us
      end
  end.

Definition updatePowerUps (us : list PowerUp.t) : list PowerUp.t * list nat :=
  updatePowerUpsLoop (length us) us.

(** The fields of the scene that the end of a life and the end of a
    level read or write. *)
Record t : Type := mk {
  player : Player.t;
  bullets : list Bullet.t;
  grenades : list Grenade.t;
  enemies : list Enemy.t;
  powerUps : list PowerUp.t;
  mapProgress : Q;
  lives : Z;
  hasWon : bool;
  bossDefeated : bool;
  isGameOverOrVictory : bool
}.

Definition onBossDefeated (s : t) : t :=
  mk (player s) (bullets s) (grenades s) (enemies s) (powerUps s)
     (mapProgress s) (lives s) (hasWon s) true (isGameOverOrVictory s).

Definition updateMapProgress (delta : Q) (s : t) : t :=
  mk (player s) (bullets s) (grenades s) (enemies s) (powerUps s)
     (mapProgress s + delta / 100)%Q (lives s) (hasWon s) (bossDefeated s)
     (isGameOverOrVictory s).

(** [respawnPlayer()], with [now] the scene clock. *)
Definition respawnPlayer (now : Q) (s : t) : t :=
  let spawnX := (SCREEN_WIDTH / 2)%Q in
  let spawnY := (SCREEN_HEIGHT - 100)%Q in
  mk (Player.respawn spawnX spawnY now PLAYER_RESPAWN_INVINCIBILITY_TIME
                     (player s))
     (bullets s) [] [] (powerUps s) (mapProgress s) (lives s) (hasWon s)
     (bossDefeated s) (isGameOverOrVictory s).

Definition triggerGameOver (s : t) : t :=
  if isGameOverOrVictory s then s
  else mk (player s) (bullets s) (grenades s) (enemies s) (powerUps s)
          (mapProgress s) (lives s) (hasWon s) (bossDefeated s) true.

(** [onGameOver()] up to its [await]: [None] when it returns at once,
    else the scene with the death animation started. *)
Definition onGameOver_begin (s : t) : option t :=
  if isGameOverOrVictory s then None
  else
    Some (mk (Player.playDeathAnimation (player s)) (bullets s)
             (grenades s) (enemies s) (powerUps s) (mapProgress s)
             (lives s) (hasWon s) (bossDefeated s)
             (isGameOverOrVictory s)).

(** The rest of [onGameOver()], run when the animation has ended. *)
Definition onGameOver_resume (now : Q) (s : t) : t :=
  let s1 :=
    mk (player s) (bullets s) (grenades s) (enemies s) (powerUps s)
       (mapProgress s) (lives s - 1) (hasWon s) (bossDefeated s)
       (isGameOverOrVictory s) in
  if 0 <? lives s1 then respawnPlayer now s1 else triggerGameOver s1.

(** What goes on in a scene while it runs: a call of [onGameOver()],
    which runs up to its [await]; the end of a death animation, which
    runs the rest of a call that waits there; and whatever the frames
    and the other callbacks do in between. *)
Inductive step : Type :=
| OnGameOver
| AnimationEnds (now : Q)
| Frames (f : t -> t).

(** A scene with the calls of [onGameOver] that wait at their
    [await], and the number of those that have run to their end. *)
Record Running : Type := mkRunning {
  scene : t;
  waiting : nat;
  ended : nat
}.

Definition run1 (r : Running) (x : step) : Running :=
  match x with
  | OnGameOver =>
      match onGameOver_begin (scene r) with
      | None => r
      | Some s1 => mkRunning s1 (S (waiting r)) (ended r)
      end
  | AnimationEnds now =>
      match waiting r with
      | O => r
      | S k => mkRunning (onGameOver_resume now (scene r)) k (S (ended r))
      end
  | Frames f => mkRunning (f (scene r)) (waiting r) (ended r)
  end.

Definition runs (xs : list step) (r : Running) : Running :=
  fold_left run1 xs r.

(** What no frame does: [lives] is written by [create] and by
    [onGameOver] alone, and [isGameOverOrVictory] is cleared by
    [create] alone. *)
Definition keepsLives (x : step) : Prop :=
  match x with
  | Frames f =>
      forall s, lives (f s) = lives s
                /\ (isGameOverOrVictory s = true ->
                    isGameOverOrVictory (f s) = true)
  | _ => True
  end.

Definition isCall (x : step) : bool :=
  match x with OnGameOver => true | _ => false end.

(** A frame in which no victory is declared either. *)
Definition keepsFlag (x : step) : Prop :=
  match x with
  | Frames f => forall s, isGameOverOrVictory (f s) = isGameOverOrVictory s
  | _ => True
  end.

Inductive SceneKey : Type :=
| MissionBriefingScene | MainMenuScene.

Definition handleVictoryRestart (hasNextLevel : bool) : SceneKey :=
  if hasNextLevel then MissionBriefingScene else MainMenuScene.

(** [triggerVictory()]: [score] and [kills] are the ones of the
    collision system; the scene the victory screen leads to is [None]
    when the call returns at once. *)
Definition triggerVictory (score kills : Z) (ls : LevelSystem.t)
    (st : LevelSystem.Storage) (s : t)
    : t * LevelSystem.t * LevelSystem.Storage * option SceneKey :=
  if isGameOverOrVictory s then (s, ls, st, None)
  else
    let s1 :=
      mk (player s) (bullets s) (grenades s) (enemies s) (powerUps s)
         (mapProgress s) (lives s) (hasWon s) (bossDefeated s) true in
    let '(ls1, st1) := LevelSystem.completeLevel score kills ls st in
    let hasNextLevel := LevelSystem.hasNextLevel ls1 in
    (s1, ls1, st1, Some (handleVictoryRestart hasNextLevel)).

(** [checkVictoryCondition()]; [None] when the level system has no
    level to read. *)
Definition checkVictoryCondition (score kills : Z) (ls : LevelSystem.t)
    (st : LevelSystem.Storage) (s : t)
    : option (t * LevelSystem.t * LevelSystem.Storage * option SceneKey) :=
  if hasWon s then Some (s, ls, st, None)
  else
    match LevelSystem.areObjectivesComplete kills (mapProgress s)
                                            (bossDefeated s) ls with
    | None => None
    | Some areComplete =>
        match LevelSystem.updateObjectives kills (mapProgress s)
                                           (bossDefeated s) ls with
        | None => None
        | Some (ls1, _) =>
            if areComplete then
              let s1 :=
                mk (player s) (bullets s) (grenades s) (enemies s)
                   (powerUps s) (mapProgress s) (lives s) true
                   (bossDefeated s) (isGameOverOrVictory s) in
              Some (triggerVictory score kills ls1 st s1)
            else Some (s, ls1, st, None)
        end
    end.

End GameScene.

(** * Properties *)

(** ** Rationals *)

Lemma Qltb_lt (a b : Q) : Qltb a b = true <-> (a < b)%Q.
Proof.
  unfold Qltb. rewrite negb_true_iff. split.
  - intros H. apply Qnot_le_lt. intros Hle.
    apply Qle_bool_iff in Hle. congruence.
  - intros H. destruct (Qle_bool b a) eqn:E; [|reflexivity].
    apply Qle_bool_iff in E. exfalso. exact (Qlt_not_le _ _ H E).
Qed.

Lemma Qltb_ge (a b : Q) : Qltb a b = false <-> (b <= a)%Q.
Proof.
  unfold Qltb. rewrite negb_false_iff. apply Qle_bool_iff.
Qed.

(** Turns every test [Qltb a b] of the goal into a hypothesis on [a] and
    [b], one case at a time. *)
Ltac case_Qltb :=
  repeat match goal with
         | |- context [Qltb ?a ?b] =>
             let E := fresh "E" in
             destruct (Qltb a b) eqn:E;
             [apply Qltb_lt in E | apply Qltb_ge in E]
         end.

(** ** The arithmetic of doubles *)

Section DoubleFacts.
Import Double.
Local Open Scope Q_scope.

Lemma pow2_pos (e : Z) : 0 < 2 ^ e.
Proof. apply Qpower_0_lt. reflexivity. Qed.

Lemma pow2_plus (a b : Z) : 2 ^ (a + b) == 2 ^ a * 2 ^ b.
Proof. apply Qpower_plus. discriminate. Qed.

Lemma pow2_le (a b : Z) : (a <= b)%Z -> 2 ^ a <= 2 ^ b.
Proof.
  intros H. apply Qpower_le_compat_l; [exact H | discriminate].
Qed.

Lemma sqr_le (a b : Q) : 0 <= a -> a <= b -> a * a <= b * b.
Proof.
  intros Ha Hab.
  apply Qle_trans with (b * a).
  - apply Qmult_le_compat_r; assumption.
  - rewrite (Qmult_comm b a). apply Qmult_le_compat_r; [assumption | lra].
Qed.

Lemma log2_bounds (n : Z) :
  (0 < n)%Z ->
  2 ^ Z.log2 n <= inject_Z n /\ inject_Z n < 2 ^ (Z.log2 n + 1).
Proof.
  intros H. destruct (Z.log2_spec n H) as [H1 H2].
  pose proof (Z.log2_nonneg n) as H0.
  split.
  - change 2 with (inject_Z 2). rewrite <- Zpower_Qpower by exact H0.
    rewrite <- Zle_Qle. exact H1.
  - change 2 with (inject_Z 2). rewrite <- Zpower_Qpower by lia.
    rewrite <- Zlt_Qlt. exact H2.
Qed.

Lemma ilog2_spec (q : Q) :
  0 < q -> 2 ^ ilog2 q <= q /\ q < 2 ^ (ilog2 q + 1).
Proof.
  intros Hq. destruct q as [n d].
  assert (Hn : (0 < n)%Z).
  { unfold Qlt in Hq. cbn in Hq. lia. }
  destruct (log2_bounds n Hn) as [Na Nb].
  destruct (log2_bounds (Z.pos d) eq_refl) as [Da Db].
  assert (HD : 0 < inject_Z (Z.pos d)) by reflexivity.
  assert (Hq' : (n # d) * inject_Z (Z.pos d) == inject_Z n).
  { rewrite (Qmake_Qdiv n d). field. intros H. rewrite H in HD.
    discriminate. }
  unfold ilog2. cbn [Qnum Qden].
  set (a := Z.log2 n) in *. set (b := Z.log2 (Z.pos d)) in *.
  destruct (Qle_bool (2 ^ (a - b)) (n # d)) eqn:E.
  - apply Qle_bool_iff in E. split; [exact E|].
    apply (Qmult_lt_r _ _ (inject_Z (Z.pos d)) HD). rewrite Hq'.
    apply Qlt_le_trans with (2 ^ (a + 1)); [exact Nb|].
    replace (a + 1)%Z with ((a - b + 1) + b)%Z by lia.
    rewrite pow2_plus.
    apply Qmult_le_l; [apply pow2_pos | exact Da].
  - assert (E' : n # d < 2 ^ (a - b)).
    { apply Qnot_le_lt. intros H. apply Qle_bool_iff in H. congruence. }
    split.
    + apply (Qmult_le_r _ _ (inject_Z (Z.pos d)) HD). rewrite Hq'.
      apply Qle_trans with (2 ^ a); [|exact Na].
      replace a with ((a - b - 1) + (b + 1))%Z at 2 by lia.
      rewrite pow2_plus.
      apply Qmult_le_l; [apply pow2_pos | apply Qlt_le_weak, Db].
    + replace (a - b - 1 + 1)%Z with (a - b)%Z by lia. exact E'.
Qed.

Lemma rint_near (x : Q) :
  - (1 # 2) <= inject_Z (rint x) - x <= 1 # 2.
Proof.
  unfold rint.
  pose proof (Qfloor_le x) as H1. pose proof (Qlt_floor x) as H2.
  rewrite inject_Z_plus in H2. change (inject_Z 1) with 1 in H2.
  destruct (Qcompare_spec (x - inject_Z (Qfloor x)) (1 # 2)) as [H|H|H];
    [destruct (Z.even (Qfloor x))|..];
    rewrite ?inject_Z_plus; change (inject_Z 1) with 1; lra.
Qed.

Lemma rint_nonneg (x : Q) : 0 <= x -> (0 <= rint x)%Z.
Proof.
  intros H. pose proof (Qfloor_resp_le 0 x H) as H0.
  change (Qfloor 0) with 0%Z in H0.
  unfold rint.
  destruct (Qcompare _ _); [destruct (Z.even _)|..]; lia.
Qed.

Lemma u_half : u * 2 ^ 53 == 1.
Proof. reflexivity. Qed.

Lemma round_inv (q r : Q) :
  round q = Some r ->
  (q == 0 /\ r == 0)
  \/ (~ q == 0
      /\ r == inject_Z (rint (q / 2 ^ exponent q)) * 2 ^ exponent q
      /\ Qabs r < 2 ^ 1024).
Proof.
  unfold round. destruct (Qeq_bool q 0) eqn:E.
  - intros [= <-]. left. apply Qeq_bool_iff in E. split; [exact E|reflexivity].
  - cbv zeta.
    destruct (Qle_bool (2 ^ 1024)
                (Qabs (inject_Z (rint (q / 2 ^ exponent q))
                       * 2 ^ exponent q))) eqn:E1; [discriminate|].
    intros [= <-]. right. split; [|split].
    + intros H. apply Qeq_bool_iff in H. congruence.
    + apply Qred_correct.
    + rewrite Qred_correct. apply Qnot_le_lt. intros H.
      apply Qle_bool_iff in H. congruence.
Qed.

Lemma raw_err (q : Q) :
  ~ q == 0 ->
  Qabs (inject_Z (rint (q / 2 ^ exponent q)) * 2 ^ exponent q - q)
  <= u * Qabs q + eta.
Proof.
  intros Hq.
  set (e := exponent q).
  pose proof (pow2_pos e) as He.
  pose proof (rint_near (q / 2 ^ e)) as Hr.
  set (m := inject_Z (rint (q / 2 ^ e))) in *.
  assert (Hx : q / 2 ^ e * 2 ^ e == q) by (field; lra).
  assert (H1 : Qabs (m * 2 ^ e - q) <= (1 # 2) * 2 ^ e).
  { apply Qabs_Qle_condition.
    assert (m * 2 ^ e - q == (m - q / 2 ^ e) * 2 ^ e) by (field; lra).
    rewrite H. clear H.
    set (t := m - q / 2 ^ e) in *. set (p := 2 ^ e) in *.
    split.
    - assert (- ((1 # 2) * p) == - (1 # 2) * p) by ring. rewrite H.
      apply Qmult_le_compat_r; lra.
    - apply Qmult_le_compat_r; lra. }
  apply Qle_trans with (1 := H1).
  assert (Hpos : 0 < Qabs q).
  { destruct (Qlt_le_dec 0 (Qabs q)) as [H|H]; [exact H|].
    exfalso. apply Hq. pose proof (Qabs_nonneg q).
    assert (Hz : Qabs q == 0) by lra.
    destruct (Qabs_Qle_condition q 0) as [Hc _].
    destruct Hc as [Hc1 Hc2]; [lra|]. lra. }
  pose proof (Qabs_nonneg q) as Hn.
  assert (Hu : 0 <= u) by discriminate.
  assert (Heta : 0 <= eta) by discriminate.
  unfold e, exponent.
  destruct (Z.max_spec (-1074) (ilog2 (Qabs q) - 52)) as [[_ ->]|[_ ->]].
  - destruct (ilog2_spec (Qabs q) Hpos) as [Hk _].
    set (k := ilog2 (Qabs q)) in *.
    assert (Hs : (1 # 2) * 2 ^ (k - 52) == u * 2 ^ k).
    { replace (k - 52)%Z with (k + -52)%Z by lia. rewrite pow2_plus.
      unfold u.
      assert (H52 : 2 ^ (-52) == 2 * 2 ^ (-53)) by reflexivity.
      rewrite H52. ring. }
    rewrite Hs.
    assert (u * 2 ^ k <= u * Qabs q)
      by (rewrite !(Qmult_comm u); apply Qmult_le_compat_r; assumption).
    lra.
  - assert (Hs : (1 # 2) * 2 ^ (-1074) == eta) by reflexivity.
    rewrite Hs.
    assert (0 <= u * Qabs q) by (apply Qmult_le_0_compat; assumption).
    lra.
Qed.

Lemma round_err (q r : Q) :
  round q = Some r -> Qabs (r - q) <= u * Qabs q + eta.
Proof.
  intros H. apply round_inv in H as [[Hq Hr]|(Hq & Hr & _)].
  - rewrite Hq, Hr. discriminate.
  - rewrite Hr. apply raw_err, Hq.
Qed.

Lemma round_nonneg (q r : Q) : 0 <= q -> round q = Some r -> 0 <= r.
Proof.
  intros Hq H. apply round_inv in H as [[_ Hr]|(_ & Hr & _)].
  - rewrite Hr. discriminate.
  - rewrite Hr. pose proof (pow2_pos (exponent q)) as He.
    apply Qmult_le_0_compat; [|lra].
    change 0 with (inject_Z 0). rewrite <- Zle_Qle.
    apply rint_nonneg.
    apply Qle_shift_div_l; [exact He|lra].
Qed.

Lemma round_total (q : Q) :
  Qabs q <= 2 ^ 1023 -> exists r, round q = Some r.
Proof.
  intros Hq. unfold round. destruct (Qeq_bool q 0) eqn:E; [eauto|].
  cbv zeta.
  assert (Hq0 : ~ q == 0).
  { intros H. apply Qeq_bool_iff in H. congruence. }
  pose proof (raw_err q Hq0) as Hr.
  set (r := inject_Z (rint (q / 2 ^ exponent q)) * 2 ^ exponent q) in *.
  destruct (Qle_bool (2 ^ 1024) (Qabs r)) eqn:E1; [|eauto].
  exfalso. apply Qle_bool_iff in E1.
  pose proof (Qabs_triangle_reverse r q) as Ht.
  pose proof (Qabs_nonneg q) as Hn.
  assert (Hu : u <= 1 # 2) by discriminate.
  assert (Heta : eta <= 1) by discriminate.
  assert (H1 : 1 <= 2 ^ 1023) by discriminate.
  assert (H2 : 2 ^ 1024 == 2 * 2 ^ 1023) by reflexivity.
  assert (Hu' : u * Qabs q <= (1 # 2) * Qabs q)
    by (apply Qmult_le_compat_r; assumption).
  rewrite H2 in E1.
  set (c := 2 ^ 1023) in *. lra.
Qed.

Lemma sqrt_spec (s : Q) :
  0 <= s ->
  exists d, sqrt s = Some d /\ 0 <= d
            /\ (d * (1 - u)) * (d * (1 - u)) <= s
            /\ s <= (d * (1 + u)) * (d * (1 + u)).
Proof.
  intros Hs. unfold sqrt.
  assert (E0 : Qltb s 0 = false).
  { unfold Qltb. apply negb_false_iff, Qle_bool_iff. exact Hs. }
  rewrite E0. destruct (Qeq_bool s 0) eqn:E.
  - apply Qeq_bool_iff in E. exists 0. rewrite E.
    repeat split; discriminate.
  - assert (Hpos : 0 < s).
    { destruct (Qlt_le_dec 0 s) as [H|H]; [exact H|]. exfalso.
      assert (H0 : s == 0) by lra. apply Qeq_bool_iff in H0. congruence. }
    cbv zeta.
    destruct (ilog2_spec s Hpos) as [Hk _].
    set (k := ilog2 s) in *. set (e := (k / 2 - 52)%Z).
    pose proof (pow2_pos e) as He.
    assert (H2e : 2 ^ (2 * e) == 2 ^ e * 2 ^ e).
    { replace (2 * e)%Z with (e + e)%Z by lia. apply pow2_plus. }
    assert (Hp2 : 0 < 2 ^ (2 * e)) by apply pow2_pos.
    set (x := s / 2 ^ (2 * e)).
    assert (Hx : x * (2 ^ e * 2 ^ e) == s).
    { unfold x. rewrite <- H2e. field. lra. }
    assert (Hx104 : 2 ^ 104 <= x).
    { apply Qle_shift_div_l; [exact Hp2|].
      rewrite <- pow2_plus.
      apply Qle_trans with (2 ^ k); [|exact Hk].
      apply pow2_le. unfold e.
      pose proof (Z.mod_pos_bound k 2 eq_refl).
      pose proof (Z.div_mod k 2). lia. }
    pose proof (Qfloor_le x) as Hf1. pose proof (Qlt_floor x) as Hf2.
    assert (Hf104 : (2 ^ 104 <= Qfloor x)%Z).
    { pose proof (Qfloor_resp_le _ _ Hx104) as H.
      change (2 ^ 104) with (inject_Z (2 ^ 104)) in H.
      rewrite Qfloor_Z in H. exact H. }
    set (f := Qfloor x) in *.
    assert (Hf0 : (0 <= f)%Z) by lia.
    pose proof (Z.sqrt_spec f Hf0) as [Hm1 Hm2].
    assert (Hm52 : (2 ^ 52 <= Z.sqrt f)%Z).
    { rewrite <- (Z.sqrt_square (2 ^ 52)) by lia.
      apply Z.sqrt_le_mono. exact Hf104. }
    set (m0 := Z.sqrt f) in *.
    assert (HM0 : 2 ^ 52 <= inject_Z m0).
    { change (2 ^ 52) with (inject_Z (2 ^ 52)). rewrite <- Zle_Qle.
      exact Hm52. }
    assert (Ha : inject_Z m0 * inject_Z m0 <= x).
    { apply Qle_trans with (inject_Z f); [|exact Hf1].
      rewrite <- inject_Z_mult, <- Zle_Qle. exact Hm1. }
    assert (Hb : x < (inject_Z m0 + 1) * (inject_Z m0 + 1)).
    { apply Qlt_le_trans with (inject_Z (f + 1)); [exact Hf2|].
      change 1 with (inject_Z 1).
      rewrite <- inject_Z_plus, <- inject_Z_mult, <- Zle_Qle.
      unfold Z.succ in Hm2. lia. }
    set (M0 := inject_Z m0) in *.
    assert (H52 : 2 ^ 52 * u == 1 # 2) by reflexivity.
    assert (Hu0 : 0 < u) by reflexivity.
    assert (Hu1 : u < 1) by reflexivity.
    assert (Hbounds : forall M : Q,
               2 ^ 52 <= M ->
               (M - (1 # 2)) * (M - (1 # 2)) <= x ->
               x <= (M + (1 # 2)) * (M + (1 # 2)) ->
               0 <= M * 2 ^ e
               /\ (M * 2 ^ e * (1 - u)) * (M * 2 ^ e * (1 - u)) <= s
               /\ s <= (M * 2 ^ e * (1 + u)) * (M * 2 ^ e * (1 + u))).
    { intros M HM Hlo Hhi.
      assert (H1 : 1 <= 2 ^ 52) by discriminate.
      assert (HMu : (1 # 2) <= M * u).
      { rewrite <- H52. apply Qmult_le_compat_r; lra. }
      assert (Hlo' : (M * (1 - u)) * (M * (1 - u)) <= x).
      { apply Qle_trans with (2 := Hlo). apply sqr_le.
        - apply Qmult_le_0_compat; lra.
        - lra. }
      assert (Hhi' : x <= (M * (1 + u)) * (M * (1 + u))).
      { apply Qle_trans with (1 := Hhi). apply sqr_le; lra. }
      rewrite <- Hx. set (p := 2 ^ e) in *.
      assert (Hpp : 0 <= p * p) by (apply Qmult_le_0_compat; lra).
      split; [apply Qmult_le_0_compat; lra|]. split.
      - assert (Hr : M * p * (1 - u) * (M * p * (1 - u))
                     == M * (1 - u) * (M * (1 - u)) * (p * p)) by ring.
        rewrite Hr. apply Qmult_le_compat_r; assumption.
      - assert (Hr : M * p * (1 + u) * (M * p * (1 + u))
                     == M * (1 + u) * (M * (1 + u)) * (p * p)) by ring.
        rewrite Hr. apply Qmult_le_compat_r; assumption. }
    destruct (Qltb ((M0 + (1 # 2)) * (M0 + (1 # 2))) x) eqn:Eh.
    + assert (Hh : (M0 + (1 # 2)) * (M0 + (1 # 2)) < x).
      { unfold Qltb in Eh. apply negb_true_iff in Eh.
        apply Qnot_le_lt. intros H. apply Qle_bool_iff in H. congruence. }
      eexists. split; [reflexivity|]. rewrite Qred_correct.
      rewrite inject_Z_plus. fold M0. change (inject_Z 1) with 1.
      apply Hbounds.
      * lra.
      * assert (Hr : M0 + 1 - (1 # 2) == M0 + (1 # 2)) by ring.
        rewrite Hr. lra.
      * apply Qle_trans with ((M0 + 1) * (M0 + 1)); [lra|].
        apply sqr_le; lra.
    + assert (Hh : x <= (M0 + (1 # 2)) * (M0 + (1 # 2))).
      { unfold Qltb in Eh. apply negb_false_iff in Eh.
        apply Qle_bool_iff. exact Eh. }
      eexists. split; [reflexivity|]. rewrite Qred_correct. fold M0.
      apply Hbounds.
      * exact HM0.
      * apply Qle_trans with (2 := Ha).
        assert (H1 : 1 <= 2 ^ 52) by discriminate.
        apply sqr_le; lra.
      * exact Hh.
Qed.

Lemma sq_nonneg (a : Q) : 0 <= a * a.
Proof.
  destruct (Qlt_le_dec a 0) as [H|H].
  - assert (E : a * a == (- a) * (- a)) by ring. rewrite E.
    apply Qmult_le_0_compat; lra.
  - apply Qmult_le_0_compat; assumption.
Qed.

Lemma sq_abs (a : Q) : Qabs a * Qabs a == a * a.
Proof.
  rewrite <- Qabs_Qmult. apply Qabs_pos, sq_nonneg.
Qed.

Lemma abs_le_sq (a : Q) : Qabs a <= 1 + a * a.
Proof.
  rewrite <- sq_abs. pose proof (sq_nonneg (Qabs a - 1)) as H.
  pose proof (sq_nonneg (Qabs a)). lra.
Qed.

(** Squaring a bound [b <= a * c + h] between numbers that are not
    negative, with the cross term bounded by [2 * a <= 1 + a * a]. *)
Lemma sq_bound (a b c h : Q) :
  0 <= a -> 0 <= b -> 0 <= c -> 0 <= h ->
  b <= a * c + h ->
  b * b <= a * a * (c * c) + h * c * (1 + a * a) + h * h.
Proof.
  intros Ha Hb Hc Hh H.
  assert (H0 : 0 <= a * c) by (apply Qmult_le_0_compat; assumption).
  pose proof (sqr_le b (a * c + h) Hb H) as H1.
  pose proof (sq_nonneg (a - 1)) as H2.
  assert (H3 : 0 <= h * c) by (apply Qmult_le_0_compat; assumption).
  assert (H4 : 0 <= h * c * ((a - 1) * (a - 1)))
    by (apply Qmult_le_0_compat; assumption).
  apply Qle_trans with (1 := H1).
  assert (E : a * a * (c * c) + h * c * (1 + a * a) + h * h
              == (a * c + h) * (a * c + h) + h * c * ((a - 1) * (a - 1)))
    by ring.
  rewrite E. lra.
Qed.

Lemma round_bounds (q r : Q) :
  0 <= q -> round q = Some r ->
  0 <= r /\ q * (1 - u) <= r + eta /\ r <= q * (1 + u) + eta.
Proof.
  intros Hq H. split; [exact (round_nonneg q r Hq H)|].
  apply round_err in H. rewrite (Qabs_pos q Hq) in H.
  apply Qabs_Qle_condition in H. lra.
Qed.

Lemma round_sq (q r : Q) :
  round q = Some r ->
  r * r <= q * q * ((1 + u) * (1 + u)) + eta * (1 + u) * (1 + q * q)
           + eta * eta
  /\ q * q * ((1 - u) * (1 - u)) <= r * r + eta * (1 + r * r) + eta * eta.
Proof.
  intros H. apply round_err in H.
  pose proof (Qabs_triangle_reverse r q) as H1.
  pose proof (Qabs_triangle_reverse q r) as H2.
  rewrite (Qabs_Qminus q r) in H2.
  pose proof (Qabs_nonneg q) as Hq. pose proof (Qabs_nonneg r) as Hr.
  assert (Hu0 : 0 <= u) by discriminate.
  assert (Hu1 : u <= 1) by discriminate.
  assert (He : 0 <= eta) by discriminate.
  rewrite <- (sq_abs q), <- (sq_abs r).
  set (a := Qabs q) in *. set (b := Qabs r) in *.
  split.
  - apply sq_bound; lra.
  - assert (Hs : a * (1 - u) <= b * 1 + eta) by lra.
    assert (Ha' : 0 <= a * (1 - u)) by (apply Qmult_le_0_compat; lra).
    pose proof (sq_bound b (a * (1 - u)) 1 eta Hr Ha' ltac:(lra) He Hs)
      as H3.
    assert (E : a * a * ((1 - u) * (1 - u))
                == a * (1 - u) * (a * (1 - u))) by ring.
    rewrite E. lra.
Qed.
End DoubleFacts.

Section DistanceFacts.
Import Double.
Local Open Scope Q_scope.

Lemma Between_inv (x1 y1 x2 y2 d : Q) :
  Distance.Between x1 y1 x2 y2 = Some d ->
  exists dx dy xx yy s,
    round (x1 - x2) = Some dx /\ round (y1 - y2) = Some dy
    /\ round (dx * dx) = Some xx /\ round (dy * dy) = Some yy
    /\ round (xx + yy) = Some s /\ sqrt s = Some d.
Proof.
  unfold Distance.Between, sub, mul, add.
  destruct (round (x1 - x2)) as [dx|] eqn:E1; [|discriminate].
  destruct (round (y1 - y2)) as [dy|] eqn:E2; [|discriminate]. cbn.
  destruct (round (dx * dx)) as [xx|] eqn:E3; [|discriminate].
  destruct (round (dy * dy)) as [yy|] eqn:E4; [|discriminate]. cbn.
  destruct (round (xx + yy)) as [s|] eqn:E5; [|discriminate]. cbn.
  intros H. exists dx, dy, xx, yy, s. repeat split; assumption.
Qed.

Lemma Between_nonneg (x1 y1 x2 y2 d : Q) :
  Distance.Between x1 y1 x2 y2 = Some d -> 0 <= d.
Proof.
  intros H.
  destruct (Between_inv _ _ _ _ _ H)
    as (dx & dy & xx & yy & s & _ & _ & Hxx & Hyy & Hs & Hd).
  pose proof (round_nonneg _ _ (sq_nonneg dx) Hxx) as H1.
  pose proof (round_nonneg _ _ (sq_nonneg dy) Hyy) as H2.
  assert (H3 : 0 <= xx + yy) by lra.
  pose proof (round_nonneg _ _ H3 Hs) as H4.
  destruct (sqrt_spec s H4) as (d0 & Hd0 & Hpos & _).
  congruence.
Qed.

Lemma Between_sound (x1 y1 x2 y2 r d : Q) :
  Distance.Between x1 y1 x2 y2 = Some d -> d <= r ->
  2 ^ (-500) <= r ->
  (x1 - x2) * (x1 - x2) + (y1 - y2) * (y1 - y2)
  <= r * r * (1 + 2 ^ (-50)).
Proof.
  intros H Hdr Hr.
  destruct (Between_inv _ _ _ _ _ H)
    as (dx & dy & xx & yy & s & Hdx & Hdy & Hxx & Hyy & Hs & Hd).
  destruct (round_sq _ _ Hdx) as [_ Px].
  destruct (round_sq _ _ Hdy) as [_ Py].
  destruct (round_bounds _ _ (sq_nonneg dx) Hxx) as (Hx0 & Qx & _).
  destruct (round_bounds _ _ (sq_nonneg dy) Hyy) as (Hy0 & Qy & _).
  assert (H3 : 0 <= xx + yy) by lra.
  destruct (round_bounds _ _ H3 Hs) as (Hs0 & Qs & _).
  destruct (sqrt_spec s Hs0) as (d0 & Hd0 & Hpos & _ & Hup).
  assert (d0 = d) by congruence. subst d0.
  assert (Hu0 : 0 <= u) by discriminate.
  assert (H1 : d * (1 + u) <= r * (1 + u))
    by (apply Qmult_le_compat_r; lra).
  assert (H0 : 0 <= d * (1 + u)) by (apply Qmult_le_0_compat; lra).
  pose proof (sqr_le _ _ H0 H1) as H2.
  assert (Hr2 : 2 ^ (-500) * 2 ^ (-500) <= r * r)
    by (apply sqr_le; [discriminate|exact Hr]).
  assert (E : r * (1 + u) * (r * (1 + u)) == r * r * ((1 + u) * (1 + u)))
    by ring.
  rewrite E in H2. clear E.
  pose proof (sq_nonneg dx) as Nx. pose proof (sq_nonneg dy) as Ny.
  set (P1 := (x1 - x2) * (x1 - x2)) in *.
  set (P2 := (y1 - y2) * (y1 - y2)) in *.
  set (Q1 := dx * dx) in *. set (Q2 := dy * dy) in *.
  set (R2 := r * r) in *.
  clearbody P1 P2 Q1 Q2 R2.
  clear - Px Py Qx Qy Qs Hup H2 Hr2 Nx Ny Hx0 Hy0 Hs0.
  assert (S2 : s <= R2 * ((1 + u) * (1 + u))) by lra. clear Hup H2.
  unfold u, eta in *.
  let c := eval vm_compute in (2 ^ (-53)) in
    change (2 ^ (-53)) with c in *.
  let c := eval vm_compute in (2 ^ (-1075)) in
    change (2 ^ (-1075)) with c in *.
  let c := eval vm_compute in (2 ^ (-500) * 2 ^ (-500)) in
    change (2 ^ (-500) * 2 ^ (-500)) with c in *.
  let c := eval vm_compute in (2 ^ (-50)) in
    change (2 ^ (-50)) with c.
  lra.
Qed.

Lemma Between_complete (x1 y1 x2 y2 r : Q) :
  2 ^ (-500) <= r -> r <= 2 ^ 500 ->
  (x1 - x2) * (x1 - x2) + (y1 - y2) * (y1 - y2)
  <= r * r * (1 - 2 ^ (-50)) ->
  exists d, Distance.Between x1 y1 x2 y2 = Some d /\ d <= r.
Proof.
  intros Hr Hr' HP.
  assert (Hr0 : 0 <= r).
  { apply Qle_trans with (2 := Hr). discriminate. }
  assert (Hlo : 2 ^ (-500) * 2 ^ (-500) <= r * r)
    by (apply sqr_le; [discriminate|exact Hr]).
  assert (Hhi : r * r <= 2 ^ 500 * 2 ^ 500) by (apply sqr_le; assumption).
  pose proof (sq_nonneg (x1 - x2)) as Nx.
  pose proof (sq_nonneg (y1 - y2)) as Ny.
  pose proof (abs_le_sq (x1 - x2)) as Ax.
  pose proof (abs_le_sq (y1 - y2)) as Ay.
  assert (Hc : forall P R2 : Q,
             0 <= P -> P <= R2 * (1 - 2 ^ (-50)) ->
             R2 <= 2 ^ 500 * 2 ^ 500 -> P <= 2 ^ 1000).
  { intros P R2 HP0 HP1 HR.
    let c := eval vm_compute in (2 ^ 500 * 2 ^ 500) in
      change (2 ^ 500 * 2 ^ 500) with c in HR.
    let c := eval vm_compute in (2 ^ (-50)) in
      change (2 ^ (-50)) with c in HP1.
    let c := eval vm_compute in (2 ^ 1000) in change (2 ^ 1000) with c.
    lra. }
  assert (Bx : (x1 - x2) * (x1 - x2) <= 2 ^ 1000)
    by (apply (Hc _ (r * r)); [exact Nx | lra | exact Hhi]).
  assert (By : (y1 - y2) * (y1 - y2) <= 2 ^ 1000)
    by (apply (Hc _ (r * r)); [exact Ny | lra | exact Hhi]).
  assert (Hbig : forall a : Q, a <= 1 + 2 ^ 1000 * 8 + 1 -> a <= 2 ^ 1023).
  { intros a Ha. apply Qle_trans with (1 := Ha). discriminate. }
  destruct (round_total (x1 - x2)) as [dx Hdx].
  { apply Hbig. lra. }
  destruct (round_total (y1 - y2)) as [dy Hdy].
  { apply Hbig. lra. }
  destruct (round_sq _ _ Hdx) as [Px _].
  destruct (round_sq _ _ Hdy) as [Py _].
  pose proof (sq_nonneg dx) as Nx'. pose proof (sq_nonneg dy) as Ny'.
  assert (Hsmall : forall P Q1 : Q,
             0 <= P -> P <= 2 ^ 1000 ->
             Q1 <= P * ((1 + u) * (1 + u)) + eta * (1 + u) * (1 + P)
                   + eta * eta ->
             Q1 <= 2 ^ 1000 * 2).
  { intros P Q1 HP0 HP1 HQ. unfold u, eta in HQ.
    let c := eval vm_compute in (2 ^ (-53)) in
      change (2 ^ (-53)) with c in HQ.
    let c := eval vm_compute in (2 ^ (-1075)) in
      change (2 ^ (-1075)) with c in HQ.
    let c := eval vm_compute in (2 ^ 1000) in
      change (2 ^ 1000) with c in *.
    lra. }
  pose proof (Hsmall _ _ Nx Bx Px) as Bx'.
  pose proof (Hsmall _ _ Ny By Py) as By'.
  assert (H1000 : 0 <= 2 ^ 1000) by discriminate.
  destruct (round_total (dx * dx)) as [xx Hxx].
  { rewrite (Qabs_pos _ Nx'). apply Hbig. lra. }
  destruct (round_total (dy * dy)) as [yy Hyy].
  { rewrite (Qabs_pos _ Ny'). apply Hbig. lra. }
  destruct (round_bounds _ _ Nx' Hxx) as (Hx0 & _ & Qx).
  destruct (round_bounds _ _ Ny' Hyy) as (Hy0 & _ & Qy).
  assert (Hu : u <= 1 # 2) by discriminate.
  assert (Hu0 : 0 <= u) by discriminate.
  assert (He : eta <= 1 # 2) by discriminate.
  assert (Hmul : forall a : Q, 0 <= a -> a * (1 + u) <= a * (3 # 2)).
  { intros a Ha. rewrite !(Qmult_comm a).
    apply Qmult_le_compat_r; [lra|exact Ha]. }
  pose proof (Hmul _ Nx') as Mx. pose proof (Hmul _ Ny') as My.
  assert (H3 : 0 <= xx + yy) by lra.
  destruct (round_total (xx + yy)) as [s Hs].
  { rewrite (Qabs_pos _ H3). apply Hbig. lra. }
  destruct (round_bounds _ _ H3 Hs) as (Hs0 & _ & Qs).
  destruct (sqrt_spec s Hs0) as (d & Hd & Hd0 & Hdn & _).
  exists d. split.
  - unfold Distance.Between, sub, mul, add.
    rewrite Hdx, Hdy. cbn. rewrite Hxx, Hyy. cbn. rewrite Hs. cbn.
    exact Hd.
  - destruct (Qlt_le_dec r d) as [Hlt|Hle]; [exfalso|exact Hle].
    assert (Hu1 : u < 1) by reflexivity.
    assert (H4 : r * (1 - u) <= d * (1 - u))
      by (apply Qmult_le_compat_r; lra).
    assert (H5 : 0 <= r * (1 - u)) by (apply Qmult_le_0_compat; lra).
    pose proof (sqr_le _ _ H5 H4) as H6.
    assert (E : r * (1 - u) * (r * (1 - u))
                == r * r * ((1 - u) * (1 - u))) by ring.
    rewrite E in H6. clear E.
    assert (S2 : r * r * ((1 - u) * (1 - u)) <= s) by lra.
    set (P1 := (x1 - x2) * (x1 - x2)) in *.
    set (P2 := (y1 - y2) * (y1 - y2)) in *.
    set (Q1 := dx * dx) in *. set (Q2 := dy * dy) in *.
    set (R2 := r * r) in *.
    clearbody P1 P2 Q1 Q2 R2.
    clear - Px Py Qx Qy Qs S2 HP Hlo Nx Ny Nx' Ny' Hx0 Hy0.
    unfold u, eta in *.
    let c := eval vm_compute in (2 ^ (-53)) in
      change (2 ^ (-53)) with c in *.
    let c := eval vm_compute in (2 ^ (-1075)) in
      change (2 ^ (-1075)) with c in *.
    let c := eval vm_compute in (2 ^ (-500) * 2 ^ (-500)) in
      change (2 ^ (-500) * 2 ^ (-500)) with c in *.
    let c := eval vm_compute in (2 ^ (-50)) in
      change (2 ^ (-50)) with c in *.
    lra.
Qed.
End DistanceFacts.

(** ** Enemy.takeDamage *)

Section EnemyFacts.
Import Enemy.

Lemma takeDamage_times_S (n : nat) (e : t) :
  takeDamage_times (S n) e =
    let '(e1, d) := takeDamage e in
    let '(e2, ds) := takeDamage_times n e1 in
    (e2, d :: ds).
Proof. reflexivity. Qed.

Lemma takeDamage_times_snoc (n : nat) (e : t) :
  takeDamage_times (S n) e =
    let '(e1, ds) := takeDamage_times n e in
    let '(e2, d) := takeDamage e1 in
    (e2, ds ++ [d]).
Proof.
  revert e. induction n as [|n IH]; intros e.
  - reflexivity.
  - rewrite takeDamage_times_S.
    destruct (takeDamage e) as [e1 d] eqn:E1.
    rewrite IH. rewrite (takeDamage_times_S n e), E1.
    destruct (takeDamage_times n e1) as [e2 ds].
    destruct (takeDamage e2) as [e3 d3]. reflexivity.
Qed.

(** While fewer calls were made than the enemy has health, every call
    answered [false] and each took one point of health. *)
Lemma takeDamage_times_alive (n : nat) (e : t) :
  Z.of_nat n < health e ->
  takeDamage_times n e
  = (set_health (health e - Z.of_nat n) e, replicate n false).
Proof.
  revert e. induction n as [|n IH]; intros e Hn.
  - simpl. rewrite Z.sub_0_r. destruct e; reflexivity.
  - rewrite takeDamage_times_snoc, IH; [|lia].
    unfold takeDamage, set_health; simpl.
    replace (health e - Z.of_nat n - 1 <=? 0) with false
      by (symmetry; apply Z.leb_gt; lia).
    f_equal.
    + f_equal. lia.
    + symmetry. apply replicate_cons_app.
Qed.

End EnemyFacts.

(** C6. The base [takeDamage] takes exactly one point of health and
    answers [true] exactly when the health left is at most 0. So for an
    enemy of health [h >= 1] that inherits it, [h] calls answer [false]
    [h - 1] times and then [true], and [h - 1] calls answer [false] every
    time. *)
Theorem Enemy_takeDamage_counts_down (e : Enemy.t) (h : Z) :
  Enemy.health e = h ->
  1 <= h ->
  Enemy.health (Enemy.takeDamage e).1 = h - 1
  /\ ((Enemy.takeDamage e).2 = true <-> Enemy.health (Enemy.takeDamage e).1 <= 0)
  /\ (Enemy.sub e = Enemy.Base ->
      forall random draws,
        takeDamage_dispatch random draws e
        = ((Enemy.takeDamage e).1, (Enemy.takeDamage e).2, draws))
  /\ (Enemy.takeDamage_times (Z.to_nat h) e).2
     = replicate (Z.to_nat (h - 1)) false ++ [true]
  /\ (Enemy.takeDamage_times (Z.to_nat (h - 1)) e).2
     = replicate (Z.to_nat (h - 1)) false.
Proof.
  intros Hh H1. repeat split.
  - simpl. lia.
  - simpl. intros H. apply Z.leb_le in H. exact H.
  - simpl. intros H. apply Z.leb_le. exact H.
  - intros Hsub random draws. unfold takeDamage_dispatch. rewrite Hsub.
    reflexivity.
  - replace (Z.to_nat h) with (S (Z.to_nat (h - 1))) by lia.
    rewrite takeDamage_times_snoc, takeDamage_times_alive; [|lia].
    simpl. do 2 f_equal. apply Z.leb_le. lia.
  - rewrite takeDamage_times_alive; [reflexivity|lia].
Qed.

Lemma Enemy_takeDamage_counts_down_witness :
  (Enemy.takeDamage_times 3 (Tank.constructor 7 10 20)).2
  = [false; false; true]
  /\ (Enemy.takeDamage_times 2 (Tank.constructor 7 10 20)).2
     = [false; false].
Proof.
  pose proof (Enemy_takeDamage_counts_down (Tank.constructor 7 10 20) 3
                eq_refl ltac:(lia)) as (_ & _ & _ & H3 & H2).
  split; [exact H3 | exact H2].
Defined.

(** ** Boss.takeDamage *)

(** C1, at the failing input: a new Boss is in phase 3 after 14 calls of
    [takeDamage] (health 6 of 20) and back in phase 2 after the 15th
    (health 5 of 20): with the phase already 3, the first test fails on
    [phase !== 3] and the [else if] of phase 2 is taken. *)
Theorem Boss_phase_falls_back (oid : nat) (x y : Q) :
  let boss := Boss.constructor oid x y in
  Boss.phase boss = Some 1
  /\ Enemy.health (Boss.hits 14 boss) = 6
  /\ Boss.phase (Boss.hits 14 boss) = Some 3
  /\ Enemy.health (Boss.hits 15 boss) = 5
  /\ Boss.phase (Boss.hits 15 boss) = Some 2.
Proof.
  repeat split; vm_compute; reflexivity.
Qed.

(** Up to the first entry into phase 3 the phase does only advance. *)
Lemma Boss_phases_first_14 (oid : nat) (x y : Q) :
  Boss.phases 14 (Boss.constructor oid x y)
  = replicate 7 (Some 1) ++ replicate 7 (Some 2) ++ [Some 3].
Proof. vm_compute. reflexivity. Qed.

(** ** SpawnSystem *)

Section SpawnFacts.
Import GameConfig SpawnSystem.

(** A tick on which no enemy is due leaves the interval as it is. *)
Lemma update_keeps_rate (s : t) (time progress : Q) :
  shouldSpawn time s = false ->
  enemySpawnRate (update time progress s).1.1 = enemySpawnRate s.
Proof.
  intros H. unfold update. rewrite H.
  destruct (shouldSpawnPowerUp time s); reflexivity.
Qed.

Lemma update_sets_rate (s : t) (time progress : Q) :
  shouldSpawn time s = true ->
  enemySpawnRate (update time progress s).1.1
  = Qmax 400 (1200 - progress / 10).
Proof.
  intros H. unfold update. rewrite H.
  match goal with |- context [shouldSpawnPowerUp ?a ?b] =>
    destruct (shouldSpawnPowerUp a b) end; reflexivity.
Qed.

End SpawnFacts.

(** C7. After a tick that spawns enemies, the spawn interval is
    [max(400, 1200 - progress / 10)]: at least 400 for every progress,
    1200 at progress 0 and 400 at progress 8000; the update reports the
    spawn and restarts the timer at the time of the tick. *)
Theorem spawn_interval_after_spawn (s : SpawnSystem.t) (time progress : Q) :
  SpawnSystem.shouldSpawn time s = true ->
  let s' := (SpawnSystem.update time progress s).1.1 in
  (SpawnSystem.update time progress s).1.2 = true
  /\ SpawnSystem.lastEnemySpawn s' = time
  /\ SpawnSystem.enemySpawnRate s' = Qmax 400 (1200 - progress / 10)
  /\ (400 <= SpawnSystem.enemySpawnRate s')%Q
  /\ (0 <= SpawnSystem.enemySpawnRate s')%Q
  /\ ((1200 - progress / 10 <= 400)%Q ->
      (SpawnSystem.enemySpawnRate s' == 400)%Q)
  /\ ((400 <= 1200 - progress / 10)%Q ->
      (SpawnSystem.enemySpawnRate s' == 1200 - progress / 10)%Q)
  /\ ((progress == 0)%Q -> (SpawnSystem.enemySpawnRate s' == 1200)%Q)
  /\ ((progress == 8000)%Q -> (SpawnSystem.enemySpawnRate s' == 400)%Q).
Proof.
  intros H s'.
  assert (Hr : SpawnSystem.enemySpawnRate s' = Qmax 400 (1200 - progress / 10))
    by (apply update_sets_rate; exact H).
  assert (H400 : (400 <= SpawnSystem.enemySpawnRate s')%Q)
    by (rewrite Hr; apply Q.le_max_l).
  repeat split.
  - unfold SpawnSystem.update. rewrite H. reflexivity.
  - subst s'. unfold SpawnSystem.update. rewrite H.
    match goal with |- context [SpawnSystem.shouldSpawnPowerUp ?a ?b] =>
      destruct (SpawnSystem.shouldSpawnPowerUp a b) end; reflexivity.
  - exact Hr.
  - exact H400.
  - eapply Qle_trans; [|exact H400]. discriminate.
  - intros Hle. rewrite Hr. apply Q.max_l. exact Hle.
  - intros Hle. rewrite Hr. apply Q.max_r. exact Hle.
  - intros H0. rewrite Hr, Q.max_r.
    + rewrite H0. reflexivity.
    + rewrite H0. discriminate.
  - intros H0. rewrite Hr, Q.max_l.
    + reflexivity.
    + rewrite H0. discriminate.
Qed.

Lemma spawn_interval_after_spawn_witness :
  (SpawnSystem.enemySpawnRate
     (SpawnSystem.update 1201 8000 SpawnSystem.constructor).1.1 == 400)%Q
  /\ (SpawnSystem.enemySpawnRate
        (SpawnSystem.update 1201 0 SpawnSystem.constructor).1.1 == 1200)%Q.
Proof.
  split.
  - apply (spawn_interval_after_spawn SpawnSystem.constructor 1201 8000
             eq_refl). reflexivity.
  - apply (spawn_interval_after_spawn SpawnSystem.constructor 1201 0
             eq_refl). reflexivity.
Defined.

Section SpawnTable.
Import SpawnSystem.

(** Evaluates the closed sums of shares in the goal. *)
Ltac eval_shares :=
  repeat match goal with
         | |- context [sumShares ?b ?l] =>
             let v := eval vm_compute in (sumShares b l) in
             change (sumShares b l) with v
         | |- context [shareIn ?b ?c] =>
             let v := eval vm_compute in (shareIn b c) in
             change (shareIn b c) with v
         end.

Lemma createRandomEnemy_band (roll mapProgress : Q) (c : EnemyClass) :
  (0 <= roll)%Q -> (roll < 1)%Q ->
  createRandomEnemy roll mapProgress = c
  <-> (cumulative mapProgress c <= roll)%Q
      /\ (roll < cumulative mapProgress c + share mapProgress c)%Q.
Proof.
  intros H0 H1.
  unfold createRandomEnemy, cumulative, share, band.
  destruct (Qltb mapProgress 100); [|destruct (Qltb mapProgress 200);
    [|destruct (Qltb mapProgress 300)]];
    destruct c; eval_shares; case_Qltb;
    (split; [intros Hc; try discriminate Hc; split; lra
            | intros [Ha Hb]; try reflexivity; exfalso; lra]).
Qed.

(** In every band the shares add up to one. *)
Lemma shares_total (mapProgress : Q) :
  (sumShares (band mapProgress) classes == 1)%Q.
Proof.
  unfold band. case_Qltb; reflexivity.
Qed.

Lemma createRandomEnemy_gated (roll mapProgress : Q) (c : EnemyClass) :
  (0 < threshold c)%Q -> (mapProgress < threshold c)%Q ->
  createRandomEnemy roll mapProgress <> c.
Proof.
  intros Hpos Hlt. unfold createRandomEnemy.
  destruct c; cbn [threshold] in Hpos, Hlt;
    try (exfalso; lra); case_Qltb; try discriminate; exfalso; lra.
Qed.

Lemma share_bounds (mapProgress : Q) (c : EnemyClass) :
  (0 <= share mapProgress c)%Q
  /\ (0 <= cumulative mapProgress c)%Q
  /\ (cumulative mapProgress c + share mapProgress c <= 1)%Q.
Proof.
  unfold cumulative, share, band.
  case_Qltb; destruct c; eval_shares; repeat split; lra.
Qed.

Lemma share_table (mapProgress : Q) :
  ((mapProgress < 100)%Q ->
   map (share mapProgress) classes = [0.60; 0.25; 0.15; 0; 0; 0; 0; 0]%Q)
  /\ ((100 <= mapProgress)%Q -> (mapProgress < 200)%Q ->
      map (share mapProgress) classes
      = [0.40; 0.20; 0.15; 0.15; 0.10; 0; 0; 0]%Q)
  /\ ((200 <= mapProgress)%Q -> (mapProgress < 300)%Q ->
      map (share mapProgress) classes
      = [0.30; 0.15; 0.15; 0.15; 0.10; 0.10; 0.05; 0]%Q)
  /\ ((300 <= mapProgress)%Q ->
      map (share mapProgress) classes
      = [0.25; 0.10; 0.10; 0.15; 0.10; 0.15; 0.10; 0.05]%Q).
Proof.
  unfold share, band.
  case_Qltb; repeat split; intros; try reflexivity; exfalso; lra.
Qed.

End SpawnTable.

(** C8. [createRandomEnemy] picks the class from one draw in [0, 1)
    against cumulative thresholds: the draws that give a class are the
    interval from the sum of the shares of the classes before it to that
    sum plus its own share. The shares, in the order Soldier, Jeep, Tank,
    KnifeSoldier, CoveredSoldier, RocketLauncher, Bunker, Boss, are
    60/25/15 below progress 100, 40/20/15/15/10 from 100 to 200,
    30/15/15/15/10/10/5 from 200 to 300 and 25/10/10/15/10/15/10/5 from
    300 on, and add up to one. A class whose band starts at a positive
    progress is never produced below it, whatever the draw. *)
Theorem createRandomEnemy_distribution
    (mapProgress : Q) (c : SpawnSystem.EnemyClass) :
  (forall roll : Q, (0 <= roll)%Q -> (roll < 1)%Q ->
     SpawnSystem.createRandomEnemy roll mapProgress = c
     <-> (SpawnSystem.cumulative mapProgress c <= roll)%Q
         /\ (roll < SpawnSystem.cumulative mapProgress c
                    + SpawnSystem.share mapProgress c)%Q)
  /\ ((0 <= SpawnSystem.share mapProgress c)%Q
      /\ (0 <= SpawnSystem.cumulative mapProgress c)%Q
      /\ (SpawnSystem.cumulative mapProgress c
          + SpawnSystem.share mapProgress c <= 1)%Q)
  /\ (SpawnSystem.sumShares (SpawnSystem.band mapProgress)
        SpawnSystem.classes == 1)%Q
  /\ (((mapProgress < 100)%Q ->
       map (SpawnSystem.share mapProgress) SpawnSystem.classes
       = [0.60; 0.25; 0.15; 0; 0; 0; 0; 0]%Q)
      /\ ((100 <= mapProgress)%Q -> (mapProgress < 200)%Q ->
          map (SpawnSystem.share mapProgress) SpawnSystem.classes
          = [0.40; 0.20; 0.15; 0.15; 0.10; 0; 0; 0]%Q)
      /\ ((200 <= mapProgress)%Q -> (mapProgress < 300)%Q ->
          map (SpawnSystem.share mapProgress) SpawnSystem.classes
          = [0.30; 0.15; 0.15; 0.15; 0.10; 0.10; 0.05; 0]%Q)
      /\ ((300 <= mapProgress)%Q ->
          map (SpawnSystem.share mapProgress) SpawnSystem.classes
          = [0.25; 0.10; 0.10; 0.15; 0.10; 0.15; 0.10; 0.05]%Q))
  /\ ((0 < SpawnSystem.threshold c)%Q ->
      (mapProgress < SpawnSystem.threshold c)%Q ->
      forall roll : Q, SpawnSystem.createRandomEnemy roll mapProgress <> c).
Proof.
  split; [|split; [|split; [|split]]].
  - intros roll H0 H1. apply createRandomEnemy_band; assumption.
  - apply share_bounds.
  - apply shares_total.
  - apply share_table.
  - intros Hpos Hlt roll. apply createRandomEnemy_gated; assumption.
Qed.

Lemma createRandomEnemy_distribution_witness :
  SpawnSystem.createRandomEnemy 0.7 150 = SpawnSystem.Tank
  /\ map (SpawnSystem.share 150) SpawnSystem.classes
     = [0.40; 0.20; 0.15; 0.15; 0.10; 0; 0; 0]%Q
  /\ SpawnSystem.createRandomEnemy 0.99 150 <> SpawnSystem.Boss.
Proof.
  pose proof (createRandomEnemy_distribution 150 SpawnSystem.Tank)
    as (Hband & _ & _ & (_ & Htab & _) & _).
  pose proof (createRandomEnemy_distribution 150 SpawnSystem.Boss)
    as (_ & _ & _ & _ & Hgate).
  split; [|split].
  - apply (Hband 0.7%Q); [discriminate | reflexivity |].
    split; [discriminate | reflexivity].
  - apply Htab; [discriminate | reflexivity].
  - apply Hgate; reflexivity.
Defined.

(** ** Player: the grenade stock *)

Section PlayerFacts.
Import Player.




End PlayerFacts.



(** ** LevelSystem *)

Section LevelFacts.
Import LevelSystem.

Lemma checkObjectives_true (kills : Z) (distance : Q) (boss : bool)
    (os : list LevelObjective) :
  checkObjectives kills distance boss os = true
  <-> Forall (satisfied kills distance boss) os.
Proof.
  induction os as [|o os IH].
  - split; [intros _; constructor | reflexivity].
  - rewrite Forall_cons. rewrite <- IH. clear IH.
    cbn [checkObjectives]. unfold satisfied.
    destruct (type o).
    + destruct (Qltb (inject_Z kills) (target o)) eqn:E.
      * apply Qltb_lt in E. split; [discriminate|].
        intros [Hs _]. exfalso. exact (Qlt_not_le _ _ E Hs).
      * apply Qltb_ge in E. tauto.
    + destruct (Qltb distance (target o)) eqn:E.
      * apply Qltb_lt in E. split; [discriminate|].
        intros [Hs _]. exfalso. exact (Qlt_not_le _ _ E Hs).
      * apply Qltb_ge in E. tauto.
    + tauto.
    + destruct boss; cbn [negb].
      * tauto.
      * split; [discriminate | intros [Hs _]; discriminate Hs].
Qed.

Lemma checkObjectives_false (kills : Z) (distance : Q) (boss : bool)
    (os : list LevelObjective) (o : LevelObjective) :
  o ∈ os -> ~ satisfied kills distance boss o ->
  checkObjectives kills distance boss os = false.
Proof.
  intros Hin Hno.
  destruct (checkObjectives kills distance boss os) eqn:E; [|reflexivity].
  exfalso. apply Hno. apply checkObjectives_true in E.
  rewrite Forall_forall in E. apply E. exact Hin.
Qed.

(** What [completeLevel] leaves in a store that can be written. *)
Lemma completeLevel_saves (score kills : Z) (s : t) (st : Storage) :
  writeFails st = false ->
  exists p',
    (completeLevel score kills s st).2
    = mkStorage (Some p') (readFails st) false
    /\ levelsCompleted p'
       = (if bool_decide (current s ∈ levelsCompleted (getProgress st))
          then levelsCompleted (getProgress st)
          else levelsCompleted (getProgress st) ++ [current s])
    /\ totalScore p' = totalScore (getProgress st) + score
    /\ totalKills p' = totalKills (getProgress st) + kills
    /\ currentLevel p'
       = (if hasNextLevel s then current s + 1
          else currentLevel (getProgress st)).
Proof.
  intros Hf. unfold completeLevel, saveProgress. rewrite Hf.
  destruct (hasNextLevel s); eexists; repeat split.
Qed.

End LevelFacts.

(** C9. The level is reported complete exactly when every objective of
    the current level, the one the map holds under the current index,
    holds on the inputs (kills at least the target, distance at least
    the target, the boss defeated); one objective that does not hold is
    enough for the answer to be [false]. Completing the level on a
    store that reads and writes, whatever it holds ([stored]; nothing
    stands for the progress of a new campaign), leaves a store whose
    entry, read back by [getProgress], has the index of the level
    recorded once (an index already recorded is not added again) and
    the score and the kills added to the totals that were stored; the
    current level moves on, in the system and in the store, only when a
    next level exists. *)
Theorem level_complete_when_all_objectives_hold
    (s : LevelSystem.t) (level : LevelSystem.LevelData)
    (kills : Z) (distance : Q) (bossDefeated : bool) :
  LevelSystem.levels s !! LevelSystem.current s = Some level ->
  (LevelSystem.areObjectivesComplete kills distance bossDefeated s = Some true
   <-> Forall (LevelSystem.satisfied kills distance bossDefeated)
              (LevelSystem.objectives level))
  /\ (forall o,
        o ∈ LevelSystem.objectives level ->
        ~ LevelSystem.satisfied kills distance bossDefeated o ->
        LevelSystem.areObjectivesComplete kills distance bossDefeated s
        = Some false)
  /\ (forall (score won : Z) (stored : option LevelSystem.LevelProgress),
        let st := LevelSystem.mkStorage stored false false in
        let p := match stored with
                 | Some p => p
                 | None => LevelSystem.mkProgress 1 [] 0 0
                 end in
        let s' := (LevelSystem.completeLevel score won s st).1 in
        exists p',
          (LevelSystem.completeLevel score won s st).2
          = LevelSystem.mkStorage (Some p') false false
          /\ LevelSystem.getProgress
               (LevelSystem.completeLevel score won s st).2 = p'
          /\ LevelSystem.current s ∈ LevelSystem.levelsCompleted p'
          /\ (LevelSystem.current s ∈ LevelSystem.levelsCompleted p ->
              LevelSystem.levelsCompleted p' = LevelSystem.levelsCompleted p)
          /\ (LevelSystem.current s ∉ LevelSystem.levelsCompleted p ->
              LevelSystem.levelsCompleted p'
              = LevelSystem.levelsCompleted p ++ [LevelSystem.current s])
          /\ LevelSystem.totalScore p' = LevelSystem.totalScore p + score
          /\ LevelSystem.totalKills p' = LevelSystem.totalKills p + won
          /\ (is_Some (LevelSystem.levels s !! (LevelSystem.current s + 1)) ->
              LevelSystem.current s' = LevelSystem.current s + 1
              /\ LevelSystem.currentLevel p' = LevelSystem.current s + 1)
          /\ (LevelSystem.levels s !! (LevelSystem.current s + 1) = None ->
              LevelSystem.current s' = LevelSystem.current s
              /\ LevelSystem.currentLevel p' = LevelSystem.currentLevel p)
          /\ LevelSystem.levels s' = LevelSystem.levels s).
Proof.
  intros Hkey.
  assert (Hlevel : LevelSystem.getCurrentLevelData s = Some level).
  { unfold LevelSystem.getCurrentLevelData. rewrite Hkey. reflexivity. }
  split; [|split].
  - unfold LevelSystem.areObjectivesComplete. rewrite Hlevel.
    rewrite <- checkObjectives_true. split; congruence.
  - intros o Hin Hno. unfold LevelSystem.areObjectivesComplete.
    rewrite Hlevel. f_equal. eapply checkObjectives_false; eassumption.
  - intros score won stored st p s'.
    destruct (completeLevel_saves score won s st eq_refl)
      as (p' & Hst & Hlc & Hts & Htk & Hcl).
    assert (Hp : LevelSystem.getProgress st = p).
    { subst st p. unfold LevelSystem.getProgress.
      cbn [LevelSystem.readFails LevelSystem.item].
      destruct stored; reflexivity. }
    rewrite Hp in Hlc, Hts, Htk, Hcl.
    cbn [LevelSystem.readFails] in Hst.
    exists p'.
    split; [exact Hst|]. split; [rewrite Hst; reflexivity|].
    split; [|split; [|split; [|split; [|split]]]].
    + rewrite Hlc. case_bool_decide as Hin; [exact Hin|].
      apply elem_of_app. right. apply list_elem_of_singleton. reflexivity.
    + intros Hin. rewrite Hlc. rewrite bool_decide_eq_true_2; auto.
    + intros Hin. rewrite Hlc. rewrite bool_decide_eq_false_2; auto.
    + exact Hts.
    + exact Htk.
    + subst s'. unfold LevelSystem.completeLevel.
      destruct (LevelSystem.hasNextLevel s) eqn:E;
        unfold LevelSystem.hasNextLevel in E.
      * apply bool_decide_eq_true in E.
        split; [|split]; [intros _; split; [reflexivity | exact Hcl]
                         | | reflexivity].
        intros Hnone. rewrite Hnone in E.
        destruct E as [? E]; discriminate E.
      * apply bool_decide_eq_false in E.
        split; [|split]; [| intros _; split; [reflexivity | exact Hcl]
                          | reflexivity].
        intros Hsome. contradiction.
Qed.

Lemma level_complete_when_all_objectives_hold_witness :
  LevelSystem.areObjectivesComplete 35 500 true
    (LevelSystem.constructor
       (LevelSystem.mkStorage
          (Some (LevelSystem.mkProgress 3 [1; 2] 4000 40)) false false))
  = Some true
  /\ LevelSystem.areObjectivesComplete 35 500 false
       (LevelSystem.constructor
          (LevelSystem.mkStorage
             (Some (LevelSystem.mkProgress 3 [1; 2] 4000 40)) false false))
     = Some false
  /\ LevelSystem.getProgress
       (LevelSystem.completeLevel 9000 35
          (LevelSystem.constructor
             (LevelSystem.mkStorage
                (Some (LevelSystem.mkProgress 3 [1; 2] 4000 40)) false
                false))
          (LevelSystem.mkStorage
             (Some (LevelSystem.mkProgress 3 [1; 2] 4000 40)) false false)).2
     = LevelSystem.mkProgress 3 [1; 2; 3] 13000 75.
Proof.
  pose proof (level_complete_when_all_objectives_hold
                (LevelSystem.constructor
                   (LevelSystem.mkStorage
                      (Some (LevelSystem.mkProgress 3 [1; 2] 4000 40)) false
                      false))
                _ 35 500 true eq_refl) as (Hall & _ & Hdone).
  pose proof (level_complete_when_all_objectives_hold
                (LevelSystem.constructor
                   (LevelSystem.mkStorage
                      (Some (LevelSystem.mkProgress 3 [1; 2] 4000 40)) false
                      false))
                _ 35 500 false eq_refl) as (_ & Hone & _).
  split; [|split].
  - apply Hall. repeat constructor; unfold LevelSystem.satisfied; simpl;
      discriminate.
  - apply (Hone (LevelSystem.mkObjective LevelSystem.TBoss 1
                   "Defeat installation commander" false)).
    + apply list_elem_of_In. simpl. auto.
    + unfold LevelSystem.satisfied. simpl. discriminate.
  - destruct (Hdone 9000 35
                (Some (LevelSystem.mkProgress 3 [1; 2] 4000 40)))
      as (p' & _ & Hread & _ & _ & Hnew & Hts & Htk & _ & Hstay & _).
    rewrite Hread. destruct p' as [c l ts tk].
    cbn [LevelSystem.levelsCompleted LevelSystem.totalScore
         LevelSystem.totalKills LevelSystem.currentLevel] in *.
    destruct Hstay as [_ Hc]; [reflexivity|].
    rewrite Hnew, Hts, Htk, Hc.
    + reflexivity.
    + apply (bool_decide_unpack _). vm_compute. exact I.
Defined.

(** ** CollisionSystem *)

(** *** Traces *)

Section TraceFacts.
Import CollisionSystem.

Lemma count_app (p : Event -> bool) (t1 t2 : list Event) :
  count p (t1 ++ t2) = (count p t1 + count p t2)%nat.
Proof.
  induction t1 as [|ev t1 IH]; [reflexivity|].
  simpl. rewrite IH. lia.
Qed.

Lemma count_zero_Forall (p : Event -> bool) (tr : list Event) :
  count p tr = 0%nat <-> Forall (fun ev => p ev = false) tr.
Proof.
  induction tr as [|ev tr IH]; simpl.
  - split; [constructor | reflexivity].
  - rewrite Forall_cons, <- IH. destruct (p ev); simpl; split.
    + discriminate.
    + intros [H _]. discriminate H.
    + auto.
    + intros [_ H]. exact H.
Qed.

Lemma count_zero_elem (p : Event -> bool) (tr : list Event) (ev : Event) :
  count p tr = 0%nat -> ev ∈ tr -> p ev = false.
Proof.
  intros H Hin. apply count_zero_Forall in H.
  rewrite Forall_forall in H. apply H. exact Hin.
Qed.

Lemma destroyed_app (t1 t2 : list Event) :
  destroyed (t1 ++ t2) = destroyed t1 ++ destroyed t2.
Proof.
  induction t1 as [|ev t1 IH]; [reflexivity|].
  destruct ev; simpl; rewrite IH; reflexivity.
Qed.

Lemma sumPoints_app (l1 l2 : list EnemyType) :
  sumPoints (l1 ++ l2) = sumPoints l1 + sumPoints l2.
Proof.
  induction l1 as [|ty l1 IH]; [reflexivity|].
  simpl. rewrite IH. lia.
Qed.

Lemma after_app (p : Event -> bool) (t1 t2 : list Event) :
  after p (t1 ++ t2)
  = if decide (count p t1 = 0%nat) then after p t2 else after p t1 ++ t2.
Proof.
  induction t1 as [|ev t1 IH]; [reflexivity|].
  simpl. destruct (p ev); simpl.
  - reflexivity.
  - exact IH.
Qed.

(** Nothing after the first [p] brings back what the whole trace lacks. *)
Lemma count_after_le (p q : Event -> bool) (tr : list Event) :
  (count q (after p tr) <= count q tr)%nat.
Proof.
  induction tr as [|ev tr IH]; [reflexivity|].
  simpl. destruct (p ev); lia.
Qed.

(** A trace cut at an event that satisfies [p], the first to do so. *)
Lemma after_split (p : Event -> bool) (pre post : list Event) (ev : Event) :
  count p pre = 0%nat -> p ev = true -> after p (pre ++ ev :: post) = post.
Proof.
  intros Hpre Hev. rewrite after_app.
  destruct (decide (count p pre = 0%nat)); [|contradiction].
  simpl. rewrite Hev. reflexivity.
Qed.

Lemma before_app (p : Event -> bool) (t1 t2 : list Event) :
  before p (t1 ++ t2)
  = if decide (count p t1 = 0%nat) then t1 ++ before p t2 else before p t1.
Proof.
  induction t1 as [|ev t1 IH]; [reflexivity|].
  simpl. destruct (p ev); simpl; [reflexivity|].
  rewrite IH. destruct (decide (count p t1 = 0%nat)); reflexivity.
Qed.

Lemma before_none (p : Event -> bool) (tr : list Event) :
  count p tr = 0%nat -> before p tr = tr.
Proof.
  induction tr as [|ev tr IH]; [reflexivity|].
  simpl. destruct (p ev); [discriminate|].
  intros H. rewrite IH; [reflexivity | exact H].
Qed.

Lemma count_pos_elem (p : Event -> bool) (tr : list Event) :
  count p tr <> 0%nat -> exists ev, ev ∈ tr /\ p ev = true.
Proof.
  induction tr as [|ev tr IH]; [intros H; contradiction|].
  simpl. destruct (p ev) eqn:E.
  - intros _. exists ev. split; [left | exact E].
  - intros H. destruct (IH H) as (ev' & Hin & Hp).
    exists ev'. split; [right; exact Hin | exact Hp].
Qed.

Lemma destroyed_nil_count (tr : list Event) (y : nat) :
  destroyed tr = [] -> count (isDestroyOf y) tr = 0%nat.
Proof.
  induction tr as [|ev tr IH]; [reflexivity|].
  destruct ev; simpl; try exact IH. discriminate.
Qed.

End TraceFacts.

(** *** What every pass preserves *)

Section Passes.
Import CollisionSystem.
Variable overlap : Sprite -> Sprite -> bool.
Variable random : nat -> Q.
Variable onBossDefeated : bool.

(** A relation between the world before, the trace and the world after
    that holds of the steps the passes are made of, and of their
    sequences. [P] says on whose behalf a step may test or damage. *)
Variable P : Obj -> Prop.
Variable R : World -> list Event -> World -> Prop.
Hypothesis R_nil : forall w, R w [] w.
Hypothesis R_app :
  forall w t1 w1 t2 w2, R w t1 w1 -> R w1 t2 w2 -> R w (t1 ++ t2) w2.
Hypothesis R_quiet :
  forall w ev,
    quiet ev = true -> (forall a b, ev = Overlap a b -> P a) -> R w [ev] w.
Hypothesis R_splice : forall i w, R w [] (spliceBullet i w).
Hypothesis R_damage :
  forall by_ particles sound j e w,
    P by_ ->
    enemies w !! j = Some e ->
    R w (damageEnemy random onBossDefeated by_ particles sound j e w).2
        (damageEnemy random onBossDefeated by_ particles sound j e w).1.

Lemma R_cons (w w' : World) (ev : Event) (tr : list Event) :
  quiet ev = true -> (forall a b, ev = Overlap a b -> P a) ->
  R w tr w' -> R w (ev :: tr) w'.
Proof.
  intros Hq HP H. change (ev :: tr) with ([ev] ++ tr).
  apply R_app with w; [apply R_quiet; assumption | exact H].
Qed.

Lemma bulletScan_R (b : Bullet.t) (i n : nat) (w : World) :
  P (OBullet (Bullet.oid b)) ->
  R w (bulletScan overlap random onBossDefeated b i n w).2
      (bulletScan overlap random onBossDefeated b i n w).1.
Proof.
  intros HP.
  induction n as [|j IH]; cbn [bulletScan]; [apply R_nil|].
  destruct (enemies w !! j) as [e|] eqn:He; [|apply R_nil].
  destruct (overlap (Bullet.sprite b) (Enemy.sprite e)).
  - pose proof (R_damage (OBullet (Bullet.oid b)) 16 true j e
                  (spliceBullet i w) HP He) as Hd.
    destruct (damageEnemy _ _ _ _ _ _ _ _) as [w' tr]. cbn [fst snd] in *.
    apply R_cons; [reflexivity | intros a c [= <- _]; exact HP |].
    apply R_cons; [reflexivity | discriminate |].
    change tr with ([] ++ tr).
    apply R_app with (spliceBullet i w); [apply R_splice | exact Hd].
  - destruct (bulletScan _ _ _ _ _ _ _) as [w' tr]. cbn [fst snd] in *.
    apply R_cons; [reflexivity | intros a c [= <- _]; exact HP | exact IH].
Qed.

Lemma bulletLoop_R (n : nat) (w : World) :
  (forall x, P (OBullet x)) ->
  R w (bulletLoop overlap random onBossDefeated n w).2
      (bulletLoop overlap random onBossDefeated n w).1.
Proof.
  intros HP.
  revert w. induction n as [|i IH]; intros w; cbn [bulletLoop];
    [apply R_nil|].
  destruct (bullets w !! i) as [b|]; [|apply R_nil].
  pose proof (bulletScan_R b i (length (enemies w)) w (HP _)) as Hs.
  destruct (bulletScan _ _ _ _ _ _ _) as [w1 t1].
  pose proof (IH w1) as Hl.
  destruct (bulletLoop _ _ _ _ _) as [w2 t2]. cbn [fst snd] in *.
  apply R_app with w1; assumption.
Qed.

Lemma grenadeScan_R (g : Grenade.t) (n : nat) (w : World) :
  P (OGrenade (Grenade.oid g)) ->
  R w (grenadeScan random onBossDefeated g n w).2
      (grenadeScan random onBossDefeated g n w).1.
Proof.
  intros HP.
  revert w. induction n as [|j IH]; intros w; cbn [grenadeScan];
    [apply R_nil|].
  destruct (enemies w !! j) as [e|] eqn:He; [|apply R_nil].
  destruct (withinRadius g e); [|apply IH].
  pose proof (R_damage (OGrenade (Grenade.oid g)) 8 false j e w HP He)
    as Hd.
  destruct (damageEnemy _ _ _ _ _ _ _ _) as [w1 t1].
  pose proof (IH w1) as Hl.
  destruct (grenadeScan _ _ _ _ _) as [w2 t2]. cbn [fst snd] in *.
  apply R_app with w1; assumption.
Qed.

Lemma grenadeLoop_R (n : nat) (w : World) :
  (forall x, P (OGrenade x)) ->
  R w (grenadeLoop random onBossDefeated n w).2
      (grenadeLoop random onBossDefeated n w).1.
Proof.
  intros HP.
  revert w. induction n as [|i IH]; intros w; cbn [grenadeLoop];
    [apply R_nil|].
  destruct (grenades w !! i) as [g|]; [|apply R_nil].
  destruct (Grenade.isExploded g); [|apply IH].
  pose proof (grenadeScan_R g (length (enemies w)) w (HP _)) as Hs.
  destruct (grenadeScan _ _ _ _ _) as [w1 t1].
  pose proof (IH w1) as Hl.
  destruct (grenadeLoop _ _ _ _) as [w2 t2]. cbn [fst snd] in *.
  apply R_cons; [reflexivity | discriminate |].
  apply R_cons; [reflexivity | discriminate |].
  apply R_app with w1; assumption.
Qed.

End Passes.

(** *** The damage passes leave the player and the pickups alone *)

Section Frame.
Import CollisionSystem.
Variable overlap : Sprite -> Sprite -> bool.
Variable random : nat -> Q.
Variable onBossDefeated : bool.

Lemma takeDamage_dispatch_key (d : nat) (e : Enemy.t) :
  key (takeDamage_dispatch random d e).1.1 = key e.
Proof.
  unfold takeDamage_dispatch, CoveredSoldier.takeDamage, Boss.takeDamage,
    Enemy.takeDamage.
  destruct (Enemy.sub e) as [|c|p m].
  - reflexivity.
  - destruct c; [destruct (Qltb _ _)|]; reflexivity.
  - destruct (_ && _); [|destruct (_ && _)]; reflexivity.
Qed.

Lemma framed_nil (w : World) : framed w [] w.
Proof. repeat split. Qed.

Lemma framed_app (w : World) (t1 : list Event) (w1 : World)
    (t2 : list Event) (w2 : World) :
  framed w t1 w1 -> framed w1 t2 w2 -> framed w (t1 ++ t2) w2.
Proof.
  intros (A1 & A2 & A3 & A4 & A5) (B1 & B2 & B3 & B4 & B5).
  unfold framed. rewrite !count_app, A4, A5, B4, B5.
  repeat split; congruence.
Qed.

Lemma framed_quiet (w : World) (ev : Event) :
  quiet ev = true -> framed w [ev] w.
Proof.
  intros H. destruct ev; try discriminate H; repeat split.
Qed.

Lemma framed_damage (by_ : Obj) (particles : Z) (sound : bool) (j : nat)
    (e : Enemy.t) (w : World) :
  framed w (damageEnemy random onBossDefeated by_ particles sound j e w).2
           (damageEnemy random onBossDefeated by_ particles sound j e w).1.
Proof.
  unfold damageEnemy.
  destruct (takeDamage_dispatch random (draws w) e) as [[e' dead] d'].
  destruct dead; [|repeat split].
  destruct sound; destruct (_ && onBossDefeated); repeat split.
Qed.

Lemma bulletLoop_framed (n : nat) (w : World) :
  framed w (bulletLoop overlap random onBossDefeated n w).2
           (bulletLoop overlap random onBossDefeated n w).1.
Proof.
  apply bulletLoop_R with (P := fun _ => True);
    first [ solve [auto using framed_nil, framed_quiet, framed_damage]
          | apply framed_app
          | intros; repeat split ].
Qed.

Lemma grenadeLoop_framed (n : nat) (w : World) :
  framed w (grenadeLoop random onBossDefeated n w).2
           (grenadeLoop random onBossDefeated n w).1.
Proof.
  apply grenadeLoop_R with (P := fun _ => True);
    first [ solve [auto using framed_nil, framed_quiet, framed_damage]
          | apply framed_app
          | intros; repeat split ].
Qed.

(** The player pass: it ends on [GameOver] exactly when it found an
    enemy on the player. *)
Lemma playerScan_spec (p : Player.t) (es : list Enemy.t) :
  count isPickup (playerScan overlap p es).2 = 0%nat
  /\ ((playerScan overlap p es).1 = true ->
      (exists pre, (playerScan overlap p es).2 = pre ++ [GameOver]
                   /\ count isGameOver pre = 0%nat)
      /\ exists e, e ∈ es
                   /\ overlap (Player.sprite p) (Enemy.sprite e) = true)
  /\ ((playerScan overlap p es).1 = false ->
      count isGameOver (playerScan overlap p es).2 = 0%nat
      /\ forall e, e ∈ es ->
                   overlap (Player.sprite p) (Enemy.sprite e) = false).
Proof.
  induction es as [|e es IH]; cbn [playerScan].
  - split; [reflexivity|]. split; [discriminate|].
    intros _. split; [reflexivity|]. intros e He. inversion He.
  - destruct (overlap (Player.sprite p) (Enemy.sprite e)) eqn:Ho.
    + split; [reflexivity|]. split; [|discriminate].
      intros _. split.
      * exists [Overlap OPlayer (OEnemy (Enemy.oid e)); Sound PlayerHitSound].
        split; reflexivity.
      * exists e. split; [left | exact Ho].
    + destruct (playerScan overlap p es) as [r tr]. cbn [fst snd] in *.
      destruct IH as (Hp & Ht & Hf). split; [exact Hp|]. split.
      * intros Hr. destruct (Ht Hr) as ((pre & -> & Hpre) & e' & Hin & Ho').
        split.
        -- exists (Overlap OPlayer (OEnemy (Enemy.oid e)) :: pre).
           split; [reflexivity | exact Hpre].
        -- exists e'. split; [right; exact Hin | exact Ho'].
      * intros Hr. destruct (Hf Hr) as (Hg & Hall). split; [exact Hg|].
        intros e' He'. apply elem_of_cons in He' as [->|He'];
          [exact Ho | apply Hall; exact He'].
Qed.

(** The power-up pass never fires the death callback and keeps the
    enemies. *)
Lemma powerUpLoop_spec (now : Q) (n : nat) (w : World) :
  count isGameOver (powerUpLoop overlap now n w).2 = 0%nat
  /\ enemies (powerUpLoop overlap now n w).1 = enemies w.
Proof.
  induction n as [|i IH]; cbn [powerUpLoop]; [split; reflexivity|].
  destruct (powerUps w !! i) as [u|]; [|split; reflexivity].
  destruct (overlap _ _); [split; reflexivity|].
  destruct (powerUpLoop overlap now i w) as [w' tr]. cbn [fst snd] in *.
  exact IH.
Qed.

Lemma GameOver_count (tr : list Event) :
  GameOver ∈ tr <-> count isGameOver tr <> 0%nat.
Proof.
  induction tr as [|ev tr IH]; simpl.
  - split; [intros H; inversion H | intros H; contradiction].
  - rewrite elem_of_cons, IH. destruct ev; simpl; split;
      try (intros [H|H]; [discriminate H | exact H]);
      try (intros H; right; exact H);
      try (intros _; discriminate); intros _; left; reflexivity.
Qed.

End Frame.

(** C4. The death callback is never fired for a player who is invincible
    or dead. When it is fired, the player was neither, an enemy of the
    list left by the damage passes is on the player, the callback is the
    last thing the call does, and the call has applied no power-up,
    collected none and reported no grenade count: the player and the
    power-ups are returned as they were passed. When the player is
    neither invincible nor dead and an enemy left by the damage passes
    is on the player, the callback is fired. *)
Theorem player_death_ends_the_call
    (overlap : Sprite -> Sprite -> bool) (random : nat -> Q)
    (onBossDefeated : bool) (now : Q) (w : CollisionSystem.World) :
  let r := CollisionSystem.checkCollisions overlap random onBossDefeated
             now w in
  let p := CollisionSystem.player w in
  (Player.getIsInvincible p = true \/ Player.getIsDead p = true ->
   CollisionSystem.GameOver ∉ r.2)
  /\ (CollisionSystem.GameOver ∈ r.2 ->
      Player.getIsInvincible p = false /\ Player.getIsDead p = false
      /\ (exists pre,
            r.2 = pre ++ [CollisionSystem.GameOver]
            /\ CollisionSystem.GameOver ∉ pre)
      /\ CollisionSystem.count CollisionSystem.isPickup r.2 = 0%nat
      /\ CollisionSystem.player r.1 = p
      /\ CollisionSystem.powerUps r.1 = CollisionSystem.powerUps w
      /\ exists e, e ∈ CollisionSystem.enemies r.1
                   /\ overlap (Player.sprite p) (Enemy.sprite e) = true)
  /\ (Player.getIsInvincible p = false -> Player.getIsDead p = false ->
      (exists e, e ∈ CollisionSystem.enemies r.1
                 /\ overlap (Player.sprite p) (Enemy.sprite e) = true) ->
      CollisionSystem.GameOver ∈ r.2).
Proof.
  intros r p. subst r p. unfold CollisionSystem.checkCollisions.
  pose proof (bulletLoop_framed overlap random onBossDefeated
                (length (CollisionSystem.bullets w)) w) as F1.
  destruct (CollisionSystem.bulletLoop _ _ _ _ _) as [w1 t1].
  pose proof (grenadeLoop_framed random onBossDefeated
                (length (CollisionSystem.grenades w1)) w1) as F2.
  destruct (CollisionSystem.grenadeLoop _ _ _ _) as [w2 t2].
  cbn [fst snd] in F1, F2.
  destruct F1 as (P1 & U1 & _ & GO1 & PK1).
  destruct F2 as (P2 & U2 & _ & GO2 & PK2).
  assert (Hp : CollisionSystem.player w2 = CollisionSystem.player w)
    by congruence.
  assert (Hu : CollisionSystem.powerUps w2 = CollisionSystem.powerUps w)
    by congruence.
  rewrite Hp. unfold Player.getIsInvincible, Player.getIsDead.
  pose proof (powerUpLoop_spec overlap now
                (length (CollisionSystem.powerUps w2)) w2) as [GO4 E4].
  pose proof (playerScan_spec overlap (CollisionSystem.player w)
                (CollisionSystem.enemies w2)) as (PK3 & Ht & Hf).
  rewrite !GameOver_count.
  destruct (Player.isInvincible (CollisionSystem.player w)) eqn:Ei;
    [|destruct (Player.isDead (CollisionSystem.player w)) eqn:Ed];
    cbn [negb andb].
  - destruct (CollisionSystem.powerUpLoop _ _ _ _) as [w4 t4].
    cbn [fst snd] in *. rewrite !count_app, GO1, GO2, GO4. cbn.
    split; [intros _ H; apply H; reflexivity|].
    split; [intros H; exfalso; apply H; reflexivity | discriminate].
  - destruct (CollisionSystem.powerUpLoop _ _ _ _) as [w4 t4].
    cbn [fst snd] in *. rewrite !count_app, GO1, GO2, GO4. cbn.
    split; [intros _ H; apply H; reflexivity|].
    split; [intros H; exfalso; apply H; reflexivity | discriminate].
  - split; [intros [H|H]; discriminate H|].
    destruct (CollisionSystem.playerScan _ _ _) as [dead t3].
    cbn [fst snd] in *. destruct dead.
    + destruct (Ht eq_refl) as ((pre & -> & Hpre) & e & Hin & Ho).
      cbn [fst snd]. split.
      * intros _. split; [reflexivity|]. split; [reflexivity|].
        split; [|split; [|split; [|split]]].
        -- exists (t1 ++ t2 ++ pre). split.
           ++ rewrite <- !app_assoc. reflexivity.
           ++ rewrite GameOver_count, !count_app, GO1, GO2, Hpre.
              intros H; apply H; reflexivity.
        -- rewrite count_app in PK3. rewrite !count_app, PK1, PK2.
           cbn in PK3 |- *. lia.
        -- exact Hp.
        -- exact Hu.
        -- exists e. split; assumption.
      * intros _ _ _. rewrite !count_app, GO1, GO2, Hpre. cbn. lia.
    + destruct (Hf eq_refl) as (GO3 & Hall).
      destruct (CollisionSystem.powerUpLoop _ _ _ _) as [w4 t4].
      cbn [fst snd] in *. rewrite !count_app, GO1, GO2, GO3, GO4. cbn.
      split; [intros H; exfalso; apply H; reflexivity|].
      intros _ _ (e & Hin & Ho). rewrite E4 in Hin.
      rewrite (Hall e Hin) in Ho. discriminate Ho.
Qed.

Lemma player_death_ends_the_call_witness :
  let w := CollisionSystem.mkWorld 0 0 (Player.constructor 300 600) [] []
             [Tank.constructor 1 302 603]
             [PowerUp.mk 2 (mkSprite 300 600 0) (PowerUp.GrenadePack 5) false]
             0 in
  let r := CollisionSystem.checkCollisions CollisionSystem.nearby
             (fun _ => 0%Q) true 0 w in
  CollisionSystem.count CollisionSystem.isPickup r.2 = 0%nat
  /\ CollisionSystem.powerUps r.1 = CollisionSystem.powerUps w.
Proof.
  intros w r.
  destruct (player_death_ends_the_call CollisionSystem.nearby
              (fun _ => 0%Q) true 0 w) as (_ & H & _).
  destruct H as (_ & _ & _ & Hpk & _ & Hu & _).
  - apply list_elem_of_In. vm_compute. tauto.
  - split; [exact Hpk | exact Hu].
Defined.

(** *** Scoring *)

Section Scoring.
Import CollisionSystem.
Variable overlap : Sprite -> Sprite -> bool.
Variable random : nat -> Q.
Variable onBossDefeated : bool.

Lemma accounted_nil (w : World) : accounted onBossDefeated w [] w.
Proof.
  unfold accounted. simpl. destruct onBossDefeated; repeat split; lia.
Qed.

Lemma countBoss_app (l1 l2 : list EnemyType) :
  countBoss (l1 ++ l2) = (countBoss l1 + countBoss l2)%nat.
Proof.
  induction l1 as [|ty l1 IH]; [reflexivity|]. simpl. rewrite IH. lia.
Qed.

Lemma accounted_app (w : World) (t1 : list Event) (w1 : World)
    (t2 : list Event) (w2 : World) :
  accounted onBossDefeated w t1 w1 -> accounted onBossDefeated w1 t2 w2 ->
  accounted onBossDefeated w (t1 ++ t2) w2.
Proof.
  intros (A1 & A2 & A3) (B1 & B2 & B3). unfold accounted.
  rewrite destroyed_app, sumPoints_app, length_app, count_app, countBoss_app,
    A3, B3.
  repeat split; [lia | lia |]. destruct onBossDefeated; reflexivity.
Qed.

Lemma accounted_quiet (w : World) (ev : Event) :
  quiet ev = true -> accounted onBossDefeated w [ev] w.
Proof.
  intros H. destruct ev; try discriminate H; apply accounted_nil.
Qed.

Lemma accounted_splice (i : nat) (w : World) :
  accounted onBossDefeated w [] (spliceBullet i w).
Proof.
  unfold accounted. simpl. destruct onBossDefeated; repeat split; lia.
Qed.

Lemma takeDamage_dispatch_type (d : nat) (e : Enemy.t) :
  Enemy.type (takeDamage_dispatch random d e).1.1 = Enemy.type e.
Proof.
  pose proof (takeDamage_dispatch_key random d e) as H.
  unfold key in H. congruence.
Qed.

Lemma takeDamage_dispatch_oid (d : nat) (e : Enemy.t) :
  Enemy.oid (takeDamage_dispatch random d e).1.1 = Enemy.oid e.
Proof.
  pose proof (takeDamage_dispatch_key random d e) as H.
  unfold key in H. congruence.
Qed.

(** One [takeDamage] and, when it destroys, the block that scores. *)
Lemma damageEnemy_block (by_ : Obj) (particles : Z) (sound : bool)
    (j : nat) (e : Enemy.t) (w : World) :
  let d := damageEnemy random onBossDefeated by_ particles sound j e w in
  let dead := (takeDamage_dispatch random (draws w) e).1.2 in
  (dead = true ->
   score d.1 = score w + getPointsForEnemy (Enemy.type e)
   /\ kills d.1 = kills w + 1
   /\ destroyed d.2 = [Enemy.type e]
   /\ count isBossDefeated d.2
      = (if String.eqb (Enemy.type e) EnemyType.BOSS && onBossDefeated
         then 1 else 0)%nat
   /\ EnemyDestroy (Enemy.oid e) (Enemy.type e) ∈ d.2
   /\ ScoreUpdate (score d.1) (kills d.1) ∈ d.2)
  /\ (dead = false ->
      score d.1 = score w /\ kills d.1 = kills w
      /\ d.2 = [TakeDamage by_ (Enemy.oid e)]).
Proof.
  intros d dead. subst d dead. unfold damageEnemy.
  pose proof (takeDamage_dispatch_type (draws w) e) as Hty.
  pose proof (takeDamage_dispatch_oid (draws w) e) as Hid.
  destruct (takeDamage_dispatch random (draws w) e) as [[e' dead] d'].
  cbn [fst snd] in *. rewrite Hty, Hid.
  split; intros ->; [|repeat split].
  cbn [fst snd score kills].
  split; [reflexivity|]. split; [reflexivity|].
  destruct sound;
    destruct (String.eqb (Enemy.type e) EnemyType.BOSS && onBossDefeated);
    (split; [reflexivity|]; split; [reflexivity|]; split;
     apply list_elem_of_In; simpl; auto 10).
Qed.

Lemma accounted_damage (by_ : Obj) (particles : Z) (sound : bool) (j : nat)
    (e : Enemy.t) (w : World) :
  accounted onBossDefeated w
    (damageEnemy random onBossDefeated by_ particles sound j e w).2
    (damageEnemy random onBossDefeated by_ particles sound j e w).1.
Proof.
  destruct (damageEnemy_block by_ particles sound j e w) as [Ht Hf].
  destruct ((takeDamage_dispatch random (draws w) e).1.2).
  - destruct (Ht eq_refl) as (Hs & Hk & Hd & Hb & _).
    unfold accounted. rewrite Hs, Hk, Hd, Hb.
    cbn [sumPoints length countBoss].
    repeat split; try lia.
    destruct (String.eqb (Enemy.type e) EnemyType.BOSS);
      destruct onBossDefeated; reflexivity.
  - destruct (Hf eq_refl) as (Hs & Hk & Hd).
    unfold accounted. rewrite Hs, Hk, Hd.
    cbn [sumPoints length countBoss destroyed count isBossDefeated].
    destruct onBossDefeated; repeat split; lia.
Qed.

Lemma bulletLoop_accounted (n : nat) (w : World) :
  accounted onBossDefeated w
    (bulletLoop overlap random onBossDefeated n w).2
    (bulletLoop overlap random onBossDefeated n w).1.
Proof.
  apply bulletLoop_R with (P := fun _ => True);
    first [ solve [auto using accounted_nil, accounted_quiet,
                     accounted_damage, accounted_splice]
          | apply accounted_app ].
Qed.

Lemma grenadeLoop_accounted (n : nat) (w : World) :
  accounted onBossDefeated w
    (grenadeLoop random onBossDefeated n w).2
    (grenadeLoop random onBossDefeated n w).1.
Proof.
  apply grenadeLoop_R with (P := fun _ => True);
    first [ solve [auto using accounted_nil, accounted_quiet,
                     accounted_damage, accounted_splice]
          | apply accounted_app ].
Qed.

Lemma playerScan_accounted (p : Player.t) (es : list Enemy.t) (w : World) :
  accounted onBossDefeated w (playerScan overlap p es).2 w.
Proof.
  induction es as [|e es IH]; cbn [playerScan]; [apply accounted_nil|].
  destruct (overlap _ _); [apply accounted_nil|].
  destruct (playerScan overlap p es) as [r tr]. exact IH.
Qed.

Lemma powerUpLoop_accounted (now : Q) (n : nat) (w : World) :
  accounted onBossDefeated w (powerUpLoop overlap now n w).2
    (powerUpLoop overlap now n w).1.
Proof.
  induction n as [|i IH]; cbn [powerUpLoop]; [apply accounted_nil|].
  destruct (powerUps w !! i) as [u|]; [|apply accounted_nil].
  destruct (overlap _ _).
  - unfold accounted. simpl. destruct onBossDefeated; repeat split; lia.
  - destruct (powerUpLoop overlap now i w) as [w' tr]. exact IH.
Qed.

Lemma checkCollisions_accounted (now : Q) (w : World) :
  accounted onBossDefeated w
    (checkCollisions overlap random onBossDefeated now w).2
    (checkCollisions overlap random onBossDefeated now w).1.
Proof.
  unfold checkCollisions.
  pose proof (bulletLoop_accounted (length (bullets w)) w) as A1.
  destruct (bulletLoop _ _ _ _ _) as [w1 t1].
  pose proof (grenadeLoop_accounted (length (grenades w1)) w1) as A2.
  destruct (grenadeLoop _ _ _ _) as [w2 t2]. cbn [fst snd] in *.
  assert (A3 : forall c : bool,
             accounted onBossDefeated w2
               (if c then playerScan overlap (player w2) (enemies w2)
                else (false, [])).2 w2)
    by (intros [|]; [apply playerScan_accounted | apply accounted_nil]).
  specialize (A3 (negb (Player.getIsInvincible (player w2))
                  && negb (Player.getIsDead (player w2)))).
  destruct (if _ && _ then _ else _) as [dead t3]. cbn [fst snd] in *.
  pose proof (powerUpLoop_accounted now (length (powerUps w2)) w2) as A4.
  destruct dead.
  - cbn [fst snd]. eauto using accounted_app.
  - destruct (powerUpLoop _ _ _ _) as [w4 t4]. cbn [fst snd] in *.
    eauto using accounted_app.
Qed.

End Scoring.

(** *** The enemies through the passes *)

Section Lists.
Context {A : Type}.

Lemma delete_insert_same (l : list A) (j : nat) (x : A) :
  delete j (<[j := x]> l) = delete j l.
Proof.
  revert j. induction l as [|a l IH]; intros [|j]; simpl; try reflexivity.
  f_equal. apply IH.
Qed.

Lemma elem_of_delete_other (l : list A) (j : nat) (x y : A) :
  l !! j = Some y -> x ∈ l -> x <> y -> x ∈ delete j l.
Proof.
  revert j. induction l as [|a l IH]; intros [|j] Hj Hin Hne; simpl in *;
    try discriminate.
  - injection Hj as ->. apply elem_of_cons in Hin as [->|Hin];
      [contradiction | exact Hin].
  - apply elem_of_cons in Hin as [->|Hin]; [left|].
    right. eapply IH; eassumption.
Qed.

Lemma NoDup_delete_notin (l : list A) (j : nat) (a : A) :
  NoDup l -> l !! j = Some a -> a ∉ delete j l.
Proof.
  revert j. induction l as [|c l IH]; intros [|j] Hnd Hj; simpl in *;
    try discriminate; apply NoDup_cons in Hnd as [Hc Hnd].
  - injection Hj as ->. exact Hc.
  - intros Hin. apply elem_of_cons in Hin as [->|Hin].
    + apply Hc. eapply list_elem_of_lookup_2. exact Hj.
    + exact (IH j Hnd Hj Hin).
Qed.

End Lists.

Section Evolution.
Import CollisionSystem.
Variable overlap : Sprite -> Sprite -> bool.
Variable random : nat -> Q.
Variable onBossDefeated : bool.

Lemma destroyed_nil_elem (tr : list Event) (x : nat) (ty : EnemyType) :
  destroyed tr = [] -> EnemyDestroy x ty ∉ tr.
Proof.
  induction tr as [|ev tr IH]; intros Hd Hin; [inversion Hin|].
  apply elem_of_cons in Hin as [<-|Hin]; [discriminate Hd|].
  destruct ev; try discriminate Hd; exact (IH Hd Hin).
Qed.

(** A step that keeps the list of enemies and destroys none. *)
Lemma evolves_same (w : World) (tr : list Event) (w' : World) :
  enemies w' = enemies w -> destroyed tr = [] -> evolves w tr w'.
Proof.
  intros He Hd. unfold evolves. rewrite He. split; [reflexivity|].
  split; [|split].
  - intros x ty Hin. exfalso. exact (destroyed_nil_elem _ _ _ Hd Hin).
  - intros e Hin _. apply list_elem_of_fmap_2. exact Hin.
  - intros _ y Hy. exfalso. apply Hy. apply destroyed_nil_count. exact Hd.
Qed.

Lemma oid_of_key (es : list Enemy.t) :
  Enemy.oid <$> es = (fun k => k.1.1.1) <$> (key <$> es).
Proof. rewrite <- list_fmap_compose. reflexivity. Qed.

Lemma keys_sublist_NoDup (es es' : list Enemy.t) :
  key <$> es' `sublist_of` key <$> es ->
  NoDup (Enemy.oid <$> es) -> NoDup (Enemy.oid <$> es').
Proof.
  intros Hs Hnd. rewrite oid_of_key in Hnd |- *.
  eapply sublist_NoDup; [exact Hnd|].
  apply (fmap_sublist _). exact Hs.
Qed.

Lemma keys_sublist_oid (es es' : list Enemy.t) (y : nat) :
  key <$> es' `sublist_of` key <$> es ->
  y ∈ Enemy.oid <$> es' -> y ∈ Enemy.oid <$> es.
Proof.
  intros Hs Hin. rewrite oid_of_key in Hin |- *.
  eapply elem_of_sublist; [exact Hin|].
  apply (fmap_sublist _). exact Hs.
Qed.

Lemma key_elem (e : Enemy.t) (es : list Enemy.t) :
  key e ∈ key <$> es -> exists e', e' ∈ es /\ key e' = key e.
Proof.
  intros H. apply list_elem_of_fmap in H as (e' & Hk & Hin). eauto.
Qed.

Lemma evolves_app (w : World) (t1 : list Event) (w1 : World)
    (t2 : list Event) (w2 : World) :
  evolves w t1 w1 -> evolves w1 t2 w2 -> evolves w (t1 ++ t2) w2.
Proof.
  intros (S1 & D1 & K1 & N1) (S2 & D2 & K2 & N2).
  split; [|split; [|split]].
  - etransitivity; eassumption.
  - intros x ty Hin. apply elem_of_app in Hin as [Hin|Hin];
      [exact (D1 x ty Hin)|].
    destruct (D2 x ty Hin) as (e1 & Hin1 & Ho & Ht).
    assert (Hk : key e1 ∈ key <$> enemies w)
      by (eapply elem_of_sublist; [apply list_elem_of_fmap_2|]; eassumption).
    apply key_elem in Hk as (e & Hin0 & Hk). exists e.
    unfold key in Hk. split; [exact Hin0|]. split; congruence.
  - intros e Hin Hc. rewrite count_app in Hc.
    assert (Hk : key e ∈ key <$> enemies w1) by (apply K1; [exact Hin | lia]).
    apply key_elem in Hk as (e1 & Hin1 & Hk). rewrite <- Hk.
    apply K2; [exact Hin1|].
    replace (Enemy.oid e1) with (Enemy.oid e)
      by (unfold key in Hk; congruence). lia.
  - intros Hnd y Hy.
    destruct (decide (count (isDestroyOf y) t1 = 0%nat)) as [Hz|Hnz].
    + apply N2; [exact (keys_sublist_NoDup _ _ S1 Hnd)|].
      rewrite count_app in Hy. lia.
    + intros Hin. apply (N1 Hnd y Hnz).
      exact (keys_sublist_oid _ _ y S2 Hin).
Qed.

(** The list of enemies after one [takeDamage]. *)
Lemma damageEnemy_enemies (by_ : Obj) (particles : Z) (sound : bool)
    (j : nat) (e : Enemy.t) (w : World) :
  enemies w !! j = Some e ->
  let d := damageEnemy random onBossDefeated by_ particles sound j e w in
  let dead := (takeDamage_dispatch random (draws w) e).1.2 in
  key <$> enemies d.1
  = (if dead then delete j (key <$> enemies w) else key <$> enemies w)
  /\ (forall x ty,
        EnemyDestroy x ty ∈ d.2 ->
        dead = true /\ x = Enemy.oid e /\ ty = Enemy.type e)
  /\ bullets d.1 = bullets w /\ grenades d.1 = grenades w.
Proof.
  intros He d dead. subst d dead. unfold damageEnemy.
  pose proof (takeDamage_dispatch_key random (draws w) e) as Hk.
  destruct (takeDamage_dispatch random (draws w) e) as [[e' dead] d'].
  cbn [fst snd] in *.
  assert (Hins : key <$> <[j := e']> (enemies w) = key <$> enemies w).
  { rewrite list_fmap_insert. apply list_insert_id.
    rewrite list_lookup_fmap, He, Hk. reflexivity. }
  destruct dead; cbn [fst snd enemies bullets grenades].
  - split; [|split; [|split; reflexivity]].
    + rewrite list_fmap_delete, Hins. reflexivity.
    + intros x ty Hin. split; [reflexivity|].
      assert (Hev : EnemyDestroy x ty
                    = EnemyDestroy (Enemy.oid e') (Enemy.type e')).
      { destruct sound; destruct (_ && onBossDefeated);
          apply list_elem_of_In in Hin; simpl in Hin;
          intuition (try discriminate; congruence). }
      injection Hev as -> ->. unfold key in Hk. split; congruence.
  - split; [exact Hins|]. split; [|split; reflexivity].
    intros x ty Hin. apply list_elem_of_singleton in Hin. discriminate Hin.
Qed.

Lemma evolves_damage (by_ : Obj) (particles : Z) (sound : bool) (j : nat)
    (e : Enemy.t) (w : World) :
  enemies w !! j = Some e ->
  evolves w (damageEnemy random onBossDefeated by_ particles sound j e w).2
            (damageEnemy random onBossDefeated by_ particles sound j e w).1.
Proof.
  intros He.
  destruct (damageEnemy_enemies by_ particles sound j e w He)
    as (Hk & Hd & _).
  destruct (damageEnemy_block random onBossDefeated by_ particles sound j e w)
    as [Ht _].
  split; [|split; [|split]].
  - rewrite Hk. destruct (_.1.2); [apply sublist_delete | reflexivity].
  - intros x ty Hin. destruct (Hd x ty Hin) as (_ & -> & ->).
    exists e. split; [|split; reflexivity].
    eapply list_elem_of_lookup_2. exact He.
  - intros e0 Hin Hc. rewrite Hk.
    destruct (_.1.2); [|apply list_elem_of_fmap_2; exact Hin].
    destruct (Ht eq_refl) as (_ & _ & _ & _ & Hev & _).
    pose proof (count_zero_elem _ _ _ Hc Hev) as Hne. simpl in Hne.
    apply bool_decide_eq_false in Hne.
    rewrite <- list_fmap_delete. apply list_elem_of_fmap_2.
    eapply elem_of_delete_other; [exact He | exact Hin |].
    intros ->. apply Hne. reflexivity.
  - intros Hnd y Hy. apply count_pos_elem in Hy as (ev & Hin & Hev).
    destruct ev; try discriminate Hev. simpl in Hev.
    apply bool_decide_eq_true in Hev as ->.
    destruct (Hd _ _ Hin) as (Hdead & -> & _).
    rewrite oid_of_key, Hk, Hdead, list_fmap_delete.
    rewrite oid_of_key in Hnd.
    apply NoDup_delete_notin; [exact Hnd|].
    rewrite !list_lookup_fmap, He. reflexivity.
Qed.

Lemma bulletLoop_evolves (n : nat) (w : World) :
  evolves w (bulletLoop overlap random onBossDefeated n w).2
            (bulletLoop overlap random onBossDefeated n w).1.
Proof.
  apply bulletLoop_R with (P := fun _ => True);
    first [ apply evolves_app
          | intros; apply evolves_damage; assumption
          | intros ? ev Hq _; apply evolves_same;
            [reflexivity | destruct ev; (discriminate Hq || reflexivity)]
          | intros; apply evolves_same; reflexivity
          | exact (fun _ => I) ].
Qed.

Lemma grenadeLoop_evolves (n : nat) (w : World) :
  evolves w (grenadeLoop random onBossDefeated n w).2
            (grenadeLoop random onBossDefeated n w).1.
Proof.
  apply grenadeLoop_R with (P := fun _ => True);
    first [ apply evolves_app
          | intros; apply evolves_damage; assumption
          | intros ? ev Hq _; apply evolves_same;
            [reflexivity | destruct ev; (discriminate Hq || reflexivity)]
          | intros; apply evolves_same; reflexivity
          | exact (fun _ => I) ].
Qed.

Lemma playerScan_destroyed (p : Player.t) (es : list Enemy.t) :
  destroyed (playerScan overlap p es).2 = [].
Proof.
  induction es as [|e es IH]; cbn [playerScan]; [reflexivity|].
  destruct (overlap _ _); [reflexivity|].
  destruct (playerScan overlap p es) as [r tr]. exact IH.
Qed.

Lemma powerUpLoop_destroyed (now : Q) (n : nat) (w : World) :
  destroyed (powerUpLoop overlap now n w).2 = [].
Proof.
  induction n as [|i IH]; cbn [powerUpLoop]; [reflexivity|].
  destruct (powerUps w !! i) as [u|]; [|reflexivity].
  destruct (overlap _ _); [reflexivity|].
  destruct (powerUpLoop overlap now i w) as [w' tr]. exact IH.
Qed.

Lemma checkCollisions_evolves (now : Q) (w : World) :
  evolves w (checkCollisions overlap random onBossDefeated now w).2
            (checkCollisions overlap random onBossDefeated now w).1.
Proof.
  unfold checkCollisions.
  pose proof (bulletLoop_evolves (length (bullets w)) w) as A1.
  destruct (bulletLoop _ _ _ _ _) as [w1 t1].
  pose proof (grenadeLoop_evolves (length (grenades w1)) w1) as A2.
  destruct (grenadeLoop _ _ _ _) as [w2 t2]. cbn [fst snd] in *.
  assert (A3 : forall c : bool,
             evolves w2
               (if c then playerScan overlap (player w2) (enemies w2)
                else (false, [])).2 w2).
  { intros [|]; apply evolves_same; try reflexivity.
    apply playerScan_destroyed. }
  specialize (A3 (negb (Player.getIsInvincible (player w2))
                  && negb (Player.getIsDead (player w2)))).
  destruct (if _ && _ then _ else _) as [dead t3]. cbn [fst snd] in *.
  pose proof (powerUpLoop_spec overlap now (length (powerUps w2)) w2)
    as [_ E4].
  pose proof (powerUpLoop_destroyed now (length (powerUps w2)) w2) as D4.
  destruct dead.
  - cbn [fst snd]. eauto using evolves_app.
  - destruct (powerUpLoop _ _ _ _) as [w4 t4]. cbn [fst snd] in *.
    assert (A4 : evolves w2 t4 w4) by (apply evolves_same; assumption).
    eauto using evolves_app.
Qed.

End Evolution.

(** C5. The points of an archetype are Soldier 100, Tank 300, Jeep 200,
    KnifeSoldier 150, RocketLauncher 250, CoveredSoldier 175, Bunker 400,
    Boss 1000, and 100 for any other tag. Each [takeDamage] that
    destroys an enemy adds the points of its archetype to the score and
    one to the kills, reports both, and fires the boss callback exactly
    when the archetype is Boss (and the callback was passed). Over a
    whole call the score grows by the points of the enemies destroyed,
    the kills by their number, the boss callback is fired once per Boss
    destroyed, and every enemy destroyed is one of the list passed in. *)
Theorem kills_are_scored_by_archetype
    (overlap : Sprite -> Sprite -> bool) (random : nat -> Q)
    (onBossDefeated : bool) (now : Q) (w : CollisionSystem.World) :
  let r := CollisionSystem.checkCollisions overlap random onBossDefeated
             now w in
  (map CollisionSystem.getPointsForEnemy
     [EnemyType.SOLDIER; EnemyType.TANK; EnemyType.JEEP;
      EnemyType.KNIFE_SOLDIER; EnemyType.ROCKET_LAUNCHER;
      EnemyType.COVERED_SOLDIER; EnemyType.BUNKER; EnemyType.BOSS]
   = [100; 300; 200; 150; 250; 175; 400; 1000])
  /\ (forall ty : EnemyType,
        ty ∉ EnemyType.all -> CollisionSystem.getPointsForEnemy ty = 100)
  /\ (forall by_ particles sound j e w0,
        (takeDamage_dispatch random (CollisionSystem.draws w0) e).1.2 = true ->
        let d := CollisionSystem.damageEnemy random onBossDefeated by_
                   particles sound j e w0 in
        CollisionSystem.score d.1
        = CollisionSystem.score w0
          + CollisionSystem.getPointsForEnemy (Enemy.type e)
        /\ CollisionSystem.kills d.1 = CollisionSystem.kills w0 + 1
        /\ CollisionSystem.ScoreUpdate (CollisionSystem.score d.1)
             (CollisionSystem.kills d.1) ∈ d.2
        /\ (CollisionSystem.BossDefeated ∈ d.2
            <-> Enemy.type e = EnemyType.BOSS /\ onBossDefeated = true))
  /\ CollisionSystem.score r.1
     = CollisionSystem.score w
       + CollisionSystem.sumPoints (CollisionSystem.destroyed r.2)
  /\ CollisionSystem.kills r.1
     = CollisionSystem.kills w
       + Z.of_nat (length (CollisionSystem.destroyed r.2))
  /\ CollisionSystem.count CollisionSystem.isBossDefeated r.2
     = (if onBossDefeated
        then CollisionSystem.countBoss (CollisionSystem.destroyed r.2)
        else 0%nat)
  /\ (forall x ty,
        CollisionSystem.EnemyDestroy x ty ∈ r.2 ->
        exists e, e ∈ CollisionSystem.enemies w
                  /\ Enemy.oid e = x /\ Enemy.type e = ty).
Proof.
  intros r. subst r.
  destruct (checkCollisions_accounted overlap random onBossDefeated now w)
    as (Hs & Hk & Hb).
  destruct (checkCollisions_evolves overlap random onBossDefeated now w)
    as (_ & Hd & _ & _).
  split; [reflexivity|]. split; [|split; [|repeat split; assumption]].
  - intros ty Hty. unfold CollisionSystem.getPointsForEnemy.
    repeat match goal with
           | |- context [String.eqb ty ?c] =>
               destruct (String.eqb_spec ty c) as [->|_];
               [exfalso; apply Hty; apply list_elem_of_In; simpl; auto 10|]
           end.
    reflexivity.
  - intros by_ particles sound j e w0 Hdead d.
    destruct (damageEnemy_block random onBossDefeated by_ particles sound
                j e w0) as [Ht _].
    destruct (Ht Hdead) as (H1 & H2 & _ & H4 & _ & H6). fold d in H1, H2, H4, H6.
    split; [exact H1|]. split; [exact H2|]. split; [exact H6|].
    rewrite <- (String.eqb_eq (Enemy.type e) EnemyType.BOSS).
    assert (Hc : CollisionSystem.BossDefeated ∈ d.2
                 <-> CollisionSystem.count CollisionSystem.isBossDefeated d.2
                     <> 0%nat).
    { clear. induction (d.2) as [|ev tr IH]; simpl.
      - split; [intros H; inversion H | intros H; contradiction].
      - rewrite elem_of_cons, IH. destruct ev; simpl; split;
          try (intros [H|H]; [discriminate H | exact H]);
          try (intros H; right; exact H);
          try (intros _; discriminate); intros _; left; reflexivity. }
    rewrite Hc, H4.
    destruct (String.eqb (Enemy.type e) EnemyType.BOSS);
      destruct onBossDefeated; simpl; split;
      try (intros [? ?]; discriminate); try (intros H; contradiction);
      try discriminate; auto.
Qed.

Lemma kills_are_scored_by_archetype_witness :
  let w := CollisionSystem.mkWorld 0 0 (Player.constructor 300 600)
             [Bullet.mk 1 (mkSprite 100 100 0)] []
             [Enemy.mk 7 (mkSprite 101 101 0) 100 1 EnemyType.SOLDIER
                Enemy.Base]
             [] 0 in
  let r := CollisionSystem.checkCollisions CollisionSystem.nearby
             (fun _ => 0%Q) true 0 w in
  CollisionSystem.score r.1 = 100 /\ CollisionSystem.kills r.1 = 1
  /\ CollisionSystem.getPointsForEnemy "MEDIC" = 100.
Proof.
  intros w r.
  destruct (kills_are_scored_by_archetype CollisionSystem.nearby
              (fun _ => 0%Q) true 0 w) as (_ & Hother & _ & Hs & Hk & _).
  split; [exact Hs|]. split; [exact Hk|].
  apply Hother. intros Hin. apply list_elem_of_In in Hin. simpl in Hin.
  intuition discriminate.
Defined.

(** *** One bullet, one enemy *)

Section Bullets.
Import CollisionSystem.
Variable overlap : Sprite -> Sprite -> bool.
Variable random : nat -> Q.
Variable onBossDefeated : bool.

(** The trace of one [takeDamage]: the call itself, then nothing that is
    a test or another [takeDamage]. *)
Lemma damageEnemy_trace (by_ : Obj) (particles : Z) (sound : bool)
    (j : nat) (e : Enemy.t) (w : World) :
  exists rest,
    (damageEnemy random onBossDefeated by_ particles sound j e w).2
    = TakeDamage by_ (Enemy.oid e) :: rest
    /\ (forall o, count (isTestOf o) rest = 0%nat)
    /\ (forall o, count (isDamageBy o) rest = 0%nat)
    /\ (forall o y, count (isDamageByOn o y) rest = 0%nat).
Proof.
  unfold damageEnemy.
  destruct (takeDamage_dispatch random (draws w) e) as [[e' dead] d'].
  destruct dead; [|exists []; repeat split].
  destruct sound; destruct (_ && onBossDefeated); eexists;
    (split; [reflexivity|]); repeat split.
Qed.

Lemma aboutBullet_zero (x : nat) (tr : list Event) :
  count (isTestOf (OBullet x)) tr = 0%nat ->
  count (isDamageBy (OBullet x)) tr = 0%nat ->
  count (aboutBullet x) tr = 0%nat.
Proof.
  rewrite !count_zero_Forall, !Forall_forall. intros H1 H2 ev Hin.
  unfold aboutBullet. rewrite (H1 ev Hin), (H2 ev Hin). reflexivity.
Qed.

Lemma aboutBullet_zero_inv (x : nat) (tr : list Event) :
  count (aboutBullet x) tr = 0%nat ->
  count (isTestOf (OBullet x)) tr = 0%nat
  /\ count (isDamageBy (OBullet x)) tr = 0%nat.
Proof.
  rewrite !count_zero_Forall, !Forall_forall. intros H.
  split; intros ev Hin; specialize (H ev Hin); unfold aboutBullet in H;
    apply orb_false_iff in H as [Ha Hb]; assumption.
Qed.

(** Steps made on behalf of anything but the bullet [x] say nothing
    about [x]. *)
Section Silent.
Variable x : nat.

Lemma silent_app (t1 t2 : list Event) :
  count (aboutBullet x) t1 = 0%nat -> count (aboutBullet x) t2 = 0%nat ->
  count (aboutBullet x) (t1 ++ t2) = 0%nat.
Proof. intros H1 H2. rewrite count_app, H1, H2. reflexivity. Qed.

Lemma silent_quiet (ev : Event) :
  quiet ev = true -> (forall a b, ev = Overlap a b -> a <> OBullet x) ->
  count (aboutBullet x) [ev] = 0%nat.
Proof.
  intros Hq HP. destruct ev; try discriminate Hq; try reflexivity.
  simpl. unfold aboutBullet. simpl.
  rewrite bool_decide_eq_false_2; [reflexivity|]. eapply HP. reflexivity.
Qed.

Lemma silent_damage (by_ : Obj) (particles : Z) (sound : bool) (j : nat)
    (e : Enemy.t) (w : World) :
  by_ <> OBullet x ->
  count (aboutBullet x)
    (damageEnemy random onBossDefeated by_ particles sound j e w).2 = 0%nat.
Proof.
  intros HP.
  destruct (damageEnemy_trace by_ particles sound j e w)
    as (rest & -> & Ht & Hd & _).
  change (TakeDamage by_ (Enemy.oid e) :: rest)
    with ([TakeDamage by_ (Enemy.oid e)] ++ rest).
  apply silent_app; [|apply aboutBullet_zero; auto].
  simpl. unfold aboutBullet. simpl.
  rewrite bool_decide_eq_false_2; [reflexivity | exact HP].
Qed.

Lemma bulletScan_silent (b : Bullet.t) (i n : nat) (w : World) :
  Bullet.oid b <> x ->
  count (aboutBullet x)
    (bulletScan overlap random onBossDefeated b i n w).2 = 0%nat.
Proof.
  intros Hb.
  apply bulletScan_R
    with (P := fun o => o <> OBullet x)
         (R := fun _ tr _ => count (aboutBullet x) tr = 0%nat);
    first [ reflexivity
          | intros; apply silent_app; assumption
          | intros; apply silent_quiet; assumption
          | intros; apply silent_damage; assumption
          | congruence ].
Qed.

Lemma grenadeLoop_silent (n : nat) (w : World) :
  count (aboutBullet x) (grenadeLoop random onBossDefeated n w).2 = 0%nat.
Proof.
  apply grenadeLoop_R
    with (P := fun o => o <> OBullet x)
         (R := fun _ tr _ => count (aboutBullet x) tr = 0%nat);
    first [ reflexivity
          | intros; apply silent_app; assumption
          | intros; apply silent_quiet; assumption
          | intros; apply silent_damage; assumption
          | discriminate ].
Qed.

Lemma playerScan_silent (p : Player.t) (es : list Enemy.t) :
  count (aboutBullet x) (playerScan overlap p es).2 = 0%nat.
Proof.
  induction es as [|e es IH]; cbn [playerScan]; [reflexivity|].
  destruct (overlap _ _); [reflexivity|].
  destruct (playerScan overlap p es) as [r tr]. exact IH.
Qed.

Lemma powerUpLoop_silent (now : Q) (n : nat) (w : World) :
  count (aboutBullet x) (powerUpLoop overlap now n w).2 = 0%nat
  /\ bullets (powerUpLoop overlap now n w).1 = bullets w.
Proof.
  induction n as [|i IH]; cbn [powerUpLoop]; [split; reflexivity|].
  destruct (powerUps w !! i) as [u|]; [|split; reflexivity].
  destruct (overlap _ _); [split; reflexivity|].
  destruct (powerUpLoop overlap now i w) as [w' tr]. exact IH.
Qed.

End Silent.

(** The scan of one bullet: at most one [takeDamage], nothing on behalf
    of the bullet after it, and the bullet spliced out exactly when it
    hit. *)
Lemma bulletScan_once (b : Bullet.t) (i n : nat) (w : World) :
  let s := bulletScan overlap random onBossDefeated b i n w in
  let hit := isDamageBy (OBullet (Bullet.oid b)) in
  (count hit s.2 <= 1)%nat
  /\ count (aboutBullet (Bullet.oid b)) (after hit s.2) = 0%nat
  /\ bullets s.1
     = (if decide (count hit s.2 = 0%nat) then bullets w
        else delete i (bullets w))
  /\ ((n <= length (enemies w))%nat ->
      count hit s.2 = 1%nat
      <-> exists j e, (j < n)%nat /\ enemies w !! j = Some e
                      /\ overlap (Bullet.sprite b) (Enemy.sprite e) = true).
Proof.
  intros s hit. subst s hit.
  induction n as [|j IH]; cbn [bulletScan].
  - split; [simpl; lia|]. split; [reflexivity|]. split; [reflexivity|].
    intros _. split; [discriminate | intros (j & e & Hj & _); lia].
  - destruct (enemies w !! j) as [e|] eqn:He.
    2:{ split; [simpl; lia|]. split; [reflexivity|]. split; [reflexivity|].
        intros Hn. apply lookup_ge_None in He. lia. }
    destruct (overlap (Bullet.sprite b) (Enemy.sprite e)) eqn:Ho.
    + destruct (damageEnemy_trace (OBullet (Bullet.oid b)) 16 true j e
                  (spliceBullet i w)) as (rest & Hd & Ht & Hh & _).
      destruct (damageEnemy_enemies random onBossDefeated
                  (OBullet (Bullet.oid b)) 16 true j e
                  (spliceBullet i w) He) as (_ & _ & Hb & _).
      destruct (damageEnemy _ _ _ _ _ _ _ _) as [w' tr].
      cbn [fst snd] in *. subst tr.
      cbn [count after isDamageBy].
      rewrite bool_decide_eq_true_2 by reflexivity.
      rewrite Hh. cbn [Nat.add].
      split; [lia|]. split; [apply aboutBullet_zero; auto|].
      split; [exact Hb|]. intros _. split; [|reflexivity].
      intros _. exists j, e. split; [lia | split; assumption].
    + destruct (bulletScan _ _ _ _ _ _ _) as [w' tr]. cbn [fst snd] in *.
      cbn [count after isDamageBy Nat.add].
      destruct IH as (H1 & H2 & H3 & H4).
      split; [exact H1|]. split; [exact H2|]. split; [exact H3|].
      intros Hn. rewrite H4 by lia. split.
      * intros (j' & e' & Hj & He' & Ho'). exists j', e'.
        split; [lia | split; assumption].
      * intros (j' & e' & Hj & He' & Ho').
        destruct (decide (j' = j)) as [->|Hne]; [congruence|].
        exists j', e'. split; [lia | split; assumption].
Qed.

Lemma take_delete_same {A : Type} (l : list A) (i : nat) :
  take i (delete i l) = take i l.
Proof.
  revert i. induction l as [|a l IH]; intros [|i]; simpl; try reflexivity.
  f_equal. apply IH.
Qed.

Lemma drop_delete_same {A : Type} (l : list A) (i : nat) :
  drop i (delete i l) = drop (S i) l.
Proof.
  revert i. induction l as [|a l IH]; intros i.
  - destruct i; reflexivity.
  - destruct i as [|i]; [reflexivity|]. exact (IH i).
Qed.

Lemma grenadeLoop_bullets (n : nat) (w : World) :
  bullets (grenadeLoop random onBossDefeated n w).1 = bullets w.
Proof.
  apply grenadeLoop_R
    with (P := fun _ => True)
         (R := fun w0 _ w' => bullets w' = bullets w0);
    first [ reflexivity
          | intros; congruence
          | intros ? ? ? ? ? ? _ He;
            apply (damageEnemy_enemies random onBossDefeated _ _ _ _ _ _ He)
          | exact (fun _ => I) ].
Qed.

(** The bullet pass. Bullets not yet reached are not spoken of; every
    bullet causes at most one [takeDamage] and nothing after it; a
    bullet still in the list was not reached or has hit nothing. *)
Lemma bulletLoop_once (n : nat) (w : World) :
  NoDup (Bullet.oid <$> take n (bullets w)) ->
  let l := bulletLoop overlap random onBossDefeated n w in
  (forall x, x ∉ Bullet.oid <$> take n (bullets w) ->
             count (aboutBullet x) l.2 = 0%nat)
  /\ (forall x,
        (count (isDamageBy (OBullet x)) l.2 <= 1)%nat
        /\ count (aboutBullet x) (after (isDamageBy (OBullet x)) l.2)
           = 0%nat)
  /\ (forall b',
        b' ∈ bullets l.1 ->
        b' ∈ drop n (bullets w)
        \/ (b' ∈ take n (bullets w)
            /\ count (isDamageBy (OBullet (Bullet.oid b'))) l.2 = 0%nat)).
Proof.
  revert w. induction n as [|i IH]; intros w Hnd; cbn [bulletLoop].
  - split; [reflexivity|].
    split; [intros x; split; [simpl; lia | reflexivity]|].
    intros b' Hin. left. exact Hin.
  - destruct (bullets w !! i) as [b|] eqn:Hb.
    { rewrite (take_S_r _ _ _ Hb) in Hnd |- *.
      rewrite fmap_app in Hnd. apply NoDup_app in Hnd as (Hnd1 & Hfresh & _).
      pose proof (bulletScan_once b i (length (enemies w)) w)
        as (S1 & S2 & S3 & _).
      pose proof (fun x => bulletScan_silent x b i (length (enemies w)) w)
        as Ssil.
      destruct (bulletScan _ _ _ _ _ _ _) as [w1 t1]. cbn [fst snd] in *.
      assert (Htake : take i (bullets w1) = take i (bullets w)).
      { rewrite S3. destruct (decide _); [reflexivity|].
        apply take_delete_same. }
      specialize (IH w1). rewrite Htake in IH.
      destruct (IH Hnd1) as (I1 & I2 & I3). clear IH.
      destruct (bulletLoop _ _ _ _ _) as [w2 t2]. cbn [fst snd] in *.
      assert (Hb_fresh : Bullet.oid b ∉ Bullet.oid <$> take i (bullets w)).
      { intros Hin. apply (Hfresh _ Hin). apply list_elem_of_fmap_2. left. }
      assert (Hb2 : count (aboutBullet (Bullet.oid b)) t2 = 0%nat)
        by (apply I1; exact Hb_fresh).
      destruct (aboutBullet_zero_inv _ _ Hb2) as [_ Hd2].
      split; [|split].
      - intros x Hx. rewrite fmap_app in Hx.
        apply not_elem_of_app in Hx as [Hx1 Hx2].
        apply silent_app; [|apply I1; exact Hx1].
        apply Ssil. intros Heq. apply Hx2. rewrite <- Heq.
        apply list_elem_of_fmap_2. left.
      - intros x. destruct (decide (x = Bullet.oid b)) as [->|Hne].
        + rewrite count_app, Hd2, after_app. split; [lia|].
          destruct (decide (count (isDamageBy (OBullet (Bullet.oid b))) t1
                            = 0%nat)) as [Hz|Hnz].
          * pose proof (count_after_le
                          (isDamageBy (OBullet (Bullet.oid b)))
                          (aboutBullet (Bullet.oid b)) t2). lia.
          * rewrite count_app, S2, Hb2. reflexivity.
        + assert (Hs : count (aboutBullet x) t1 = 0%nat)
            by (apply Ssil; congruence).
          destruct (aboutBullet_zero_inv _ _ Hs) as [_ Hd1].
          rewrite count_app, Hd1, after_app.
          destruct (decide (count (isDamageBy (OBullet x)) t1 = 0%nat))
            as [_|Hnz]; [|exfalso; exact (Hnz Hd1)].
          destruct (I2 x) as [I2a I2b]. split; [lia | exact I2b].
      - intros b' Hin. destruct (I3 b' Hin) as [Hdrop | [Htk Hc]].
        + rewrite S3 in Hdrop.
          destruct (decide (count (isDamageBy (OBullet (Bullet.oid b))) t1
                            = 0%nat)) as [Hz|Hnz].
          * rewrite (drop_S _ _ _ Hb) in Hdrop.
            apply elem_of_cons in Hdrop as [->|Hdrop];
              [right | left; exact Hdrop].
            split; [apply elem_of_app; right; left|].
            rewrite count_app, Hz, Hd2. reflexivity.
          * rewrite drop_delete_same in Hdrop. left. exact Hdrop.
        + right. split; [apply elem_of_app; left; exact Htk|].
          assert (Hne : Bullet.oid b <> Bullet.oid b').
          { intros Heq. apply Hb_fresh. rewrite Heq.
            apply list_elem_of_fmap_2. exact Htk. }
          destruct (aboutBullet_zero_inv _ _ (Ssil _ Hne)) as [_ Hd1].
          rewrite count_app, Hc, Hd1. reflexivity. }
    split; [reflexivity|].
    split; [intros x; split; [simpl; lia | reflexivity]|].
    intros b' Hin. cbn [fst] in Hin.
    rewrite <- (take_drop (S i) (bullets w)) in Hin.
    apply elem_of_app in Hin as [Hin|Hin]; [right | left; exact Hin].
    split; [exact Hin | reflexivity].
Qed.

(** The whole call, for the bullet of identity [x]. *)
Lemma checkCollisions_once (now : Q) (w : World) (x : nat) :
  NoDup (Bullet.oid <$> bullets w) ->
  let r := checkCollisions overlap random onBossDefeated now w in
  (count (isDamageBy (OBullet x)) r.2 <= 1)%nat
  /\ count (aboutBullet x) (after (isDamageBy (OBullet x)) r.2) = 0%nat
  /\ (forall b', b' ∈ bullets r.1 ->
                 count (isDamageBy (OBullet (Bullet.oid b'))) r.2 = 0%nat).
Proof.
  intros Hnd r. subst r. unfold checkCollisions.
  rewrite <- (firstn_all (bullets w)) in Hnd.
  destruct (bulletLoop_once (length (bullets w)) w Hnd) as (_ & B2 & B3).
  destruct (bulletLoop _ _ _ _ _) as [w1 t1].
  pose proof (fun y => grenadeLoop_silent y (length (grenades w1)) w1) as G1.
  pose proof (grenadeLoop_bullets (length (grenades w1)) w1) as G2.
  destruct (grenadeLoop _ _ _ _) as [w2 t2]. cbn [fst snd] in *.
  assert (A3 : forall (c : bool) y,
             count (aboutBullet y)
               (if c then playerScan overlap (player w2) (enemies w2)
                else (false, [])).2 = 0%nat)
    by (intros [|] y; [apply playerScan_silent | reflexivity]).
  specialize (A3 (negb (Player.getIsInvincible (player w2))
                  && negb (Player.getIsDead (player w2)))).
  destruct (if _ && _ then _ else _) as [dead t3]. cbn [fst snd] in *.
  pose proof (fun y => powerUpLoop_silent y now (length (powerUps w2)) w2)
    as A4.
  assert (Hrest : exists rest w',
             (if dead then (w2, t1 ++ t2 ++ t3)
              else let '(w4, t4) := powerUpLoop overlap now
                                      (length (powerUps w2)) w2 in
                   (w4, t1 ++ t2 ++ t3 ++ t4)) = (w', t1 ++ rest)
             /\ bullets w' = bullets w1
             /\ forall y, count (aboutBullet y) rest = 0%nat).
  { destruct dead.
    - exists (t2 ++ t3), w2. split; [reflexivity|]. split; [exact G2|].
      intros y. apply silent_app; auto.
    - destruct (powerUpLoop _ _ _ _) as [w4 t4]. cbn [fst snd] in *.
      exists (t2 ++ t3 ++ t4), w4. split; [reflexivity|].
      split; [destruct (A4 0%nat) as [_ ->]; exact G2|].
      intros y. apply silent_app; [auto|]. apply silent_app; [auto|].
      apply A4. }
  destruct Hrest as (rest & w' & -> & Hbul & Hsil). cbn [fst snd].
  assert (Hd : forall y, count (isDamageBy (OBullet y)) rest = 0%nat)
    by (intros y; apply (aboutBullet_zero_inv _ _ (Hsil y))).
  split; [|split].
  - rewrite count_app, Hd. destruct (B2 x) as [H _]. lia.
  - rewrite after_app.
    destruct (decide (count (isDamageBy (OBullet x)) t1 = 0%nat))
      as [Hz|Hnz].
    + pose proof (count_after_le (isDamageBy (OBullet x)) (aboutBullet x)
                    rest). rewrite Hsil in H. lia.
    + rewrite count_app, Hsil. destruct (B2 x) as [_ ->]. reflexivity.
  - intros b' Hin. rewrite Hbul in Hin. rewrite count_app, Hd.
    destruct (B3 b' Hin) as [Hdrop | [_ ->]]; [|reflexivity].
    rewrite drop_all in Hdrop. inversion Hdrop.
Qed.

End Bullets.

(** C2. In one call every bullet of the list causes at most one
    [takeDamage]. Once a bullet has caused one, the call tests no other
    enemy against it and damages none on its behalf, and the bullet is
    not in the list returned, whatever the number of enemies that
    overlap it. The scan of a bullet against a list in which some enemy
    overlaps it does cause one [takeDamage] and splices the bullet. *)
Theorem bullet_damages_at_most_one_enemy
    (overlap : Sprite -> Sprite -> bool) (random : nat -> Q)
    (onBossDefeated : bool) (now : Q) (w : CollisionSystem.World)
    (b : Bullet.t) :
  NoDup (Bullet.oid <$> CollisionSystem.bullets w) ->
  b ∈ CollisionSystem.bullets w ->
  let r := CollisionSystem.checkCollisions overlap random onBossDefeated
             now w in
  let hit := CollisionSystem.isDamageBy
               (CollisionSystem.OBullet (Bullet.oid b)) in
  (CollisionSystem.count hit r.2 <= 1)%nat
  /\ (forall pre ev post,
        r.2 = pre ++ ev :: post -> hit ev = true ->
        CollisionSystem.count hit pre = 0%nat
        /\ CollisionSystem.count hit post = 0%nat
        /\ CollisionSystem.count
             (CollisionSystem.isTestOf
                (CollisionSystem.OBullet (Bullet.oid b))) post = 0%nat
        /\ b ∉ CollisionSystem.bullets r.1)
  /\ (forall i n w0,
        (n <= length (CollisionSystem.enemies w0))%nat ->
        (exists j e,
            (j < n)%nat /\ CollisionSystem.enemies w0 !! j = Some e
            /\ overlap (Bullet.sprite b) (Enemy.sprite e) = true) ->
        let s := CollisionSystem.bulletScan overlap random onBossDefeated
                   b i n w0 in
        CollisionSystem.count hit s.2 = 1%nat
        /\ CollisionSystem.bullets s.1
           = delete i (CollisionSystem.bullets w0)).
Proof.
  intros Hnd Hb r hit.
  destruct (checkCollisions_once overlap random onBossDefeated now w
              (Bullet.oid b) Hnd) as (H1 & H2 & H3).
  fold r in H1, H2, H3. fold hit in H1, H2.
  split; [exact H1|]. split.
  - intros pre ev post Htr Hev. rewrite Htr in H1, H2.
    rewrite count_app in H1. cbn [CollisionSystem.count] in H1.
    rewrite Hev in H1.
    assert (Hpre : CollisionSystem.count hit pre = 0%nat) by lia.
    assert (Hpost : CollisionSystem.count hit post = 0%nat) by lia.
    rewrite (after_split _ _ _ _ Hpre Hev) in H2.
    destruct (aboutBullet_zero_inv _ _ H2) as [Htest _].
    split; [exact Hpre|]. split; [exact Hpost|]. split; [exact Htest|].
    intros Hin. specialize (H3 b Hin). fold hit in H3.
    rewrite Htr, count_app in H3. cbn [CollisionSystem.count] in H3.
    rewrite Hev in H3. lia.
  - intros i n w0 Hn Hex s.
    destruct (bulletScan_once overlap random onBossDefeated b i n w0)
      as (_ & _ & S3 & S4).
    fold s in S3, S4. fold hit in S3, S4.
    apply (S4 Hn) in Hex. split; [exact Hex|].
    rewrite S3, Hex. reflexivity.
Qed.

Lemma bullet_damages_at_most_one_enemy_witness :
  let b := Bullet.mk 1 (mkSprite 100 100 0) in
  let w := CollisionSystem.mkWorld 0 0 (Player.constructor 300 600)
             [b; Bullet.mk 2 (mkSprite 400 100 0)] []
             [Tank.constructor 7 101 101; Tank.constructor 8 99 100;
              Tank.constructor 9 100 102]
             [] 0 in
  let r := CollisionSystem.checkCollisions CollisionSystem.nearby
             (fun _ => 0%Q) true 0 w in
  CollisionSystem.count
    (CollisionSystem.isDamageBy (CollisionSystem.OBullet 1)) r.2 = 1%nat
  /\ b ∉ CollisionSystem.bullets r.1.
Proof.
  intros b w r.
  assert (Hnd : NoDup (Bullet.oid <$> CollisionSystem.bullets w))
    by (apply (bool_decide_unpack _); vm_compute; exact I).
  assert (Hb : b ∈ CollisionSystem.bullets w) by left.
  destruct (bullet_damages_at_most_one_enemy CollisionSystem.nearby
              (fun _ => 0%Q) true 0 w b Hnd Hb) as (_ & Hcut & _).
  split; [reflexivity|].
  apply (Hcut
           [CollisionSystem.Overlap (CollisionSystem.OBullet 2)
              (CollisionSystem.OEnemy 9);
            CollisionSystem.Overlap (CollisionSystem.OBullet 2)
              (CollisionSystem.OEnemy 8);
            CollisionSystem.Overlap (CollisionSystem.OBullet 2)
              (CollisionSystem.OEnemy 7);
            CollisionSystem.Overlap (CollisionSystem.OBullet 1)
              (CollisionSystem.OEnemy 9);
            CollisionSystem.BulletDestroy 1]
           (CollisionSystem.TakeDamage (CollisionSystem.OBullet 1) 9)
           [CollisionSystem.Overlap CollisionSystem.OPlayer
              (CollisionSystem.OEnemy 7);
            CollisionSystem.Overlap CollisionSystem.OPlayer
              (CollisionSystem.OEnemy 8);
            CollisionSystem.Overlap CollisionSystem.OPlayer
              (CollisionSystem.OEnemy 9)]);
    reflexivity.
Defined.

(** *** Grenades damage by radius *)

Section Grenades.
Import CollisionSystem.
Variable overlap : Sprite -> Sprite -> bool.
Variable random : nat -> Q.
Variable onBossDefeated : bool.

Lemma withinRadius_key (g : Grenade.t) (e e' : Enemy.t) :
  key e = key e' -> withinRadius g e = withinRadius g e'.
Proof.
  unfold key, withinRadius. intros [= _ -> -> _]. reflexivity.
Qed.

Lemma damageByOn_zero (o : Obj) (y : nat) (tr : list Event) :
  count (isDamageBy o) tr = 0%nat -> count (isDamageByOn o y) tr = 0%nat.
Proof.
  rewrite !count_zero_Forall, !Forall_forall. intros H ev Hin.
  specialize (H ev Hin). destruct ev; try reflexivity.
  simpl in *. rewrite H. reflexivity.
Qed.

(** Steps made on behalf of anything but the grenade [x] cause no
    [takeDamage] by [x]. *)
Lemma damage_other (x : nat) (by_ : Obj) (particles : Z) (sound : bool)
    (j : nat) (e : Enemy.t) (w : World) :
  by_ <> OGrenade x ->
  count (isDamageBy (OGrenade x))
    (damageEnemy random onBossDefeated by_ particles sound j e w).2 = 0%nat.
Proof.
  intros HP.
  destruct (damageEnemy_trace random onBossDefeated by_ particles sound
              j e w) as (rest & -> & _ & Hd & _).
  cbn [count isDamageBy]. rewrite Hd.
  rewrite bool_decide_eq_false_2; [reflexivity | exact HP].
Qed.

Lemma quiet_no_damage (o : Obj) (ev : Event) :
  quiet ev = true -> count (isDamageBy o) [ev] = 0%nat.
Proof. intros Hq. destruct ev; try discriminate Hq; reflexivity. Qed.

Lemma no_damage_app (o : Obj) (t1 t2 : list Event) :
  count (isDamageBy o) t1 = 0%nat -> count (isDamageBy o) t2 = 0%nat ->
  count (isDamageBy o) (t1 ++ t2) = 0%nat.
Proof. intros H1 H2. rewrite count_app, H1, H2. reflexivity. Qed.

Lemma bulletLoop_no_grenade (x n : nat) (w : World) :
  count (isDamageBy (OGrenade x))
    (bulletLoop overlap random onBossDefeated n w).2 = 0%nat.
Proof.
  apply bulletLoop_R
    with (P := fun o => o <> OGrenade x)
         (R := fun _ tr _ => count (isDamageBy (OGrenade x)) tr = 0%nat);
    first [ reflexivity
          | intros; apply no_damage_app; assumption
          | intros; apply quiet_no_damage; assumption
          | intros; apply damage_other; assumption
          | discriminate ].
Qed.

Lemma grenadeScan_other (x : nat) (g : Grenade.t) (n : nat) (w : World) :
  Grenade.oid g <> x ->
  count (isDamageBy (OGrenade x))
    (grenadeScan random onBossDefeated g n w).2 = 0%nat.
Proof.
  intros Hg.
  apply grenadeScan_R
    with (P := fun o => o <> OGrenade x)
         (R := fun _ tr _ => count (isDamageBy (OGrenade x)) tr = 0%nat);
    first [ reflexivity
          | intros; apply no_damage_app; assumption
          | intros; apply damage_other; assumption
          | congruence ].
Qed.

Lemma playerScan_no_damage (o : Obj) (p : Player.t) (es : list Enemy.t) :
  count (isDamageBy o) (playerScan overlap p es).2 = 0%nat.
Proof.
  induction es as [|e es IH]; cbn [playerScan]; [reflexivity|].
  destruct (overlap _ _); [reflexivity|].
  destruct (playerScan overlap p es) as [r tr]. exact IH.
Qed.

Lemma powerUpLoop_no_damage (o : Obj) (now : Q) (n : nat) (w : World) :
  count (isDamageBy o) (powerUpLoop overlap now n w).2 = 0%nat.
Proof.
  induction n as [|i IH]; cbn [powerUpLoop]; [reflexivity|].
  destruct (powerUps w !! i) as [u|]; [|reflexivity].
  destruct (overlap _ _); [reflexivity|].
  destruct (powerUpLoop overlap now i w) as [w' tr]. exact IH.
Qed.

(** The scan of an exploded grenade over the first [n] enemies: one
    [takeDamage] for each of them within the radius, none for any
    other identity. *)
Lemma grenadeScan_exact (g : Grenade.t) (n : nat) (w : World) :
  (n <= length (enemies w))%nat ->
  NoDup (Enemy.oid <$> take n (enemies w)) ->
  let s := grenadeScan random onBossDefeated g n w in
  let hits y := count (isDamageByOn (OGrenade (Grenade.oid g)) y) s.2 in
  (forall e, e ∈ take n (enemies w) -> withinRadius g e = true ->
             hits (Enemy.oid e) = 1%nat)
  /\ (forall y,
        (forall e, e ∈ take n (enemies w) -> Enemy.oid e = y ->
                   withinRadius g e = false) ->
        hits y = 0%nat).
Proof.
  intros Hn Hnd s hits. subst s hits. cbn beta.
  revert w Hn Hnd. induction n as [|j IH]; intros w Hn Hnd;
    cbn [grenadeScan].
  - split; [intros e He; inversion He | reflexivity].
  - destruct (enemies w !! j) as [e|] eqn:He;
      [|apply lookup_ge_None in He; lia].
    rewrite (take_S_r _ _ _ He) in Hnd |- *.
    rewrite fmap_app in Hnd. apply NoDup_app in Hnd as (Hnd1 & Hfresh & _).
    assert (He_fresh : forall e0, e0 ∈ take j (enemies w) ->
                                  Enemy.oid e0 <> Enemy.oid e).
    { intros e0 Hin Heq. apply (Hfresh (Enemy.oid e0)).
      - apply list_elem_of_fmap_2. exact Hin.
      - rewrite Heq. apply list_elem_of_fmap_2. left. }
    destruct (withinRadius g e) eqn:Hw.
    + destruct (damageEnemy_trace random onBossDefeated
                  (OGrenade (Grenade.oid g)) 8 false j e w)
        as (rest & Hd & _ & _ & Hon).
      assert (Htk : take j (enemies (damageEnemy random onBossDefeated
                      (OGrenade (Grenade.oid g)) 8 false j e w).1)
                    = take j (enemies w)).
      { unfold damageEnemy.
        destruct (takeDamage_dispatch random (draws w) e) as [[e' dead] d'].
        destruct dead; cbn [fst enemies].
        - rewrite take_delete_same. apply take_insert_ge. lia.
        - apply take_insert_ge. lia. }
      assert (Hlen : (j <= length (enemies (damageEnemy random onBossDefeated
                        (OGrenade (Grenade.oid g)) 8 false j e w).1))%nat).
      { pose proof (f_equal length Htk) as Hl. rewrite !length_take in Hl.
        lia. }
      destruct (damageEnemy _ _ _ _ _ _ _ _) as [w1 t1].
      cbn [fst snd] in *. subst t1.
      specialize (IH w1 Hlen). rewrite Htk in IH.
      destruct (IH Hnd1) as (Ia & Ib). clear IH.
      destruct (grenadeScan _ _ _ _ _) as [w2 t2]. cbn [fst snd] in *.
      split.
      * intros e0 Hin Hw0. apply elem_of_app in Hin as [Hin|Hin].
        -- cbn [app count isDamageByOn]. rewrite count_app, Hon.
           rewrite (Ia e0 Hin Hw0).
           rewrite (bool_decide_eq_false_2 (Enemy.oid e = Enemy.oid e0));
             [|intros Heq; exact (He_fresh e0 Hin (eq_sym Heq))].
           rewrite andb_false_r. reflexivity.
        -- apply list_elem_of_singleton in Hin as ->.
           cbn [app count isDamageByOn]. rewrite count_app, Hon.
           rewrite !bool_decide_eq_true_2 by reflexivity.
           rewrite Ib; [reflexivity|].
           intros e0 Hin Heq. exfalso. exact (He_fresh e0 Hin Heq).
      * intros y Hy. cbn [app count isDamageByOn]. rewrite count_app, Hon.
        rewrite (bool_decide_eq_false_2 (Enemy.oid e = y)).
        -- rewrite andb_false_r. cbn [Nat.add]. apply Ib.
           intros e0 Hin Heq. apply Hy; [|exact Heq].
           apply elem_of_app. left. exact Hin.
        -- intros Heq. rewrite (Hy e) in Hw; [discriminate Hw | | exact Heq].
           apply elem_of_app. right. left.
    + assert (Hlen : (j <= length (enemies w))%nat) by lia.
      destruct (IH w Hlen Hnd1) as (Ia & Ib). clear IH.
      split.
      * intros e0 Hin Hw0. apply elem_of_app in Hin as [Hin|Hin];
          [exact (Ia e0 Hin Hw0)|].
        apply list_elem_of_singleton in Hin as ->. congruence.
      * intros y Hy. apply Ib. intros e0 Hin Heq. apply Hy; [|exact Heq].
        apply elem_of_app. left. exact Hin.
Qed.

Lemma evolves_NoDup (w : World) (tr : list Event) (w' : World) :
  evolves w tr w' ->
  NoDup (Enemy.oid <$> enemies w) -> NoDup (Enemy.oid <$> enemies w').
Proof.
  intros (Hs & _) Hnd. exact (keys_sublist_NoDup _ _ Hs Hnd).
Qed.

Lemma grenadeScan_evolves (g : Grenade.t) (n : nat) (w : World) :
  evolves w (grenadeScan random onBossDefeated g n w).2
            (grenadeScan random onBossDefeated g n w).1.
Proof.
  apply grenadeScan_R with (P := fun _ => True);
    first [ apply evolves_app
          | intros; apply evolves_damage; assumption
          | intros; apply evolves_same; reflexivity
          | exact I ].
Qed.

Lemma grenadeScan_grenades (g : Grenade.t) (n : nat) (w : World) :
  grenades (grenadeScan random onBossDefeated g n w).1 = grenades w.
Proof.
  apply grenadeScan_R
    with (P := fun _ => True)
         (R := fun w0 _ w' => grenades w' = grenades w0);
    first [ reflexivity
          | intros; congruence
          | intros ? ? ? ? ? ? _ He;
            apply (damageEnemy_enemies random onBossDefeated _ _ _ _ _ _ He)
          | exact I ].
Qed.

(** The scan of [g] starts with a [takeDamage] by [g], if it does
    anything. *)
Lemma grenadeScan_before (g : Grenade.t) (n : nat) (w : World) :
  before (isDamageBy (OGrenade (Grenade.oid g)))
    (grenadeScan random onBossDefeated g n w).2 = [].
Proof.
  revert w. induction n as [|j IH]; intros w; cbn [grenadeScan];
    [reflexivity|].
  destruct (enemies w !! j) as [e|]; [|reflexivity].
  destruct (withinRadius g e); [|apply IH].
  destruct (damageEnemy_trace random onBossDefeated
              (OGrenade (Grenade.oid g)) 8 false j e w)
    as (rest & Hd & _).
  destruct (damageEnemy _ _ _ _ _ _ _ _) as [w1 t1].
  destruct (grenadeScan _ _ _ _ _) as [w2 t2]. cbn [fst snd] in *.
  subst t1. cbn [app before isDamageBy].
  rewrite bool_decide_eq_true_2 by reflexivity. reflexivity.
Qed.

(** The scan of the whole list meets the specification of the blast. *)
Lemma grenadeScan_blast (g : Grenade.t) (w : World) :
  NoDup (Enemy.oid <$> enemies w) ->
  blastSpec g (enemies w)
    (grenadeScan random onBossDefeated g (length (enemies w)) w).2.
Proof.
  intros Hnd y by_g hits. subst by_g hits.
  rewrite grenadeScan_before.
  rewrite <- (take_ge (enemies w) (length (enemies w))) in Hnd by lia.
  destruct (grenadeScan_exact g (length (enemies w)) w (le_n _) Hnd)
    as (Ha & Hb). cbn beta in Ha, Hb.
  rewrite take_ge in Ha, Hb by lia.
  destruct (decide (Exists (fun e => Enemy.oid e = y
                                     /\ withinRadius g e = true)
                           (enemies w))) as [Hex|Hno].
  - apply Exists_exists in Hex as (e & Hin & <- & Hw).
    rewrite (Ha e Hin Hw). split; [lia|]. split; [|intros; tauto].
    intros _. exists e. auto.
  - rewrite Hb.
    + split; [lia|]. split; [discriminate|].
      intros e Hin Hy Hw. exfalso. apply Hno. apply Exists_exists.
      exists e. auto.
    + intros e Hin Hy. destruct (withinRadius g e) eqn:Hw; [|reflexivity].
      exfalso. apply Hno. apply Exists_exists. exists e. auto.
Qed.

(** The specification of the blast seen from an earlier world, past a
    step that caused no [takeDamage] by the grenade. *)
Lemma blastSpec_prefix (g : Grenade.t) (w : World) (t0 : list Event)
    (w1 : World) (tr : list Event) :
  NoDup (Enemy.oid <$> enemies w) ->
  evolves w t0 w1 ->
  count (isDamageBy (OGrenade (Grenade.oid g))) t0 = 0%nat ->
  blastSpec g (enemies w1) tr -> blastSpec g (enemies w) (t0 ++ tr).
Proof.
  intros Hnd (Hs & _ & Hk & Hgone) H0 Hb y by_g hits. subst by_g hits.
  rewrite count_app, (damageByOn_zero _ y _ H0). cbn [Nat.add].
  rewrite before_app.
  destruct (decide (count (isDamageBy (OGrenade (Grenade.oid g))) t0
                    = 0%nat)) as [_|Hnz]; [|contradiction].
  destruct (Hb y) as (B1 & B2 & B3). cbn zeta in B1, B2, B3.
  split; [exact B1|]. split.
  - intros H1. destruct (B2 H1) as (e1 & Hin1 & Ho & Hw).
    assert (Hin : key e1 ∈ key <$> enemies w)
      by (eapply elem_of_sublist; [apply list_elem_of_fmap_2|]; eassumption).
    apply key_elem in Hin as (e & Hin & Hke). exists e.
    split; [exact Hin|]. split.
    + unfold key in Hke. congruence.
    + rewrite (withinRadius_key g e e1 Hke). exact Hw.
  - intros e Hin Ho Hw. rewrite count_app. split.
    + intros H1. destruct (B2 H1) as (e1 & Hin1 & Ho1 & Hw1).
      apply (B3 e1 Hin1 Ho1 Hw1) in H1.
      destruct (decide (count (isDestroyOf y) t0 = 0%nat)) as [Hz|Hnz];
        [lia|].
      exfalso. apply (Hgone Hnd y Hnz). rewrite <- Ho1.
      apply list_elem_of_fmap_2. exact Hin1.
    + intros Hd.
      assert (Hin1 : key e ∈ key <$> enemies w1)
        by (apply Hk; [exact Hin | rewrite Ho; lia]).
      apply key_elem in Hin1 as (e1 & Hin1 & Hke).
      apply (B3 e1 Hin1).
      * unfold key in Hke. congruence.
      * rewrite (withinRadius_key g e1 e Hke). exact Hw.
      * lia.
Qed.

Lemma blastSpec_suffix (g : Grenade.t) (es : list Enemy.t)
    (tr t3 : list Event) :
  count (isDamageBy (OGrenade (Grenade.oid g))) t3 = 0%nat ->
  blastSpec g es tr -> blastSpec g es (tr ++ t3).
Proof.
  intros H0 Hb y by_g hits. subst by_g hits.
  rewrite count_app, (damageByOn_zero _ y _ H0), Nat.add_0_r.
  destruct (Hb y) as (B1 & B2 & B3). cbn zeta in B1, B2, B3.
  split; [exact B1|]. split; [exact B2|].
  intros e Hin Ho Hw. specialize (B3 e Hin Ho Hw).
  rewrite before_app.
  destruct (decide (count (isDamageBy (OGrenade (Grenade.oid g))) tr
                    = 0%nat)) as [Hz|Hnz]; [|exact B3].
  rewrite (before_none _ _ Hz) in B3. rewrite (before_none _ _ H0).
  rewrite count_app, (damageByOn_zero _ y _ Hz) in *.
  split; [discriminate|]. intros Hd. apply B3. lia.
Qed.

(** The grenade pass: grenades not yet reached cause nothing, nor do
    the ones that have not exploded; each exploded one meets the
    specification of the blast. *)
Lemma grenadeLoop_blast (n : nat) (w : World) :
  (n <= length (grenades w))%nat ->
  NoDup (Grenade.oid <$> take n (grenades w)) ->
  NoDup (Enemy.oid <$> enemies w) ->
  let l := grenadeLoop random onBossDefeated n w in
  (forall x, x ∉ Grenade.oid <$> take n (grenades w) ->
             count (isDamageBy (OGrenade x)) l.2 = 0%nat)
  /\ (forall g, g ∈ take n (grenades w) ->
        (Grenade.isExploded g = false ->
         count (isDamageBy (OGrenade (Grenade.oid g))) l.2 = 0%nat)
        /\ (Grenade.isExploded g = true -> blastSpec g (enemies w) l.2)).
Proof.
  revert w. induction n as [|i IH]; intros w Hn Hg He; cbn [grenadeLoop].
  - split; [reflexivity|]. intros g Hin. inversion Hin.
  - destruct (grenades w !! i) as [gi|] eqn:Hgi;
      [|apply lookup_ge_None in Hgi; lia].
    rewrite (take_S_r _ _ _ Hgi) in Hg |- *.
    rewrite fmap_app in Hg. apply NoDup_app in Hg as (Hg1 & Hfresh & _).
    assert (Hgi_fresh : Grenade.oid gi ∉ Grenade.oid <$> take i (grenades w)).
    { intros Hin. apply (Hfresh _ Hin). apply list_elem_of_fmap_2. left. }
    destruct (Grenade.isExploded gi) eqn:Hx.
    + pose proof (grenadeScan_blast gi w He) as Hblast.
      pose proof (grenadeScan_evolves gi (length (enemies w)) w) as Hev.
      pose proof (grenadeScan_grenades gi (length (enemies w)) w) as Hgr.
      pose proof (fun x => grenadeScan_other x gi (length (enemies w)) w)
        as Hoth.
      destruct (grenadeScan _ _ _ _ _) as [w1 t1]. cbn [fst snd] in *.
      pose proof (evolves_NoDup _ _ _ Hev He) as He1.
      specialize (IH w1). rewrite Hgr in IH.
      destruct (IH ltac:(lia) Hg1 He1) as (I0 & I1). clear IH.
      destruct (grenadeLoop _ _ _ _) as [w2 t2]. cbn [fst snd] in *.
      set (blast := [EmitParticleAt (Grenade.getX gi) (Grenade.getY gi)
                       (GameConfig.EXPLOSION_PARTICLE_COUNT * 2);
                     Sound ExplosionSound]).
      change (EmitParticleAt (Grenade.getX gi) (Grenade.getY gi)
                (GameConfig.EXPLOSION_PARTICLE_COUNT * 2)
              :: Sound ExplosionSound :: t1 ++ t2)
        with (blast ++ t1 ++ t2).
      assert (Hbl : evolves w blast w)
        by (apply evolves_same; reflexivity).
      split.
      * intros x Hx'. rewrite fmap_app in Hx'.
        apply not_elem_of_app in Hx' as [Hx1 Hx2].
        rewrite !count_app, (I0 x Hx1), Hoth; [reflexivity|].
        intros Heq. apply Hx2. rewrite <- Heq.
        apply list_elem_of_fmap_2. left.
      * intros g Hin. apply elem_of_app in Hin as [Hin|Hin].
        -- assert (Hne : Grenade.oid gi <> Grenade.oid g).
           { intros Heq. apply Hgi_fresh. rewrite Heq.
             apply list_elem_of_fmap_2. exact Hin. }
           destruct (I1 g Hin) as (I1a & I1b). split.
           ++ intros Hu. rewrite !count_app, (I1a Hu), (Hoth _ Hne).
              reflexivity.
           ++ intros Hu. apply (blastSpec_prefix g w blast w);
                [exact He | exact Hbl | reflexivity|].
              apply (blastSpec_prefix g w t1 w1);
                [exact He | exact Hev | exact (Hoth _ Hne) | exact (I1b Hu)].
        -- apply list_elem_of_singleton in Hin as ->.
           split; [intros Hu; congruence|]. intros _.
           apply (blastSpec_prefix gi w blast w);
             [exact He | exact Hbl | reflexivity|].
           apply blastSpec_suffix; [apply I0; exact Hgi_fresh | exact Hblast].
    + destruct (IH w ltac:(lia) Hg1 He) as (I0 & I1). clear IH.
      split.
      * intros x Hx'. rewrite fmap_app in Hx'.
        apply not_elem_of_app in Hx' as [Hx1 _]. exact (I0 x Hx1).
      * intros g Hin. apply elem_of_app in Hin as [Hin|Hin];
          [exact (I1 g Hin)|].
        apply list_elem_of_singleton in Hin as ->.
        split; [intros _; apply I0; exact Hgi_fresh | intros Hu; congruence].
Qed.

Lemma NoDup_fmap_eq {A B : Type} (f : A -> B) (l : list A) (a b : A) :
  NoDup (f <$> l) -> a ∈ l -> b ∈ l -> f a = f b -> a = b.
Proof.
  induction l as [|c l IH]; intros Hnd Ha Hb Hf; [inversion Ha|].
  rewrite fmap_cons in Hnd. apply NoDup_cons in Hnd as [Hc Hnd].
  apply elem_of_cons in Ha as [->|Ha]; apply elem_of_cons in Hb as [->|Hb].
  - reflexivity.
  - exfalso. apply Hc. rewrite Hf. apply list_elem_of_fmap_2. exact Hb.
  - exfalso. apply Hc. rewrite <- Hf. apply list_elem_of_fmap_2. exact Ha.
  - apply IH; assumption.
Qed.

(** The whole call, for one grenade of the list. *)
Lemma checkCollisions_blast (now : Q) (w : World) (g : Grenade.t) :
  NoDup (Grenade.oid <$> grenades w) ->
  NoDup (Enemy.oid <$> enemies w) ->
  g ∈ grenades w ->
  let r := checkCollisions overlap random onBossDefeated now w in
  (Grenade.isExploded g = false ->
   count (isDamageBy (OGrenade (Grenade.oid g))) r.2 = 0%nat)
  /\ (Grenade.isExploded g = true -> blastSpec g (enemies w) r.2).
Proof.
  intros Hg He Hin r. subst r. unfold checkCollisions.
  pose proof (bulletLoop_evolves overlap random onBossDefeated
                (length (bullets w)) w) as Hev.
  pose proof (bulletLoop_framed overlap random onBossDefeated
                (length (bullets w)) w) as (_ & _ & Hgr & _).
  pose proof (fun x => bulletLoop_no_grenade x (length (bullets w)) w)
    as Hno1.
  destruct (bulletLoop _ _ _ _ _) as [w1 t1]. cbn [fst snd] in *.
  pose proof (evolves_NoDup _ _ _ Hev He) as He1.
  rewrite <- Hgr in Hg, Hin.
  rewrite <- (take_ge (grenades w1) (length (grenades w1))) in Hg, Hin
    by lia.
  destruct (grenadeLoop_blast (length (grenades w1)) w1 (le_n _) Hg He1)
    as (_ & Hbl).
  destruct (Hbl g Hin) as (Hbl0 & Hbl1). clear Hbl.
  destruct (grenadeLoop _ _ _ _) as [w2 t2]. cbn [fst snd] in *.
  assert (A3 : forall c : bool,
             count (isDamageBy (OGrenade (Grenade.oid g)))
               (if c then playerScan overlap (player w2) (enemies w2)
                else (false, [])).2 = 0%nat)
    by (intros [|]; [apply playerScan_no_damage | reflexivity]).
  specialize (A3 (negb (Player.getIsInvincible (player w2))
                  && negb (Player.getIsDead (player w2)))).
  destruct (if _ && _ then _ else _) as [dead t3]. cbn [fst snd] in *.
  pose proof (powerUpLoop_no_damage (OGrenade (Grenade.oid g)) now
                (length (powerUps w2)) w2) as A4.
  assert (Hrest : exists rest w',
             (if dead then (w2, t1 ++ t2 ++ t3)
              else let '(w4, t4) := powerUpLoop overlap now
                                      (length (powerUps w2)) w2 in
                   (w4, t1 ++ t2 ++ t3 ++ t4)) = (w', t1 ++ t2 ++ rest)
             /\ count (isDamageBy (OGrenade (Grenade.oid g))) rest = 0%nat).
  { destruct dead.
    - exists t3, w2. split; [reflexivity | exact A3].
    - destruct (powerUpLoop _ _ _ _) as [w4 t4]. cbn [fst snd] in *.
      exists (t3 ++ t4), w4. split; [reflexivity|].
      apply no_damage_app; assumption. }
  destruct Hrest as (rest & w' & -> & Hrest). cbn [fst snd].
  split.
  - intros Hu. rewrite !count_app, (Hno1 _), (Hbl0 Hu), Hrest. reflexivity.
  - intros Hu.
    apply (blastSpec_prefix g w t1 w1); [exact He | exact Hev | apply Hno1|].
    apply blastSpec_suffix; [exact Hrest | exact (Hbl1 Hu)].
Qed.

End Grenades.

(** C3. In one call a grenade that has not exploded causes no
    [takeDamage]. An exploded grenade causes at most one per enemy; an
    enemy it damages is an enemy of the list passed in that lies within
    the radius (none beyond it); an enemy of that list within the radius
    takes exactly one, unless the call had destroyed it before the
    grenade damaged anything. The scan of an exploded grenade over the
    enemies present causes exactly one [takeDamage] for each of them
    within the radius, however many they are, and none for anything
    else. Within the radius is the test of the code, on the distance
    that [Phaser.Math.Distance.Between] computes in doubles. For a
    radius between [2 ^ -500] and [2 ^ 500] it follows the Euclidean
    distance up to the rounding: with [dx] and [dy] the differences of
    the coordinates, an enemy with
    [dx * dx + dy * dy <= radius * radius * (1 - 2 ^ -50)] is within,
    and an enemy within has
    [dx * dx + dy * dy <= radius * radius * (1 + 2 ^ -50)]. *)
Theorem grenade_damages_by_radius
    (overlap : Sprite -> Sprite -> bool) (random : nat -> Q)
    (onBossDefeated : bool) (now : Q) (w : CollisionSystem.World)
    (g : Grenade.t) :
  NoDup (Grenade.oid <$> CollisionSystem.grenades w) ->
  NoDup (Enemy.oid <$> CollisionSystem.enemies w) ->
  g ∈ CollisionSystem.grenades w ->
  let r := CollisionSystem.checkCollisions overlap random onBossDefeated
             now w in
  let hits y tr :=
    CollisionSystem.count
      (CollisionSystem.isDamageByOn
         (CollisionSystem.OGrenade (Grenade.oid g)) y) tr in
  (Grenade.isExploded g = false ->
   CollisionSystem.count
     (CollisionSystem.isDamageBy (CollisionSystem.OGrenade (Grenade.oid g)))
     r.2 = 0%nat)
  /\ (Grenade.isExploded g = true ->
      forall y : nat,
        (hits y r.2 <= 1)%nat
        /\ (hits y r.2 = 1%nat ->
            exists e, e ∈ CollisionSystem.enemies w /\ Enemy.oid e = y
                      /\ CollisionSystem.withinRadius g e = true)
        /\ (forall e,
              e ∈ CollisionSystem.enemies w -> Enemy.oid e = y ->
              CollisionSystem.withinRadius g e = true ->
              hits y r.2 = 1%nat
              <-> CollisionSystem.count (CollisionSystem.isDestroyOf y)
                    (CollisionSystem.before
                       (CollisionSystem.isDamageBy
                          (CollisionSystem.OGrenade (Grenade.oid g))) r.2)
                  = 0%nat))
  /\ (forall w0 : CollisionSystem.World,
        NoDup (Enemy.oid <$> CollisionSystem.enemies w0) ->
        let s := CollisionSystem.grenadeScan random onBossDefeated g
                   (length (CollisionSystem.enemies w0)) w0 in
        (forall e, e ∈ CollisionSystem.enemies w0 ->
                   hits (Enemy.oid e) s.2
                   = if CollisionSystem.withinRadius g e then 1%nat
                     else 0%nat)
        /\ (forall y, y ∉ Enemy.oid <$> CollisionSystem.enemies w0 ->
                      hits y s.2 = 0%nat))
  /\ (forall e : Enemy.t,
        let dx := (sx (Grenade.sprite g) - sx (Enemy.sprite e))%Q in
        let dy := (sy (Grenade.sprite g) - sy (Enemy.sprite e))%Q in
        let radius := Grenade.explosionRadius g in
        (CollisionSystem.withinRadius g e = true -> (0 <= radius)%Q)
        /\ ((2 ^ (-500) <= radius)%Q -> (radius <= 2 ^ 500)%Q ->
            (dx * dx + dy * dy <= radius * radius * (1 - 2 ^ (-50)))%Q ->
            CollisionSystem.withinRadius g e = true)
        /\ ((2 ^ (-500) <= radius)%Q ->
            CollisionSystem.withinRadius g e = true ->
            (dx * dx + dy * dy <= radius * radius * (1 + 2 ^ (-50)))%Q)).
Proof.
  intros Hg He Hin r hits.
  destruct (checkCollisions_blast overlap random onBossDefeated now w g
              Hg He Hin) as (H0 & H1).
  split; [exact H0|]. split; [exact H1|]. split.
  - intros w0 Hnd s. subst s hits. cbn beta.
    pose proof Hnd as Hnd'.
    rewrite <- (take_ge (CollisionSystem.enemies w0)
                  (length (CollisionSystem.enemies w0))) in Hnd' by lia.
    destruct (grenadeScan_exact random onBossDefeated g
                (length (CollisionSystem.enemies w0)) w0 (le_n _) Hnd')
      as (Ha & Hb). cbn beta in Ha, Hb.
    rewrite take_ge in Ha, Hb by lia.
    split.
    + intros e Hine.
      destruct (CollisionSystem.withinRadius g e) eqn:Hw;
        [exact (Ha e Hine Hw)|].
      apply Hb. intros e0 Hin0 Heq.
      rewrite (NoDup_fmap_eq Enemy.oid _ e0 e Hnd Hin0 Hine Heq). exact Hw.
    + intros y Hy. apply Hb. intros e0 Hin0 Heq. exfalso. apply Hy.
      rewrite <- Heq. apply list_elem_of_fmap_2. exact Hin0.
  - intros e dx dy radius. subst dx dy radius.
    unfold CollisionSystem.withinRadius, Grenade.getX, Grenade.getY,
      Grenade.getExplosionRadius.
    split; [|split].
    + destruct (Distance.Between _ _ _ _) as [d|] eqn:E; [|discriminate].
      intros Hle. apply Qle_bool_iff in Hle.
      apply Qle_trans with (2 := Hle).
      exact (Between_nonneg _ _ _ _ _ E).
    + intros Hlo Hhi Hsq.
      destruct (Between_complete _ _ _ _ _ Hlo Hhi Hsq) as (d & -> & Hd).
      apply Qle_bool_iff. exact Hd.
    + intros Hlo.
      destruct (Distance.Between _ _ _ _) as [d|] eqn:E; [|discriminate].
      intros Hle. apply Qle_bool_iff in Hle.
      exact (Between_sound _ _ _ _ _ _ E Hle Hlo).
Qed.

Lemma grenade_damages_by_radius_witness :
  let g := Grenade.mk 5 (mkSprite 100 100 0) 80 0 true false in
  let w := CollisionSystem.mkWorld 0 0 (Player.constructor 300 600) []
             [Grenade.mk 4 (mkSprite 100 100 0) 80 700 false false; g]
             [Tank.constructor 7 100 100; Tank.constructor 8 148 163;
              Tank.constructor 9 100 100; Tank.constructor 10 100 181]
             [] 0 in
  let r := CollisionSystem.checkCollisions CollisionSystem.nearby
             (fun _ => 0%Q) true 0 w in
  CollisionSystem.withinRadius g (Tank.constructor 8 148 163) = true
  /\ CollisionSystem.withinRadius g (Tank.constructor 10 100 181) = false
  /\ CollisionSystem.count
       (CollisionSystem.isDamageByOn (CollisionSystem.OGrenade 5) 8) r.2
     = 1%nat
  /\ CollisionSystem.count
       (CollisionSystem.isDamageByOn (CollisionSystem.OGrenade 5) 10) r.2
     = 0%nat
  /\ CollisionSystem.count
       (CollisionSystem.isDamageBy (CollisionSystem.OGrenade 4)) r.2
     = 0%nat.
Proof.
  intros g w r.
  assert (Hg : NoDup (Grenade.oid <$> CollisionSystem.grenades w))
    by (apply (bool_decide_unpack _); vm_compute; exact I).
  assert (He : NoDup (Enemy.oid <$> CollisionSystem.enemies w))
    by (apply (bool_decide_unpack _); vm_compute; exact I).
  assert (Hin : g ∈ CollisionSystem.grenades w) by (right; left).
  destruct (grenade_damages_by_radius CollisionSystem.nearby
              (fun _ => 0%Q) true 0 w g Hg He Hin) as (_ & Hx & _ & Hgeo).
  assert (Hnear : CollisionSystem.withinRadius g (Tank.constructor 8 148 163)
                  = true).
  { apply (Hgeo (Tank.constructor 8 148 163)); discriminate. }
  assert (Hfar : CollisionSystem.withinRadius g (Tank.constructor 10 100 181)
                 = false).
  { destruct (CollisionSystem.withinRadius g (Tank.constructor 10 100 181))
      eqn:E; [exfalso|reflexivity].
    destruct (Hgeo (Tank.constructor 10 100 181)) as (_ & _ & Hs).
    assert (Hlo : (2 ^ (-500) <= 80)%Q) by discriminate.
    specialize (Hs Hlo E). revert Hs. clear. vm_compute. intros H.
    apply H. reflexivity. }
  split; [exact Hnear|]. split; [exact Hfar|]. split; [|split].
  - destruct (Hx eq_refl 8%nat) as (_ & _ & Hone).
    apply (Hone (Tank.constructor 8 148 163)).
    + right; left.
    + reflexivity.
    + exact Hnear.
    + reflexivity.
  - destruct (Hx eq_refl 10%nat) as (Hle & Hex & _).
    cbv beta zeta in Hle, Hex.
    change (Grenade.oid g) with 5%nat in Hle, Hex. fold r in Hle, Hex.
    destruct (CollisionSystem.count
                (CollisionSystem.isDamageByOn (CollisionSystem.OGrenade 5)
                   10) r.2) as [|[|n]]; [reflexivity| |lia].
    exfalso. destruct (Hex eq_refl) as (e & Hine & Hoid & Hw).
    unfold w in Hine. cbn [CollisionSystem.enemies] in Hine.
    repeat (apply elem_of_cons in Hine as [->|Hine]);
      try discriminate Hoid; [congruence|].
    apply elem_of_nil in Hine. exact Hine.
  - assert (Hin4 : Grenade.mk 4 (mkSprite 100 100 0) 80 700 false false
                   ∈ CollisionSystem.grenades w) by left.
    destruct (grenade_damages_by_radius CollisionSystem.nearby
                (fun _ => 0%Q) true 0 w _ Hg He Hin4) as (Hz & _).
    apply Hz. reflexivity.
Defined.

(** What the sentence of the specification misses. A bullet and an
    exploded grenade in one call: the Soldier stands on the grenade
    (distance 0, radius 80) and takes no [takeDamage] from it, the
    bullet having destroyed it before the grenades are resolved; the
    Tank is farther than the radius ([dx = -80], [dy = - 2 ^ -20]) and
    takes one, the distance computed in doubles being 80. *)
Lemma grenade_damages_by_radius_counterexample :
  let g := Grenade.mk 5 (mkSprite 100 100 0) 80 0 true false in
  let soldier := Enemy.mk 7 (mkSprite 100 100 0) 100 1 EnemyType.SOLDIER
                   Enemy.Base in
  let tank := Tank.constructor 8 180 (100 + 2 ^ (-20)) in
  let w := CollisionSystem.mkWorld 0 0 (Player.constructor 300 600)
             [Bullet.mk 1 (mkSprite 100 100 0)] [g] [soldier; tank] [] 0 in
  let r := CollisionSystem.checkCollisions CollisionSystem.nearby
             (fun _ => 0%Q) true 0 w in
  let hits y :=
    CollisionSystem.count
      (CollisionSystem.isDamageByOn (CollisionSystem.OGrenade 5) y) r.2 in
  let distanceSq (e : Enemy.t) :=
    ((sx (Grenade.sprite g) - sx (Enemy.sprite e))
     * (sx (Grenade.sprite g) - sx (Enemy.sprite e))
     + (sy (Grenade.sprite g) - sy (Enemy.sprite e))
       * (sy (Grenade.sprite g) - sy (Enemy.sprite e)))%Q in
  Grenade.isExploded g = true
  /\ (distanceSq soldier
      <= Grenade.explosionRadius g * Grenade.explosionRadius g)%Q
  /\ hits 7%nat = 0%nat
  /\ (Grenade.explosionRadius g * Grenade.explosionRadius g
      < distanceSq tank)%Q
  /\ hits 8%nat = 1%nat.
Proof.
  cbv zeta. split; [reflexivity|]. split; [discriminate|].
  split; [vm_compute; reflexivity|]. split; [reflexivity|].
  vm_compute. reflexivity.
Qed.

(** A bullet and two exploded grenades in one call: the Soldier is
    destroyed by the bullet and is gone when the grenades are resolved;
    the Jeep, within the radius of both, takes one [takeDamage] from
    each and is destroyed by the second. *)
Example blast_after_a_bullet :
  let w := CollisionSystem.mkWorld 0 0 (Player.constructor 300 600)
             [Bullet.mk 1 (mkSprite 100 100 0)]
             [Grenade.mk 5 (mkSprite 100 100 0) 80 0 true false;
              Grenade.mk 6 (mkSprite 100 120 0) 80 0 true false]
             [Enemy.mk 7 (mkSprite 100 100 0) 100 1 EnemyType.SOLDIER
                Enemy.Base;
              Enemy.mk 8 (mkSprite 100 130 0) 100 2 EnemyType.JEEP
                Enemy.Base]
             [] 0 in
  let r := CollisionSystem.checkCollisions CollisionSystem.nearby
             (fun _ => 0%Q) true 0 w in
  let hits g y :=
    CollisionSystem.count
      (CollisionSystem.isDamageByOn (CollisionSystem.OGrenade g) y) r.2 in
  hits 5%nat 7%nat = 0%nat /\ hits 5%nat 8%nat = 1%nat
  /\ hits 6%nat 8%nat = 1%nat
  /\ CollisionSystem.destroyed r.2 = [EnemyType.SOLDIER; EnemyType.JEEP]
  /\ CollisionSystem.score r.1 = 300 /\ CollisionSystem.kills r.1 = 2
  /\ CollisionSystem.enemies r.1 = [].
Proof. vm_compute. repeat split. Qed.

(** * Further properties of the simulation core *)

(** ** HighScoreSystem *)

Section HighScoreFacts.
Import HighScoreSystem.

Lemma insert_split (x : HighScoreEntry) (l : list HighScoreEntry) :
  exists l1 l2,
    l = l1 ++ l2 /\ insert x l = l1 ++ x :: l2
    /\ Forall (fun y => score x <= score y) l1
    /\ match l2 with
       | [] => True
       | y :: _ => score y < score x
       end.
Proof.
  induction l as [|y l IH]; simpl.
  - exists [], []. repeat split; auto.
  - destruct (score y <? score x) eqn:E.
    + apply Z.ltb_lt in E. exists [], (y :: l). repeat split; auto.
    + apply Z.ltb_ge in E.
      destruct IH as (l1 & l2 & -> & -> & H1 & H2).
      exists (y :: l1), l2. repeat split; auto.
Qed.

Lemma insert_perm (x : HighScoreEntry) (l : list HighScoreEntry) :
  insert x l ≡ₚ x :: l.
Proof.
  destruct (insert_split x l) as (l1 & l2 & -> & -> & _).
  symmetry. apply Permutation_middle.
Qed.

Lemma sort_snoc (l : list HighScoreEntry) (x : HighScoreEntry) :
  sort (l ++ [x]) = insert x (sort l).
Proof. unfold sort. rewrite fold_left_app. reflexivity. Qed.

Lemma sort_perm (l : list HighScoreEntry) : sort l ≡ₚ l.
Proof.
  induction l as [|x l IH] using rev_ind; [reflexivity|].
  rewrite sort_snoc, insert_perm, IH.
  rewrite Permutation_app_comm. reflexivity.
Qed.

Lemma descending_app (l1 l2 : list HighScoreEntry) :
  descending (l1 ++ l2)
  <-> descending l1 /\ descending l2
      /\ forall e d, e ∈ l1 -> d ∈ l2 -> score d <= score e.
Proof.
  induction l1 as [|x l1 IH]; simpl.
  - split.
    + intros H. repeat split; auto. intros e d He. inversion He.
    + intros (_ & H & _). exact H.
  - rewrite Forall_app, IH. split.
    + intros ((Ha & Hb) & Hc & Hd & He). repeat split; auto.
      intros e d Hin Hd'. apply elem_of_cons in Hin as [->|Hin].
      * rewrite Forall_forall in Hb. apply Hb, Hd'.
      * apply He; assumption.
    + intros ((Ha & Hb) & Hc & Hd). repeat split; auto.
      * apply Forall_forall. intros d Hd'. apply Hd; [left|assumption].
      * intros e d He Hd'. apply Hd; [right; assumption|assumption].
Qed.

Lemma insert_descending (x : HighScoreEntry) (l : list HighScoreEntry) :
  descending l -> descending (insert x l).
Proof.
  intros Hl.
  destruct (insert_split x l) as (l1 & l2 & -> & -> & H1 & H2).
  apply descending_app in Hl as (Ha & Hb & Hc).
  apply descending_app. split; [exact Ha|]. split.
  - simpl. split; [|exact Hb].
    destruct l2 as [|y l2]; [constructor|].
    simpl in Hb. destruct Hb as [Hy _].
    constructor; [lia|].
    eapply Forall_impl; [exact Hy|]. simpl. intros z Hz. lia.
  - intros e d He Hd. apply elem_of_cons in Hd as [->|Hd].
    + rewrite Forall_forall in H1. apply H1, He.
    + apply Hc; assumption.
Qed.

Lemma sort_descending (l : list HighScoreEntry) : descending (sort l).
Proof.
  induction l as [|x l IH] using rev_ind; [exact I|].
  rewrite sort_snoc. apply insert_descending, IH.
Qed.



Lemma descending_head (x : HighScoreEntry) (l : list HighScoreEntry) :
  descending (x :: l) -> forall y, y ∈ x :: l -> score y <= score x.
Proof.
  intros [H _] y Hy. apply elem_of_cons in Hy as [->|Hy]; [lia|].
  rewrite Forall_forall in H. apply H, Hy.
Qed.

Lemma saveScore_item (d : string) (s k m : Z) (st : Storage) :
  writeFails st = false ->
  saveScore d s k m st
  = (mkStorage (Some (take MAX_SCORES
                        (sort (getHighScores st ++ [mkEntry s k m d]))))
               (readFails st) false,
     existsb (sameRun s k m)
       (take MAX_SCORES (sort (getHighScores st ++ [mkEntry s k m d])))).
Proof. intros H. unfold saveScore. rewrite H. reflexivity. Qed.


End HighScoreFacts.

(** X1. [saveScore] on a store that can be written leaves a board of
    at most ten entries, lowest score last, made of the old entries and
    the new one; whatever it drops scores no more than anything it
    keeps. *)
Theorem saveScore_keeps_the_best
    (d : string) (s k m : Z) (st : HighScoreSystem.Storage) :
  HighScoreSystem.writeFails st = false ->
  exists board dropped,
    HighScoreSystem.item (fst (HighScoreSystem.saveScore d s k m st))
    = Some board
    /\ length board
       = Nat.min HighScoreSystem.MAX_SCORES
                 (S (length (HighScoreSystem.getHighScores st)))
    /\ HighScoreSystem.descending board
    /\ board ++ dropped
       ≡ₚ HighScoreSystem.getHighScores st
          ++ [HighScoreSystem.mkEntry s k m d]
    /\ forall e x, e ∈ board -> x ∈ dropped ->
                   HighScoreSystem.score x <= HighScoreSystem.score e.
Proof.
  intros Hw. rewrite (saveScore_item _ _ _ _ _ Hw).
  cbn [fst HighScoreSystem.item].
  set (L := HighScoreSystem.getHighScores st
            ++ [HighScoreSystem.mkEntry s k m d]).
  exists (take HighScoreSystem.MAX_SCORES (HighScoreSystem.sort L)),
         (drop HighScoreSystem.MAX_SCORES (HighScoreSystem.sort L)).
  pose proof (sort_descending L) as Hd.
  rewrite <- (take_drop HighScoreSystem.MAX_SCORES) in Hd.
  apply descending_app in Hd as (Ha & Hb & Hc).
  split; [reflexivity|]. split.
  - rewrite length_take, (Permutation_length (sort_perm L)).
    unfold L. rewrite length_app. unfold HighScoreSystem.MAX_SCORES.
    cbn [length]. lia.
  - split; [exact Ha|]. split; [|exact Hc].
    rewrite take_drop. apply sort_perm.
Qed.

Lemma saveScore_keeps_the_best_witness :
  exists board dropped,
    HighScoreSystem.item
      (fst (HighScoreSystem.saveScore "d" 500 3 40
              (HighScoreSystem.mkStorage
                 (Some [HighScoreSystem.mkEntry 900 9 90 "a";
                        HighScoreSystem.mkEntry 100 1 10 "b"])
                 false false)))
    = Some board
    /\ length board
       = Nat.min HighScoreSystem.MAX_SCORES
           (S (length
                 (HighScoreSystem.getHighScores
                    (HighScoreSystem.mkStorage
                       (Some [HighScoreSystem.mkEntry 900 9 90 "a";
                              HighScoreSystem.mkEntry 100 1 10 "b"])
                       false false))))
    /\ HighScoreSystem.descending board
    /\ board ++ dropped
       ≡ₚ HighScoreSystem.getHighScores
            (HighScoreSystem.mkStorage
               (Some [HighScoreSystem.mkEntry 900 9 90 "a";
                      HighScoreSystem.mkEntry 100 1 10 "b"])
               false false)
          ++ [HighScoreSystem.mkEntry 500 3 40 "d"]
    /\ forall e x, e ∈ board -> x ∈ dropped ->
                   HighScoreSystem.score x <= HighScoreSystem.score e.
Proof.
  apply (saveScore_keeps_the_best "d" 500 3 40
           (HighScoreSystem.mkStorage
              (Some [HighScoreSystem.mkEntry 900 9 90 "a";
                     HighScoreSystem.mkEntry 100 1 10 "b"])
              false false)).
  reflexivity.
Defined.





Section HighScoreRuns.
Import HighScoreSystem.

(** A store that can be read and written. *)
Lemma saveScore_flags (d : string) (s k m : Z) (st : Storage) :
  readFails (fst (saveScore d s k m st)) = readFails st
  /\ writeFails (fst (saveScore d s k m st)) = writeFails st.
Proof.
  unfold saveScore. destruct (writeFails st) eqn:E; simpl; auto.
Qed.

Lemma saveScore_board (d : string) (s k m : Z) (st : Storage) :
  readFails st = false -> writeFails st = false ->
  getHighScores (fst (saveScore d s k m st))
  = take MAX_SCORES (sort (getHighScores st ++ [mkEntry s k m d])).
Proof.
  intros Hr Hw. rewrite (saveScore_item _ _ _ _ _ Hw).
  unfold getHighScores at 1. simpl. rewrite Hr. reflexivity.
Qed.

(** After a save, the first entry of the board is the best of the old
    board and the new run. *)
Lemma saveScore_highest (d : string) (s k m : Z) (st : Storage) :
  readFails st = false -> writeFails st = false ->
  let h := getHighestScore (fst (saveScore d s k m st)) in
  s <= h
  /\ (forall e, e ∈ getHighScores st -> score e <= h)
  /\ (h = s \/ exists e, e ∈ getHighScores st /\ score e = h).
Proof.
  intros Hr Hw h. subst h. unfold getHighestScore.
  rewrite (saveScore_board _ _ _ _ _ Hr Hw).
  set (L := getHighScores st ++ [mkEntry s k m d]).
  pose proof (sort_descending L) as Hd.
  pose proof (sort_perm L) as Hp.
  destruct (sort L) as [|x l] eqn:E.
  - apply Permutation_nil_l in Hp. unfold L in Hp.
    destruct (getHighScores st); discriminate.
  - unfold MAX_SCORES. cbn [take].
    assert (Hmax : forall y, y ∈ L -> score y <= score x).
    { intros y Hy. apply (descending_head x l Hd). rewrite Hp. exact Hy. }
    split; [|split].
    + apply (Hmax (mkEntry s k m d)). apply elem_of_app. right. left.
    + intros e He. apply Hmax, elem_of_app. left. exact He.
    + assert (Hx : x ∈ L) by (rewrite <- Hp; left).
      apply elem_of_app in Hx as [Hx|Hx].
      * right. exists x. split; [exact Hx|reflexivity].
      * left. apply list_elem_of_singleton in Hx. subst x. reflexivity.
Qed.

Lemma saveAll_snoc (runs : list (string * Z * Z * Z))
    (d : string) (s k m : Z) (st : Storage) :
  saveAll (runs ++ [(d, s, k, m)]) st
  = fst (saveScore d s k m (saveAll runs st)).
Proof. unfold saveAll. rewrite fold_left_app. reflexivity. Qed.

Lemma saveAll_flags (runs : list (string * Z * Z * Z)) (st : Storage) :
  readFails (saveAll runs st) = readFails st
  /\ writeFails (saveAll runs st) = writeFails st.
Proof.
  induction runs as [|[[[d s] k] m] runs IH] using rev_ind; [auto|].
  rewrite saveAll_snoc.
  destruct (saveScore_flags d s k m (saveAll runs st)) as [-> ->].
  exact IH.
Qed.

(** The entries of the board come from the runs saved. *)
Lemma saveAll_from_runs (runs : list (string * Z * Z * Z)) (st : Storage) :
  readFails st = false -> writeFails st = false ->
  getHighScores st = [] ->
  forall e, e ∈ getHighScores (saveAll runs st) ->
            (date e, score e, kills e, distance e) ∈ runs.
Proof.
  intros Hr Hw Hempty.
  induction runs as [|[[[d s] k] m] runs IH] using rev_ind.
  - simpl. rewrite Hempty. intros e He. inversion He.
  - intros e He. rewrite saveAll_snoc in He.
    destruct (saveAll_flags runs st) as [Hr' Hw'].
    rewrite saveScore_board in He by congruence.
    apply elem_of_take in He as (i & He & _).
    apply list_elem_of_lookup_2 in He.
    rewrite sort_perm in He.
    apply elem_of_app in He as [He|He].
    + apply elem_of_app. left. apply IH, He.
    + apply list_elem_of_singleton in He. subst e.
      apply elem_of_app. right. left.
Qed.

Lemma saveAll_nonempty (runs : list (string * Z * Z * Z)) (st : Storage) :
  readFails st = false -> writeFails st = false -> runs <> [] ->
  getHighScores (saveAll runs st) <> [].
Proof.
  intros Hr Hw Hne.
  destruct runs as [|[[[d s] k] m] runs _] using rev_ind; [congruence|].
  rewrite saveAll_snoc.
  destruct (saveAll_flags runs st) as [Hr' Hw'].
  rewrite saveScore_board by congruence.
  set (L := getHighScores (saveAll runs st) ++ [mkEntry s k m d]).
  pose proof (sort_perm L) as Hp.
  destruct (sort L) as [|x l] eqn:E; [|discriminate].
  apply Permutation_nil_l in Hp. unfold L in Hp.
  destruct (getHighScores (saveAll runs st)); discriminate.
Qed.

End HighScoreRuns.

(** X4. Starting from an empty board, after any runs were saved one
    after the other, [getHighestScore] is the best score among them:
    no run scored more, and one run scored exactly that. *)
Theorem getHighestScore_is_the_best_run
    (runs : list (string * Z * Z * Z)) (st : HighScoreSystem.Storage) :
  HighScoreSystem.readFails st = false ->
  HighScoreSystem.writeFails st = false ->
  HighScoreSystem.getHighScores st = [] ->
  runs <> [] ->
  let h :=
    HighScoreSystem.getHighestScore (HighScoreSystem.saveAll runs st) in
  (forall d s k m, (d, s, k, m) ∈ runs -> s <= h)
  /\ exists d k m, (d, h, k, m) ∈ runs.
Proof.
  intros Hr Hw Hempty Hne h. subst h.
  induction runs as [|[[[d s] k] m] runs IH] using rev_ind;
    [congruence|clear Hne].
  rewrite saveAll_snoc.
  destruct (saveAll_flags runs st) as [Hr' Hw'].
  rewrite Hr in Hr'. rewrite Hw in Hw'.
  destruct (saveScore_highest d s k m _ Hr' Hw') as (H1 & H2 & H3).
  set (h := HighScoreSystem.getHighestScore
              (fst (HighScoreSystem.saveScore d s k m
                      (HighScoreSystem.saveAll runs st)))) in *.
  split.
  - intros d' s' k' m' Hin. apply elem_of_app in Hin as [Hin|Hin].
    + assert (Hne : runs <> []) by (intros ->; inversion Hin).
      destruct (IH Hne) as [IHa (d0 & k0 & m0 & IHb)].
      etransitivity; [apply (IHa _ _ _ _ Hin)|].
      unfold HighScoreSystem.getHighestScore at 1.
      destruct (HighScoreSystem.getHighScores
                  (HighScoreSystem.saveAll runs st)) as [|x l] eqn:E.
      * exfalso. apply (saveAll_nonempty runs st Hr Hw Hne). exact E.
      * apply H2. left.
    + apply list_elem_of_singleton in Hin.
      injection Hin as -> -> -> ->. exact H1.
  - destruct H3 as [H3|(e & He & Hs)].
    + exists d, k, m. rewrite H3. apply elem_of_app. right. left.
    + exists (HighScoreSystem.date e), (HighScoreSystem.kills e),
             (HighScoreSystem.distance e).
      rewrite <- Hs. apply elem_of_app. left.
      apply (saveAll_from_runs runs st Hr Hw Hempty), He.
Qed.

Lemma getHighestScore_is_the_best_run_witness :
  (forall d s k m,
     (d, s, k, m) ∈ [("a", 300, 2, 10); ("b", 700, 5, 30); ("c", 500, 4, 20)]
     -> s <= 700)
  /\ exists d k m,
       (d, 700, k, m)
       ∈ [("a", 300, 2, 10); ("b", 700, 5, 30); ("c", 500, 4, 20)].
Proof.
  apply (getHighestScore_is_the_best_run
           [("a", 300, 2, 10); ("b", 700, 5, 30); ("c", 500, 4, 20)]
           (HighScoreSystem.mkStorage None false false)).
  - reflexivity.
  - reflexivity.
  - reflexivity.
  - discriminate.
Defined.



(** ** GameScene: the clean-up loops *)

Section CleanUp.
Import GameScene.

Lemma filter_snoc {A : Type} (p : A -> bool) (l : list A) (x : A) :
  List.filter p (l ++ [x])
  = List.filter p l ++ (if p x then [x] else []).
Proof. rewrite List.filter_app. reflexivity. Qed.

Lemma updateBulletsLoop_spec (n : nat) (bs : list Bullet.t) :
  (n <= length bs)%nat ->
  updateBulletsLoop n bs
  = (List.filter (fun b => negb (Bullet.isOffScreen b)) (take n bs)
     ++ drop n bs,
     rev (Bullet.oid <$> List.filter Bullet.isOffScreen (take n bs))).
Proof.
  revert bs. induction n as [|i IH]; intros bs Hn.
  - rewrite take_0, drop_0. reflexivity.
  - destruct (lookup_lt_is_Some_2 bs i) as [b Hb]; [lia|].
    cbn [updateBulletsLoop]. rewrite Hb.
    rewrite (take_S_r _ _ _ Hb), !filter_snoc.
    destruct (Bullet.isOffScreen b) eqn:E; cbn [negb].
    + rewrite IH by (rewrite length_delete by eauto; lia).
      rewrite take_delete_same, drop_delete_same, app_nil_r.
      rewrite fmap_app, rev_app_distr. reflexivity.
    + rewrite IH by lia. rewrite (drop_S _ _ _ Hb), app_nil_r.
      rewrite <- app_assoc. reflexivity.
Qed.

Lemma updatePowerUpsLoop_spec (n : nat) (us : list PowerUp.t) :
  (n <= length us)%nat ->
  updatePowerUpsLoop n us
  = (List.filter
       (fun u => negb (PowerUp.isOffScreen u || PowerUp.isCollected u))
       (take n us)
     ++ drop n us,
     rev (PowerUp.oid
          <$> List.filter
                (fun u => PowerUp.isOffScreen u || PowerUp.isCollected u)
                (take n us))).
Proof.
  revert us. induction n as [|i IH]; intros us Hn.
  - rewrite take_0, drop_0. reflexivity.
  - destruct (lookup_lt_is_Some_2 us i) as [u Hu]; [lia|].
    cbn [updatePowerUpsLoop]. rewrite Hu.
    rewrite (take_S_r _ _ _ Hu), !filter_snoc.
    destruct (PowerUp.isOffScreen u || PowerUp.isCollected u) eqn:E;
      cbn [negb].
    + rewrite IH by (rewrite length_delete by eauto; lia).
      rewrite take_delete_same, drop_delete_same, app_nil_r.
      rewrite fmap_app, rev_app_distr. reflexivity.
    + rewrite IH by lia. rewrite (drop_S _ _ _ Hu), app_nil_r.
      rewrite <- app_assoc. reflexivity.
Qed.

Lemma take_insert_same {A : Type} (l : list A) (i : nat) (x : A) :
  take i (<[i := x]> l) = take i l.
Proof. apply take_insert_ge. lia. Qed.

Lemma updateGrenadeStatesLoop_spec (now : Q) (n : nat)
    (gs : list Grenade.t) :
  (n <= length gs)%nat ->
  fst (updateGrenadeStatesLoop now n gs)
  = List.filter (fun g => negb (Grenade.shouldBeDestroyed g))
                ((fun g => fst (Grenade.update now g)) <$> take n gs)
    ++ drop n gs.
Proof.
  revert gs. induction n as [|i IH]; intros gs Hn.
  - rewrite take_0, drop_0. reflexivity.
  - destruct (lookup_lt_is_Some_2 gs i) as [g Hg]; [lia|].
    cbn [updateGrenadeStatesLoop]. rewrite Hg.
    rewrite (take_S_r _ _ _ Hg), fmap_app, list_fmap_singleton, filter_snoc.
    destruct (Grenade.update now g) as [g' eff] eqn:Eu. cbn [fst].
    destruct (Grenade.shouldBeDestroyed g') eqn:E; cbn [negb].
    + destruct (updateGrenadeStatesLoop now i
                  (delete i (<[i := g']> gs))) as [gs2 tr] eqn:El.
      cbn [fst].
      specialize (IH (delete i (<[i := g']> gs))).
      rewrite El in IH. cbn [fst] in IH. rewrite IH.
      * rewrite delete_insert_same, take_delete_same, drop_delete_same,
          app_nil_r. reflexivity.
      * rewrite delete_insert_same, length_delete by eauto. lia.
    + destruct (updateGrenadeStatesLoop now i (<[i := g']> gs))
        as [gs2 tr] eqn:El.
      cbn [fst].
      specialize (IH (<[i := g']> gs)).
      rewrite El in IH. cbn [fst] in IH. rewrite IH.
      * rewrite take_insert_same, <- app_assoc. f_equal.
        rewrite (drop_S (<[i := g']> gs) g' i).
        -- rewrite drop_insert_lt by lia. reflexivity.
        -- apply list_lookup_insert_eq. eapply lookup_lt_Some, Hg.
      * rewrite length_insert. lia.
Qed.

Lemma updatePowerUps_filter_eq (us : list PowerUp.t) :
  fst (updatePowerUps us)
  = List.filter
      (fun u => negb (PowerUp.isOffScreen u) && negb (PowerUp.collected u))
      us
  /\ Forall (fun u => PowerUp.collected u = false
                      /\ PowerUp.isOffScreen u = false)
            (fst (updatePowerUps us)).
Proof.
  assert (E : fst (updatePowerUps us)
              = List.filter
                  (fun u => negb (PowerUp.isOffScreen u)
                            && negb (PowerUp.collected u)) us).
  { unfold updatePowerUps.
    rewrite updatePowerUpsLoop_spec by lia.
    rewrite firstn_all, drop_all, app_nil_r. cbn [fst].
    apply List.filter_ext. intros u. apply negb_orb. }
  split; [exact E|].
  rewrite E. apply Forall_forall. intros u Hu.
  apply list_elem_of_In, List.filter_In in Hu as [_ Hu].
  apply andb_true_iff in Hu as [Ha Hb].
  apply negb_true_iff in Ha, Hb. auto.
Qed.

Lemma filter_sublist {A : Type} (p : A -> bool) (l : list A) :
  List.filter p l `sublist_of` l.
Proof.
  induction l as [|a l IH]; cbn [List.filter]; [constructor|].
  destruct (p a); [apply sublist_skip | apply sublist_cons]; exact IH.
Qed.

Lemma updatePowerUps_sublist (us : list PowerUp.t) :
  fst (updatePowerUps us) `sublist_of` us.
Proof.
  destruct (updatePowerUps_filter_eq us) as [-> _].
  apply filter_sublist.
Qed.

Lemma updateGrenadeStates_filter_eq (now : Q) (gs : list Grenade.t) :
  fst (updateGrenadeStates now gs)
  = List.filter (fun g => negb (Grenade.shouldDestroy g)
                          && negb (Grenade.isOffScreen g))
                ((fun g => fst (Grenade.update now g)) <$> gs).
Proof.
  unfold updateGrenadeStates.
  rewrite updateGrenadeStatesLoop_spec by lia.
  rewrite firstn_all, drop_all, app_nil_r.
  apply List.filter_ext. intros g. apply negb_orb.
Qed.

End CleanUp.

(** X6. [updateBullets] keeps exactly the bullets that are not above
    the top edge ([y >= -20]), in their order, and destroys the others,
    last one first: the loop, which runs backwards and splices, skips
    no bullet. A bullet flying sideways is never removed by it. *)
Theorem updateBullets_is_a_filter (bs : list Bullet.t) :
  GameScene.updateBullets bs
  = (List.filter (fun b => Qle_bool (-20) (sy (Bullet.sprite b))) bs,
     rev (Bullet.oid
          <$> List.filter (fun b => Qltb (sy (Bullet.sprite b)) (-20)) bs)).
Proof.
  unfold GameScene.updateBullets.
  rewrite updateBulletsLoop_spec by lia.
  rewrite firstn_all, drop_all, app_nil_r. f_equal.
  apply List.filter_ext. intros b. unfold Bullet.isOffScreen, Qltb.
  apply negb_involutive.
Qed.

(** X7. [updatePowerUps] keeps exactly the power-ups that are neither
    collected nor below the bottom edge, in their order; after it no
    power-up of the list is collected. *)
Theorem updatePowerUps_is_a_filter (us : list PowerUp.t) :
  fst (GameScene.updatePowerUps us)
  = List.filter
      (fun u => negb (PowerUp.isOffScreen u) && negb (PowerUp.collected u))
      us
  /\ Forall (fun u => PowerUp.collected u = false
                      /\ PowerUp.isOffScreen u = false)
            (fst (GameScene.updatePowerUps us)).
Proof.
  assert (E : fst (GameScene.updatePowerUps us)
              = List.filter
                  (fun u => negb (PowerUp.isOffScreen u)
                            && negb (PowerUp.collected u)) us).
  { unfold GameScene.updatePowerUps.
    rewrite updatePowerUpsLoop_spec by lia.
    rewrite firstn_all, drop_all, app_nil_r. cbn [fst].
    apply List.filter_ext. intros u. apply negb_orb. }
  split; [exact E|].
  rewrite E. apply Forall_forall. intros u Hu.
  apply list_elem_of_In, List.filter_In in Hu as [_ Hu].
  apply andb_true_iff in Hu as [Ha Hb].
  apply negb_true_iff in Ha, Hb. auto.
Qed.

(** X8. [updateGrenadeStates] updates every grenade and keeps, in
    their order, exactly the updated grenades whose timer has not
    fired and which are on the screen. *)
Theorem updateGrenadeStates_is_a_filter (now : Q) (gs : list Grenade.t) :
  fst (GameScene.updateGrenadeStates now gs)
  = List.filter (fun g => negb (Grenade.shouldDestroy g)
                          && negb (Grenade.isOffScreen g))
                ((fun g => fst (Grenade.update now g)) <$> gs).
Proof.
  unfold GameScene.updateGrenadeStates.
  rewrite updateGrenadeStatesLoop_spec by lia.
  rewrite firstn_all, drop_all, app_nil_r.
  apply List.filter_ext. intros g. apply negb_orb.
Qed.

(** ** Grenade: from the throw to the clean-up *)

Section GrenadeLife.
Import GameConfig Grenade.







End GrenadeLife.



Section Replay.
Import CollisionSystem.
Variable overlap : Sprite -> Sprite -> bool.
Variable random : nat -> Q.
Variable onBossDefeated : bool.

(** The grenade pass plays the explosion of every exploded grenade of
    the list. *)
Lemma grenadeLoop_emits (n : nat) (w : World) (i : nat) (g : Grenade.t) :
  (n <= length (grenades w))%nat -> (i < n)%nat ->
  grenades w !! i = Some g -> Grenade.isExploded g = true ->
  EmitParticleAt (Grenade.getX g) (Grenade.getY g)
                 (GameConfig.EXPLOSION_PARTICLE_COUNT * 2)
  ∈ (grenadeLoop random onBossDefeated n w).2.
Proof.
  revert w. induction n as [|k IH]; intros w Hn Hi Hg He; [lia|].
  cbn [grenadeLoop].
  destruct (lookup_lt_is_Some_2 (grenades w) k) as [g0 Hg0]; [lia|].
  rewrite Hg0.
  destruct (decide (i = k)) as [->|Hne].
  - assert (g0 = g) by congruence. subst g0. rewrite He.
    destruct (grenadeScan _ _ _ _ _) as [w1 t1].
    destruct (grenadeLoop _ _ _ _) as [w2 t2]. cbn [snd]. left.
  - destruct (Grenade.isExploded g0).
    + pose proof (grenadeScan_grenades random onBossDefeated g0
                    (length (enemies w)) w) as Hs.
      destruct (grenadeScan _ _ _ _ _) as [w1 t1]. cbn [fst] in Hs.
      specialize (IH w1).
      destruct (grenadeLoop _ _ _ _) as [w2 t2]. cbn [snd] in *.
      right. right. apply elem_of_app. right.
      apply IH; rewrite ?Hs; try assumption; lia.
    + apply IH; try assumption; lia.
Qed.

Lemma checkCollisions_emits (now : Q) (w : World) (g : Grenade.t) :
  g ∈ grenades w -> Grenade.isExploded g = true ->
  EmitParticleAt (Grenade.getX g) (Grenade.getY g)
                 (GameConfig.EXPLOSION_PARTICLE_COUNT * 2)
  ∈ (checkCollisions overlap random onBossDefeated now w).2.
Proof.
  intros Hin He. unfold checkCollisions.
  pose proof (bulletLoop_framed overlap random onBossDefeated
                (length (bullets w)) w) as (_ & _ & Hg & _).
  destruct (bulletLoop _ _ _ _ _) as [w1 t1]. cbn [fst snd] in Hg.
  rewrite <- Hg in Hin.
  apply list_elem_of_lookup_1 in Hin as [i Hi].
  pose proof (grenadeLoop_emits (length (grenades w1)) w1 i g
                (Nat.le_refl _) (lookup_lt_Some _ _ _ Hi) Hi He) as Hev.
  destruct (grenadeLoop _ _ _ _) as [w2 t2]. cbn [snd] in Hev.
  destruct (if negb (Player.getIsInvincible (player w2))
               && negb (Player.getIsDead (player w2))
            then playerScan overlap (player w2) (enemies w2)
            else (false, [])) as [dead t3].
  destruct dead.
  - cbn [snd]. apply elem_of_app. right. apply elem_of_app. left.
    exact Hev.
  - destruct (powerUpLoop _ _ _ _) as [w4 t4]. cbn [snd].
    apply elem_of_app. right. apply elem_of_app. left. exact Hev.
Qed.

End Replay.

(** X10. A grenade that has exploded, whose timer has not fired and
    which is on the screen comes out of [updateGrenadeStates] as it
    went in, and the [checkCollisions] that follows plays its explosion
    again: the blast is resolved in every frame until the timer fires. *)
Theorem exploded_grenade_blasts_every_frame
    (overlap : Sprite -> Sprite -> bool) (random : nat -> Q)
    (onBossDefeated : bool) (now now' : Q)
    (gs : list Grenade.t) (g : Grenade.t) (w : CollisionSystem.World) :
  g ∈ gs ->
  Grenade.hasExploded g = true ->
  Grenade.shouldDestroy g = false ->
  Grenade.isOffScreen g = false ->
  CollisionSystem.grenades w = fst (GameScene.updateGrenadeStates now gs) ->
  g ∈ CollisionSystem.grenades w
  /\ CollisionSystem.EmitParticleAt (Grenade.getX g) (Grenade.getY g) 32
     ∈ (CollisionSystem.checkCollisions overlap random onBossDefeated
          now' w).2
  /\ Grenade.hasExploded (fst (Grenade.update now' g)) = true.
Proof.
  intros Hin He Hsd Hoff Hw.
  assert (Hu : forall t, fst (Grenade.update t g) = g).
  { intros t. destruct g as [o s r t0 he sd]. cbn in He, Hsd. subst.
    reflexivity. }
  assert (Hg : g ∈ CollisionSystem.grenades w).
  { rewrite Hw, updateGrenadeStates_filter_eq.
    apply list_elem_of_In, List.filter_In. split.
    - apply list_elem_of_In, list_elem_of_fmap. exists g.
      split; [symmetry; apply Hu | exact Hin].
    - rewrite Hsd, Hoff. reflexivity. }
  split; [exact Hg|]. split.
  - apply (checkCollisions_emits overlap random onBossDefeated now' w g Hg).
    exact He.
  - rewrite Hu. exact He.
Qed.

Lemma exploded_grenade_blasts_every_frame_witness :
  CollisionSystem.EmitParticleAt 100 200 32
  ∈ (CollisionSystem.checkCollisions CollisionSystem.nearby (fun _ => 0%Q)
       false 1016
       (CollisionSystem.mkWorld 0 0 (Player.constructor 384 572) []
          [Grenade.mk 1 (mkSprite 100 200 0) 80 0 true false]
          [Tank.constructor 2 120 200] [] 0)).2.
Proof.
  apply (exploded_grenade_blasts_every_frame CollisionSystem.nearby
           (fun _ => 0%Q) false 1000 1016
           [Grenade.mk 1 (mkSprite 100 200 0) 80 0 true false]
           (Grenade.mk 1 (mkSprite 100 200 0) 80 0 true false)
           (CollisionSystem.mkWorld 0 0 (Player.constructor 384 572) []
              [Grenade.mk 1 (mkSprite 100 200 0) 80 0 true false]
              [Tank.constructor 2 120 200] [] 0)).
  - left.
  - reflexivity.
  - reflexivity.
  - reflexivity.
  - reflexivity.
Defined.

(** ** Player: timers, shield and respawn *)

Section PlayerTimers.
Import Player.







End PlayerTimers.

Section Spared.
Import CollisionSystem.
Variable overlap : Sprite -> Sprite -> bool.
Variable random : nat -> Q.
Variable onBossDefeated : bool.


End Spared.





(** ** GameScene: lives *)

Section Lives.
Import GameScene.

Lemma runs_snoc (xs : list step) (x : step) (r : Running) :
  runs (xs ++ [x]) r = run1 (runs xs r) x.
Proof. unfold runs. rewrite fold_left_app. reflexivity. Qed.

Lemma onGameOver_resume_lives (now : Q) (s : t) :
  lives (onGameOver_resume now s) = lives s - 1
  /\ isGameOverOrVictory (onGameOver_resume now s)
     = isGameOverOrVictory s || (lives s <=? 1).
Proof.
  unfold onGameOver_resume. cbn [lives].
  destruct (0 <? lives s - 1) eqn:E.
  - apply Z.ltb_lt in E.
    assert (E1 : (lives s <=? 1) = false) by (apply Z.leb_gt; lia).
    rewrite E1.
    cbn [respawnPlayer lives isGameOverOrVictory].
    rewrite orb_false_r. split; reflexivity.
  - apply Z.ltb_ge in E.
    assert (E1 : (lives s <=? 1) = true) by (apply Z.leb_le; lia).
    rewrite E1.
    unfold triggerGameOver. cbn [isGameOverOrVictory].
    destruct (isGameOverOrVictory s) eqn:Eg; cbn; rewrite ?Eg;
      split; reflexivity.
Qed.

Lemma onGameOver_begin_keeps (s s1 : t) :
  onGameOver_begin s = Some s1 ->
  lives s1 = lives s /\ isGameOverOrVictory s1 = isGameOverOrVictory s
  /\ Player.isDead (player s1) = true
  /\ bullets s1 = bullets s /\ grenades s1 = grenades s
  /\ enemies s1 = enemies s /\ powerUps s1 = powerUps s.
Proof.
  unfold onGameOver_begin. destruct (isGameOverOrVictory s); [discriminate|].
  intros [= <-]. cbn. repeat split; reflexivity.
Qed.

(** What holds of a scene all along its run. *)
Lemma runs_inv (xs : list step) (s : t) :
  Forall keepsLives xs ->
  let r := runs xs (mkRunning s 0 0) in
  lives (scene r) = lives s - Z.of_nat (ended r)
  /\ ((0 < ended r)%nat -> lives (scene r) <= 0 ->
      isGameOverOrVictory (scene r) = true)
  /\ (isGameOverOrVictory s = false -> Forall keepsFlag xs ->
      isGameOverOrVictory (scene r) = true ->
      lives (scene r) <= 0 /\ (0 < ended r)%nat)
  /\ (ended r + waiting r <= length (List.filter isCall xs))%nat.
Proof.
  cbv zeta. induction xs as [|x xs IH] using rev_ind; intros Hall.
  - cbn. split; [lia|]. split; [lia|]. split; [|lia].
    intros Hg _ H. congruence.
  - apply Forall_app in Hall as [Hxs Hx].
    apply Forall_inv in Hx.
    destruct (IH Hxs) as (Il & Ig & If & Ic). clear IH.
    rewrite runs_snoc, List.filter_app, length_app.
    destruct (runs xs (mkRunning s 0 0)) as [sc wt en].
    cbn [scene waiting ended] in *.
    assert (Hflag : isGameOverOrVictory s = false ->
                    Forall keepsFlag (xs ++ [x]) ->
                    keepsFlag x
                    /\ (isGameOverOrVictory sc = true ->
                        lives sc <= 0 /\ (0 < en)%nat)).
    { intros Hg Hf. apply Forall_app in Hf as [Hf Hfx].
      apply Forall_inv in Hfx.
      split; [exact Hfx | exact (If Hg Hf)]. }
    destruct x as [|now|f]; cbn [run1 scene waiting ended isCall
                                 List.filter length].
    + destruct (onGameOver_begin sc) as [s1|] eqn:Eb;
        cbn [scene waiting ended].
      * destruct (onGameOver_begin_keeps sc s1 Eb) as (Hl & Hg & _).
        rewrite Hl, Hg. split; [exact Il|]. split; [exact Ig|].
        split; [|lia].
        intros Hs Hf. apply (Hflag Hs Hf).
      * split; [exact Il|]. split; [exact Ig|]. split; [|lia].
        intros Hs Hf. apply (Hflag Hs Hf).
    + destruct wt as [|k]; cbn [scene waiting ended].
      * split; [exact Il|]. split; [exact Ig|]. split; [|lia].
        intros Hs Hf. apply (Hflag Hs Hf).
      * destruct (onGameOver_resume_lives now sc) as [-> ->].
        split; [lia|]. split; [|split; [|lia]].
        -- intros _ Hle.
           assert (E : (lives sc <=? 1) = true) by (apply Z.leb_le; lia).
           rewrite E. apply orb_true_r.
        -- intros Hs Hf Hov. destruct (Hflag Hs Hf) as [_ Hsc].
           split; [|lia].
           apply orb_true_iff in Hov as [Hov|Hov].
           ++ destruct (Hsc Hov). lia.
           ++ apply Z.leb_le in Hov. lia.
    + cbn [keepsLives] in Hx. destruct (Hx sc) as [Hl Hg].
      rewrite Hl. split; [exact Il|]. split.
      * intros He Hle. apply Hg, Ig; assumption.
      * split; [|lia]. intros Hs Hf Hov.
        destruct (Hflag Hs Hf) as [Hk Hsc]. cbn [keepsFlag] in Hk.
        rewrite Hk in Hov. apply Hsc, Hov.
Qed.

End Lives.

(** X13. Lives and the end of the game, under any interleaving of
    calls of [onGameOver], ends of death animations and frames (which
    write neither [lives] nor clear the flag). Every call that runs to
    its end costs one life, whatever happened while it waited; once as
    many calls have ended as the scene had lives, the scene is over;
    no more calls end than were made. The converse needs more: when no
    frame touches the flag (no victory is declared meanwhile), a scene
    that was not over is over only when its lives have run out. *)
Theorem game_over_when_lives_run_out
    (xs : list GameScene.step) (s : GameScene.t) :
  Forall GameScene.keepsLives xs ->
  0 < GameScene.lives s ->
  let r := GameScene.runs xs (GameScene.mkRunning s 0 0) in
  GameScene.lives (GameScene.scene r)
  = GameScene.lives s - Z.of_nat (GameScene.ended r)
  /\ (GameScene.lives s <= Z.of_nat (GameScene.ended r) ->
      GameScene.isGameOverOrVictory (GameScene.scene r) = true)
  /\ (GameScene.isGameOverOrVictory s = false ->
      Forall GameScene.keepsFlag xs ->
      GameScene.isGameOverOrVictory (GameScene.scene r) = true ->
      GameScene.lives s <= Z.of_nat (GameScene.ended r))
  /\ (GameScene.ended r + GameScene.waiting r
      <= length (List.filter GameScene.isCall xs))%nat.
Proof.
  intros Hall Hpos r. subst r.
  destruct (runs_inv xs s Hall) as (Hl & Hg & Hf & Hc).
  cbv zeta in *.
  split; [exact Hl|]. split; [|split; [|exact Hc]].
  - intros Hle. apply Hg; lia.
  - intros Hs Hk Hov. destruct (Hf Hs Hk Hov). lia.
Qed.

Lemma game_over_when_lives_run_out_witness :
  GameScene.isGameOverOrVictory
    (GameScene.scene
       (GameScene.runs
          [GameScene.OnGameOver; GameScene.AnimationEnds 1000;
           GameScene.OnGameOver;
           GameScene.Frames GameScene.onBossDefeated;
           GameScene.AnimationEnds 9000;
           GameScene.OnGameOver; GameScene.AnimationEnds 20000]
          (GameScene.mkRunning
             (GameScene.mk (Player.constructor 384 572) [] [] [] [] 0
                GameConfig.PLAYER_INITIAL_LIVES false false false)
             0 0))) = true.
Proof.
  apply (game_over_when_lives_run_out
           [GameScene.OnGameOver; GameScene.AnimationEnds 1000;
            GameScene.OnGameOver;
            GameScene.Frames GameScene.onBossDefeated;
            GameScene.AnimationEnds 9000;
            GameScene.OnGameOver; GameScene.AnimationEnds 20000]
           (GameScene.mk (Player.constructor 384 572) [] [] [] [] 0
              GameConfig.PLAYER_INITIAL_LIVES false false false)).
  - repeat (apply List.Forall_cons;
            [first [exact I
                   | intros s0; split; [reflexivity | intros H; exact H]]|]).
    apply List.Forall_nil.
  - reflexivity.
  - vm_compute. discriminate.
Defined.



(** ** LevelSystem: the objectives on display, and the level read *)

Section LevelRuns.
Import LevelSystem.

(** An objective counts for the victory when its flag is set by
    [updateObjectives], or when it is of the kind no code looks at. *)
Lemma checkObjectives_flags (kills : Z) (distance : Q) (boss : bool)
    (os : list LevelObjective) :
  checkObjectives kills distance boss os
  = forallb (fun o => completed o
                      || match type o with TSurvive => true | _ => false end)
            (map (updateObjective kills distance boss) os).
Proof.
  induction os as [|o os IH]; [reflexivity|].
  cbn [checkObjectives map forallb]. rewrite <- IH.
  unfold updateObjective, Qltb.
  destruct (type o) eqn:E; cbn [completed type]; rewrite ?E.
  - destruct (Qle_bool (target o) (inject_Z kills)); reflexivity.
  - destruct (Qle_bool (target o) distance); reflexivity.
  - rewrite orb_true_r. reflexivity.
  - destruct boss; reflexivity.
Qed.

Lemma checkObjectives_updated (kills : Z) (distance : Q) (boss : bool)
    (k' : Z) (d' : Q) (b' : bool) (os : list LevelObjective) :
  checkObjectives kills distance boss (map (updateObjective k' d' b') os)
  = checkObjectives kills distance boss os.
Proof.
  induction os as [|o os IH]; [reflexivity|].
  cbn [checkObjectives map]. rewrite IH.
  unfold updateObjective.
  destruct (type o) eqn:E; cbn [type target]; rewrite ?E; reflexivity.
Qed.

Lemma updateObjectives_current (kills : Z) (distance : Q) (boss : bool)
    (s : t) (level : LevelData) :
  getCurrentLevelData s = Some level ->
  exists s',
    updateObjectives kills distance boss s
    = Some (s', map (updateObjective kills distance boss) (objectives level))
    /\ current s' = current s
    /\ (forall n, number <$> levels s' !! n = number <$> levels s !! n)
    /\ exists level',
         getCurrentLevelData s' = Some level'
         /\ number level' = number level
         /\ objectives level'
            = map (updateObjective kills distance boss) (objectives level).
Proof.
  intros Hl. unfold updateObjectives. rewrite Hl.
  eexists. split; [reflexivity|]. cbn [current levels].
  split; [reflexivity|].
  unfold getCurrentLevelData, currentKey in *. cbn [current levels].
  destruct (levels s !! current s) as [l|] eqn:E.
  - injection Hl as ->.
    rewrite bool_decide_eq_true_2 by eauto. split.
    + intros n. destruct (decide (n = current s)) as [->|Hn].
      * rewrite lookup_insert_eq, E. reflexivity.
      * rewrite lookup_insert_ne by congruence. reflexivity.
    + rewrite lookup_insert_eq. eexists. split; [reflexivity|].
      split; reflexivity.
  - rewrite bool_decide_eq_false_2 by (intros [? ?]; discriminate).
    assert (Hne : current s <> 1) by (intros Heq; congruence).
    split.
    + intros n. destruct (decide (n = 1)) as [->|Hn].
      * rewrite lookup_insert_eq, Hl. reflexivity.
      * rewrite lookup_insert_ne by congruence. reflexivity.
    + rewrite lookup_insert_ne by congruence. rewrite E.
      rewrite lookup_insert_eq. eexists. split; [reflexivity|].
      split; reflexivity.
Qed.

(** The levels of a system built by the constructor keep their keys
    and their numbers, whatever is called on it. *)
Lemma step_numbers (x : t * Storage) (c : call) :
  (forall n, number <$> levels (step x c).1 !! n
             = number <$> levels x.1 !! n)
  /\ (is_Some (levels x.1 !! current x.1) ->
      is_Some (levels x.1 !! 1) ->
      is_Some (levels x.1 !! current (step x c).1)).
Proof.
  destruct x as [s st]. cbn [fst]. destruct c; cbn [step fst].
  - unfold completeLevel.
    destruct (hasNextLevel s) eqn:E; cbn [fst levels current].
    + split; [reflexivity|]. intros _ _.
      apply bool_decide_eq_true in E. exact E.
    + split; [reflexivity|]. auto.
  - unfold setLevel.
    destruct (bool_decide (is_Some (levels s !! levelNumber))) eqn:E;
      cbn [levels current].
    + split; [reflexivity|]. intros _ _.
      apply bool_decide_eq_true in E. exact E.
    + split; [reflexivity|]. auto.
  - cbn [resetProgress fst levels current]. split; [reflexivity|]. auto.
  - destruct (getCurrentLevelData s) as [level|] eqn:El.
    + destruct (updateObjectives_current kills distance bossDefeated
                  s level El) as (s' & -> & Hc & Hn & _).
      cbn [fst]. split; [exact Hn|]. intros H _. rewrite Hc. exact H.
    + unfold updateObjectives. rewrite El. cbn [fst].
      split; [reflexivity|]. auto.
Qed.

Lemma run_snoc (cs : list call) (c : call) (x : t * Storage) :
  run (cs ++ [c]) x = step (run cs x) c.
Proof. unfold run. rewrite fold_left_app. reflexivity. Qed.

Lemma run_numbers (cs : list call) (x : t * Storage) :
  (forall n, number <$> levels (run cs x).1 !! n
             = number <$> levels x.1 !! n)
  /\ (is_Some (levels x.1 !! current x.1) ->
      is_Some (levels x.1 !! 1) ->
      is_Some (levels (run cs x).1 !! current (run cs x).1)).
Proof.
  induction cs as [|c cs IH] using rev_ind.
  - split; [reflexivity|]. auto.
  - rewrite run_snoc. destruct IH as [IHa IHb].
    destruct (step_numbers (run cs x) c) as [Ha Hb].
    split.
    + intros n. rewrite Ha. apply IHa.
    + intros Hc H1.
      assert (Some_fmap :
                forall (m m' : gmap Z LevelData) k k',
                  number <$> m !! k = number <$> m' !! k' ->
                  is_Some (m' !! k') -> is_Some (m !! k)).
      { intros m m' k k' Heq [l Hl]. rewrite Hl in Heq.
        destruct (m !! k); [eauto | discriminate]. }
      eapply Some_fmap; [apply Ha|].
      apply Hb; [apply IHb; assumption|].
      eapply Some_fmap; [apply IHa | exact H1].
Qed.

Lemma initializeLevels_number (n : Z) :
  number <$> initializeLevels !! n
  = (if bool_decide (1 <= n <= 3) then Some n else None).
Proof.
  unfold initializeLevels.
  destruct (decide (n = 3)) as [->|H3];
    [rewrite lookup_insert_eq; reflexivity|].
  rewrite lookup_insert_ne by congruence.
  destruct (decide (n = 2)) as [->|H2];
    [rewrite lookup_insert_eq; reflexivity|].
  rewrite lookup_insert_ne by congruence.
  destruct (decide (n = 1)) as [->|H1];
    [rewrite lookup_insert_eq; reflexivity|].
  rewrite lookup_insert_ne by congruence.
  rewrite lookup_empty.
  rewrite bool_decide_eq_false_2 by lia. reflexivity.
Qed.

End LevelRuns.

(** X15. The flags on display agree with the victory test.
    [updateObjectives] writes the flags of the current level in place
    and returns them; on the same inputs [areObjectivesComplete]
    answers [true] exactly when every objective returned is flagged,
    an objective of type survive apart, which neither function looks
    at. The flags do not feed back: the answer is the same before and
    after the update. *)
Theorem displayed_objectives_agree_with_victory
    (kills : Z) (distance : Q) (bossDefeated : bool)
    (s : LevelSystem.t) (level : LevelSystem.LevelData) :
  LevelSystem.getCurrentLevelData s = Some level ->
  exists s' os,
    LevelSystem.updateObjectives kills distance bossDefeated s
    = Some (s', os)
    /\ LevelSystem.getObjectives s' = Some os
    /\ LevelSystem.getCurrentLevel s' = LevelSystem.getCurrentLevel s
    /\ LevelSystem.areObjectivesComplete kills distance bossDefeated s
       = Some (forallb
                 (fun o => LevelSystem.completed o
                           || match LevelSystem.type o with
                              | LevelSystem.TSurvive => true
                              | _ => false
                              end) os)
    /\ forall k' d' b',
         LevelSystem.areObjectivesComplete k' d' b' s'
         = LevelSystem.areObjectivesComplete k' d' b' s.
Proof.
  intros Hl.
  destruct (updateObjectives_current kills distance bossDefeated s level Hl)
    as (s' & Hu & Hc & _ & level' & Hl' & _ & Ho).
  exists s', (map (LevelSystem.updateObjective kills distance bossDefeated)
                  (LevelSystem.objectives level)).
  split; [exact Hu|]. split.
  - unfold LevelSystem.getObjectives. rewrite Hl'. cbn. rewrite Ho.
    reflexivity.
  - split; [exact Hc|]. split.
    + unfold LevelSystem.areObjectivesComplete. rewrite Hl.
      rewrite checkObjectives_flags. reflexivity.
    + intros k' d' b'. unfold LevelSystem.areObjectivesComplete.
      rewrite Hl, Hl', Ho, checkObjectives_updated. reflexivity.
Qed.

Lemma displayed_objectives_agree_with_victory_witness :
  exists s' os,
    LevelSystem.updateObjectives 15 120 false
      (LevelSystem.constructor (LevelSystem.mkStorage None false false))
    = Some (s', os)
    /\ LevelSystem.getObjectives s' = Some os
    /\ LevelSystem.getCurrentLevel s' = 1
    /\ LevelSystem.areObjectivesComplete 15 120 false
         (LevelSystem.constructor (LevelSystem.mkStorage None false false))
       = Some (forallb
                 (fun o => LevelSystem.completed o
                           || match LevelSystem.type o with
                              | LevelSystem.TSurvive => true
                              | _ => false
                              end) os)
    /\ forall k' d' b',
         LevelSystem.areObjectivesComplete k' d' b' s'
         = LevelSystem.areObjectivesComplete k' d' b'
             (LevelSystem.constructor (LevelSystem.mkStorage None false false)).
Proof.
  eapply (displayed_objectives_agree_with_victory 15 120 false
            (LevelSystem.constructor (LevelSystem.mkStorage None false false))).
  reflexivity.
Defined.

(** X16. A level system built by the constructor never loses its level
    data, whatever the store held and whatever is called on it
    afterwards: the levels keep the keys 1, 2 and 3,
    [getCurrentLevelData] finds a level, so [areObjectivesComplete]
    answers, and the level it reads is the current one when that is 1,
    2 or 3, and level 1 otherwise. A current level that is one of the
    three at the start stays one of them. *)
Theorem level_data_is_always_there
    (st : LevelSystem.Storage) (cs : list LevelSystem.call)
    (kills : Z) (distance : Q) (bossDefeated : bool) :
  let s := (LevelSystem.run cs (LevelSystem.constructor st, st)).1 in
  (forall n, is_Some (LevelSystem.getLevelData n s) <-> 1 <= n <= 3)
  /\ (exists level,
        LevelSystem.getCurrentLevelData s = Some level
        /\ LevelSystem.number level
           = (if bool_decide (1 <= LevelSystem.current s <= 3)
              then LevelSystem.current s else 1))
  /\ is_Some (LevelSystem.areObjectivesComplete kills distance
                bossDefeated s)
  /\ (1 <= LevelSystem.current (LevelSystem.constructor st) <= 3 ->
      1 <= LevelSystem.current s <= 3).
Proof.
  intros s.
  destruct (run_numbers cs (LevelSystem.constructor st, st)) as [Hn Hc].
  fold s in Hn, Hc. cbn [fst LevelSystem.constructor LevelSystem.levels]
    in Hn, Hc.
  assert (Hnum : forall n,
            LevelSystem.number <$> LevelSystem.levels s !! n
            = (if bool_decide (1 <= n <= 3) then Some n else None)).
  { intros n. rewrite Hn. apply initializeLevels_number. }
  assert (Hdom : forall n,
            is_Some (LevelSystem.levels s !! n) <-> 1 <= n <= 3).
  { intros n. specialize (Hnum n).
    destruct (decide (1 <= n <= 3)) as [Hin|Hout].
    - rewrite bool_decide_eq_true_2 in Hnum by exact Hin.
      destruct (LevelSystem.levels s !! n); [|discriminate].
      split; [intros _; exact Hin | eauto].
    - rewrite bool_decide_eq_false_2 in Hnum by exact Hout.
      destruct (LevelSystem.levels s !! n); [discriminate|].
      split; [intros [? ?]; discriminate | intros; contradiction]. }
  assert (Hlevel : exists level,
            LevelSystem.getCurrentLevelData s = Some level
            /\ LevelSystem.number level
               = (if bool_decide (1 <= LevelSystem.current s <= 3)
                  then LevelSystem.current s else 1)).
  { unfold LevelSystem.getCurrentLevelData.
    pose proof (Hnum (LevelSystem.current s)) as Hcur.
    pose proof (Hnum 1) as H1.
    destruct (decide (1 <= LevelSystem.current s <= 3)) as [Hin|Hout].
    - rewrite bool_decide_eq_true_2 in Hcur |- * by exact Hin.
      destruct (LevelSystem.levels s !! LevelSystem.current s) as [l|];
        [|discriminate].
      exists l. split; [reflexivity|]. injection Hcur as ->. reflexivity.
    - rewrite bool_decide_eq_false_2 in Hcur |- * by exact Hout.
      destruct (LevelSystem.levels s !! LevelSystem.current s);
        [discriminate|].
      rewrite bool_decide_eq_true_2 in H1 by lia.
      destruct (LevelSystem.levels s !! 1) as [l|]; [|discriminate].
      exists l. split; [reflexivity|]. injection H1 as ->. reflexivity. }
  split; [exact Hdom|]. split; [exact Hlevel|]. split.
  - destruct Hlevel as (level & Hl & _).
    unfold LevelSystem.areObjectivesComplete. rewrite Hl. eauto.
  - intros H0. apply Hdom, Hc.
    + pose proof (initializeLevels_number
                    (LevelSystem.current (LevelSystem.constructor st)))
        as Hi.
      rewrite bool_decide_eq_true_2 in Hi by exact H0.
      cbn [LevelSystem.constructor LevelSystem.current] in *.
      destruct (LevelSystem.initializeLevels !! _); [eauto|discriminate].
    + pose proof (initializeLevels_number 1) as Hi.
      rewrite bool_decide_eq_true_2 in Hi by lia.
      destruct (LevelSystem.initializeLevels !! 1); [eauto|discriminate].
Qed.

Lemma level_data_is_always_there_witness :
  1 <= LevelSystem.current
         (LevelSystem.run
            [LevelSystem.CompleteLevel 1500 15; LevelSystem.SetLevel 7;
             LevelSystem.CompleteLevel 2500 25;
             LevelSystem.CompleteLevel 9000 40]
            (LevelSystem.constructor (LevelSystem.mkStorage None false false),
             LevelSystem.mkStorage None false false)).1 <= 3.
Proof.
  apply (level_data_is_always_there (LevelSystem.mkStorage None false false)
           [LevelSystem.CompleteLevel 1500 15; LevelSystem.SetLevel 7;
            LevelSystem.CompleteLevel 2500 25;
            LevelSystem.CompleteLevel 9000 40] 0 0 false).
  vm_compute. split; discriminate.
Defined.

(** ** GameScene: the end of a level *)



(** ** SpawnSystem: spacing, power-ups and places *)

Section SpawnRuns.
Import GameConfig SpawnSystem.

Lemma update_timers_spec (time mapProgress : Q) (s : t) :
  let r := update time mapProgress s in
  powerUpSpawnRate r.1.1 = powerUpSpawnRate s
  /\ (r.1.2 = true ->
      (lastEnemySpawn s + enemySpawnRate s < time)%Q
      /\ lastEnemySpawn r.1.1 = time
      /\ enemySpawnRate r.1.1
         = Qmax ENEMY_SPAWN_RATE_MIN
                (ENEMY_SPAWN_RATE_INITIAL - mapProgress / 10))
  /\ (r.1.2 = false ->
      lastEnemySpawn r.1.1 = lastEnemySpawn s
      /\ enemySpawnRate r.1.1 = enemySpawnRate s)
  /\ (r.2 = true ->
      (lastPowerUpSpawn s + powerUpSpawnRate s < time)%Q
      /\ lastPowerUpSpawn r.1.1 = time)
  /\ (r.2 = false -> lastPowerUpSpawn r.1.1 = lastPowerUpSpawn s).
Proof.
  unfold update, shouldSpawn, shouldSpawnPowerUp.
  destruct (Qltb (lastEnemySpawn s + enemySpawnRate s) time) eqn:Ee;
    cbn [lastPowerUpSpawn powerUpSpawnRate lastEnemySpawn enemySpawnRate];
    destruct (Qltb (lastPowerUpSpawn s + powerUpSpawnRate s) time) eqn:Ep;
    cbn [fst snd lastPowerUpSpawn powerUpSpawnRate lastEnemySpawn
         enemySpawnRate];
    try apply Qltb_lt in Ee; try apply Qltb_lt in Ep;
    repeat split; try reflexivity; try discriminate; assumption.
Qed.

Lemma updates_spaced (calls : list (Q * Q)) (s : t) :
  (ENEMY_SPAWN_RATE_MIN <= enemySpawnRate s)%Q ->
  let r := updates calls s in
  gapped ENEMY_SPAWN_RATE_MIN (lastEnemySpawn s) r.1.2
  /\ gapped (powerUpSpawnRate s) (lastPowerUpSpawn s) r.2
  /\ (ENEMY_SPAWN_RATE_MIN <= enemySpawnRate r.1.1)%Q
  /\ powerUpSpawnRate r.1.1 = powerUpSpawnRate s.
Proof.
  revert s. induction calls as [|[time mp] calls IH]; intros s Hrate.
  - cbn. repeat split; [exact Hrate].
  - cbn [updates].
    pose proof (update_timers_spec time mp s) as (Hp & He1 & He0 & Hp1 & Hp0).
    destruct (update time mp s) as [[s1 e] p]. cbn [fst snd] in *.
    assert (Hrate1 : (ENEMY_SPAWN_RATE_MIN <= enemySpawnRate s1)%Q).
    { destruct e.
      - destruct (He1 eq_refl) as (_ & _ & ->). apply Q.le_max_l.
      - destruct (He0 eq_refl) as (_ & ->). exact Hrate. }
    specialize (IH s1 Hrate1). cbv zeta in IH.
    destruct (updates calls s1) as [[s2 es] ps]. cbn [fst snd] in *.
    destruct IH as (IHe & IHp & IHr & IHq).
    rewrite Hp in IHp, IHq.
    split; [|split; [|split; [exact IHr | exact IHq]]].
    + destruct e; cbn [app].
      * destruct (He1 eq_refl) as (Hlt & Hlast & _).
        rewrite Hlast in IHe. cbn [gapped]. split; [|exact IHe].
        eapply Qle_lt_trans; [|exact Hlt].
        apply Qplus_le_r. exact Hrate.
      * destruct (He0 eq_refl) as (Hlast & _).
        rewrite Hlast in IHe. exact IHe.
    + destruct p; cbn [app].
      * destruct (Hp1 eq_refl) as (Hlt & Hlast).
        rewrite Hlast in IHp. cbn [gapped]. split; assumption.
      * rewrite (Hp0 eq_refl) in IHp. exact IHp.
Qed.

Lemma updates_rate_bound (calls : list (Q * Q)) (s : t) :
  (enemySpawnRate s <= ENEMY_SPAWN_RATE_INITIAL)%Q ->
  Forall (fun c => (0 <= c.2)%Q) calls ->
  (enemySpawnRate (updates calls s).1.1 <= ENEMY_SPAWN_RATE_INITIAL)%Q.
Proof.
  revert s. induction calls as [|[time mp] calls IH]; intros s Hrate Hall.
  - exact Hrate.
  - cbn [updates]. apply Forall_cons in Hall as [Hmp Hall].
    cbn [snd] in Hmp.
    pose proof (update_timers_spec time mp s) as (_ & He1 & He0 & _).
    destruct (update time mp s) as [[s1 e] p]. cbn [fst snd] in *.
    assert (Hrate1 : (enemySpawnRate s1 <= ENEMY_SPAWN_RATE_INITIAL)%Q).
    { destruct e.
      - destruct (He1 eq_refl) as (_ & _ & ->).
        apply Q.max_lub.
        + unfold ENEMY_SPAWN_RATE_MIN, ENEMY_SPAWN_RATE_INITIAL. lra.
        + assert (Hq : (0 <= mp / 10)%Q)
            by (apply Qle_shift_div_l; [reflexivity | lra]).
          unfold ENEMY_SPAWN_RATE_INITIAL.
          set (q := (mp / 10)%Q) in *. lra.
      - destruct (He0 eq_refl) as (_ & ->). exact Hrate. }
    specialize (IH s1 Hrate1 Hall).
    destruct (updates calls s1) as [[s2 es] ps]. exact IH.
Qed.

End SpawnRuns.

(** X18. Spawns keep their distance in time. Along any calls of
    [update], whatever the times and the progress passed, two waves of
    enemies in a row are more than 400 ms apart and two power-ups more
    than the power-up rate (15 s) apart; the enemy rate never goes
    under 400 ms and, when the progress is never negative, never over
    the 1200 ms it starts with. *)
Theorem spawns_keep_their_distance
    (calls : list (Q * Q)) (s : SpawnSystem.t) :
  (400 <= SpawnSystem.enemySpawnRate s)%Q ->
  let r := SpawnSystem.updates calls s in
  SpawnSystem.gapped 400 (SpawnSystem.lastEnemySpawn s) r.1.2
  /\ SpawnSystem.gapped (SpawnSystem.powerUpSpawnRate s)
                        (SpawnSystem.lastPowerUpSpawn s) r.2
  /\ (400 <= SpawnSystem.enemySpawnRate r.1.1)%Q
  /\ ((SpawnSystem.enemySpawnRate s <= 1200)%Q ->
      Forall (fun c => (0 <= c.2)%Q) calls ->
      (SpawnSystem.enemySpawnRate r.1.1 <= 1200)%Q).
Proof.
  intros Hrate r. subst r.
  destruct (updates_spaced calls s Hrate) as (Ha & Hb & Hc & _).
  split; [exact Ha|]. split; [exact Hb|]. split; [exact Hc|].
  apply updates_rate_bound.
Qed.

Lemma spawns_keep_their_distance_witness :
  SpawnSystem.gapped 400 0
    (SpawnSystem.updates [(1201, 0); (1500, 10); (2402, 20); (16000, 9000)]%Q
       SpawnSystem.constructor).1.2
  /\ SpawnSystem.gapped 15000 0
       (SpawnSystem.updates
          [(1201, 0); (1500, 10); (2402, 20); (16000, 9000)]%Q
          SpawnSystem.constructor).2.
Proof.
  pose proof (spawns_keep_their_distance
                [(1201, 0); (1500, 10); (2402, 20); (16000, 9000)]%Q
                SpawnSystem.constructor) as H.
  destruct H as (Ha & Hb & _).
  - vm_compute. discriminate.
  - split; [exact Ha | exact Hb].
Defined.

(** X19. What [createRandomPowerUp] makes of its draw: a grenade pack
    below 0.4, a speed boost from 0.4 to 0.7, a shield from 0.7 to 0.9,
    a weapon upgrade from 0.9 on; the four intervals have the lengths
    0.4, 0.3, 0.2 and 0.1 announced in the source. *)
Theorem createRandomPowerUp_intervals (roll : Q) :
  (SpawnSystem.createRandomPowerUp roll = SpawnSystem.GrenadePack
   <-> (roll < 0.4)%Q)
  /\ (SpawnSystem.createRandomPowerUp roll = SpawnSystem.SpeedBoost
      <-> (0.4 <= roll < 0.7)%Q)
  /\ (SpawnSystem.createRandomPowerUp roll = SpawnSystem.Shield
      <-> (0.7 <= roll < 0.9)%Q)
  /\ (SpawnSystem.createRandomPowerUp roll = SpawnSystem.WeaponUpgrade
      <-> (0.9 <= roll)%Q).
Proof.
  unfold SpawnSystem.createRandomPowerUp.
  destruct (Qltb roll 0.4) eqn:E1;
    [apply Qltb_lt in E1 | apply Qltb_ge in E1];
    (destruct (Qltb roll 0.7) eqn:E2;
     [apply Qltb_lt in E2 | apply Qltb_ge in E2]);
    (destruct (Qltb roll 0.9) eqn:E3;
     [apply Qltb_lt in E3 | apply Qltb_ge in E3]);
    repeat split; intros; try discriminate; try reflexivity; try lra.
Qed.

(** X20. Enemies are spawned out of sight and are not cleaned up for
    it. Whatever the draws, the position returned by
    [getRandomSpawnPosition] lies outside the visible screen, 40 px
    beyond the top, the left or the right edge, and an enemy placed
    there is off screen neither for the base class nor for the Bunker.
    [between] answers [Phaser.Math.Between], which returns a number
    between its bounds. *)
Theorem spawn_position_is_off_view_but_kept
    (spawnRoll : Q) (between : Q -> Q -> Q) (e : Enemy.t) :
  (forall lo hi, (lo <= hi)%Q -> (lo <= between lo hi <= hi)%Q) ->
  let pos := SpawnSystem.getRandomSpawnPosition spawnRoll between in
  (sx (Enemy.sprite e) == pos.1)%Q -> (sy (Enemy.sprite e) == pos.2)%Q ->
  ((pos.2 == -40)%Q \/ (pos.1 == -40)%Q \/ (pos.1 == 768 + 40)%Q)
  /\ Enemy.isOffScreen e = false
  /\ Bunker.isOffScreen e = false.
Proof.
  intros Hb pos Hx Hy. subst pos.
  unfold SpawnSystem.getRandomSpawnPosition in *.
  unfold GameConfig.SPAWN_FROM_TOP, GameConfig.SPAWN_FROM_LEFT,
    GameConfig.SCREEN_WIDTH, GameConfig.SCREEN_HEIGHT in *.
  pose proof (Hb 50 (768 - 50))%Q as Hbx.
  pose proof (Hb 50 (672 - 50))%Q as Hby.
  assert (H1 : (50 <= 768 - 50)%Q) by lra.
  assert (H2 : (50 <= 672 - 50)%Q) by lra.
  specialize (Hbx H1). specialize (Hby H2).
  unfold Enemy.isOffScreen, Bunker.isOffScreen.
  unfold GameConfig.SCREEN_WIDTH, GameConfig.SCREEN_HEIGHT.
  assert (Hoff : forall a b c d a' b' c',
            Qltb a (sy (Enemy.sprite e)) = false ->
            Qltb (sy (Enemy.sprite e)) b = false ->
            Qltb c (sx (Enemy.sprite e)) = false ->
            Qltb (sx (Enemy.sprite e)) d = false ->
            Qltb (sy (Enemy.sprite e)) a' = false ->
            Qltb b' (sx (Enemy.sprite e)) = false ->
            Qltb (sx (Enemy.sprite e)) c' = false ->
            Qltb a (sy (Enemy.sprite e)) || Qltb (sy (Enemy.sprite e)) b
            || Qltb c (sx (Enemy.sprite e)) || Qltb (sx (Enemy.sprite e)) d
            = false
            /\ Qltb (sy (Enemy.sprite e)) a' || Qltb b' (sx (Enemy.sprite e))
               || Qltb (sx (Enemy.sprite e)) c' = false).
  { intros. repeat match goal with H : Qltb _ _ = false |- _ =>
                     rewrite H; clear H end.
    split; reflexivity. }
  destruct (Qltb spawnRoll 0.7);
    [|destruct (Qltb spawnRoll (0.7 + 0.15))]; cbn [fst snd] in *;
    (split; [auto; try (right; auto; fail);
             try (left; reflexivity); try (right; left; reflexivity);
             try (right; right; reflexivity)|]);
    apply Hoff; apply Qltb_ge; rewrite ?Hx, ?Hy; lra.
Qed.

Lemma spawn_position_is_off_view_but_kept_witness :
  Enemy.isOffScreen (Bunker.constructor 1 808 50) = false
  /\ Bunker.isOffScreen (Bunker.constructor 1 808 50) = false.
Proof.
  apply (spawn_position_is_off_view_but_kept 0.9 (fun lo _ => lo)
           (Bunker.constructor 1 808 50)).
  - intros lo hi H. split; [apply Qle_refl | exact H].
  - reflexivity.
  - reflexivity.
Defined.

(** X21. The Bunker's own [isOffScreen] only ever keeps an enemy
    longer than the base class would: whenever it answers [true], so
    does the base rule; and below the bottom edge, where the base rule
    removes an enemy, the Bunker's never does. *)
Theorem bunker_is_kept_longer (e : Enemy.t) :
  (Bunker.isOffScreen e = true -> Enemy.isOffScreen e = true)
  /\ ((672 + 60 < sy (Enemy.sprite e))%Q ->
      (-100 <= sx (Enemy.sprite e) <= 900)%Q ->
      Enemy.isOffScreen e = true /\ Bunker.isOffScreen e = false).
Proof.
  unfold Bunker.isOffScreen, Enemy.isOffScreen.
  unfold GameConfig.SCREEN_WIDTH, GameConfig.SCREEN_HEIGHT.
  split.
  - intros H.
    apply orb_true_iff in H as [H|H];
      [apply orb_true_iff in H as [H|H]|];
      apply Qltb_lt in H.
    + assert (E : Qltb (sy (Enemy.sprite e)) (-60) = true)
        by (apply Qltb_lt; lra).
      rewrite E, orb_true_r. reflexivity.
    + assert (E : Qltb (768 + 60) (sx (Enemy.sprite e)) = true)
        by (apply Qltb_lt; lra).
      rewrite E, orb_true_r. reflexivity.
    + assert (E : Qltb (sx (Enemy.sprite e)) (-60) = true)
        by (apply Qltb_lt; lra).
      rewrite E, orb_true_r. reflexivity.
  - intros Hy [Hx1 Hx2].
    assert (E1 : Qltb (672 + 60) (sy (Enemy.sprite e)) = true)
      by (apply Qltb_lt; lra).
    assert (E2 : Qltb (sy (Enemy.sprite e)) (-100) = false)
      by (apply Qltb_ge; lra).
    assert (E3 : Qltb 900 (sx (Enemy.sprite e)) = false)
      by (apply Qltb_ge; lra).
    assert (E4 : Qltb (sx (Enemy.sprite e)) (-100) = false)
      by (apply Qltb_ge; lra).
    rewrite E1, E2, E3, E4. split; reflexivity.
Qed.

Lemma bunker_is_kept_longer_witness :
  Enemy.isOffScreen (Bunker.constructor 1 300 800) = true
  /\ Bunker.isOffScreen (Bunker.constructor 1 300 800) = false.
Proof.
  apply (bunker_is_kept_longer (Bunker.constructor 1 300 800)).
  - vm_compute. reflexivity.
  - split; vm_compute; discriminate.
Defined.

(** *** Bookkeeping of a collision pass *)

Section Bookkeeping.
Import CollisionSystem.
Variable overlap : Sprite -> Sprite -> bool.
Variable random : nat -> Q.
Variable onBossDefeated : bool.

Lemma getPointsForEnemy_bounds (ty : EnemyType) :
  100 <= getPointsForEnemy ty <= 1000.
Proof.
  unfold getPointsForEnemy.
  repeat match goal with
         | |- context [String.eqb ?a ?b] => destruct (String.eqb a b)
         end;
    vm_compute; split; discriminate.
Qed.

Lemma sumPoints_bounds (tys : list EnemyType) :
  100 * Z.of_nat (length tys) <= sumPoints tys
  <= 1000 * Z.of_nat (length tys).
Proof.
  induction tys as [|ty tys IH]; cbn [sumPoints length]; [lia|].
  pose proof (getPointsForEnemy_bounds ty). lia.
Qed.

(** Every enemy that leaves the list is reported destroyed. *)
Lemma conserved_damage (by_ : Obj) (particles : Z) (sound : bool) (j : nat)
    (e : Enemy.t) (w : World) :
  enemies w !! j = Some e ->
  let d := damageEnemy random onBossDefeated by_ particles sound j e w in
  (length (enemies d.1) + length (destroyed d.2))%nat = length (enemies w).
Proof.
  intros Hj d. subst d.
  destruct (damageEnemy_enemies random onBossDefeated by_ particles sound
              j e w Hj) as (Hk & _).
  destruct (damageEnemy_block random onBossDefeated by_ particles sound
              j e w) as [Ht Hf].
  cbv zeta in *.
  apply (f_equal length) in Hk. rewrite length_fmap in Hk. rewrite Hk.
  destruct ((takeDamage_dispatch random (draws w) e).1.2).
  - destruct (Ht eq_refl) as (_ & _ & -> & _).
    rewrite length_delete, length_fmap.
    + apply lookup_lt_Some in Hj. cbn [length]. lia.
    + rewrite list_lookup_fmap, Hj. eauto.
  - destruct (Hf eq_refl) as (_ & _ & ->).
    rewrite length_fmap. cbn. lia.
Qed.

Lemma quiet_destroyed (ev : Event) : quiet ev = true -> destroyed [ev] = [].
Proof. destruct ev; cbn; congruence. Qed.

Lemma bulletLoop_conserved (n : nat) (w : World) :
  (length (enemies (bulletLoop overlap random onBossDefeated n w).1)
   + length (destroyed (bulletLoop overlap random onBossDefeated n w).2))%nat
  = length (enemies w).
Proof.
  apply (bulletLoop_R overlap random onBossDefeated (fun _ => True)
           (fun w tr w' =>
              (length (enemies w') + length (destroyed tr))%nat
              = length (enemies w))).
  - intros w0. cbn. lia.
  - intros w0 t1 w1 t2 w2 H1 H2.
    rewrite destroyed_app, length_app. lia.
  - intros w0 ev Hq _. rewrite (quiet_destroyed ev Hq). cbn. lia.
  - intros i w0. cbn. lia.
  - intros by_ particles sound j e w0 _ Hj.
    apply conserved_damage, Hj.
  - auto.
Qed.

Lemma grenadeLoop_conserved (n : nat) (w : World) :
  (length (enemies (grenadeLoop random onBossDefeated n w).1)
   + length (destroyed (grenadeLoop random onBossDefeated n w).2))%nat
  = length (enemies w).
Proof.
  apply (grenadeLoop_R random onBossDefeated (fun _ => True)
           (fun w tr w' =>
              (length (enemies w') + length (destroyed tr))%nat
              = length (enemies w))).
  - intros w0. cbn. lia.
  - intros w0 t1 w1 t2 w2 H1 H2.
    rewrite destroyed_app, length_app. lia.
  - intros w0 ev Hq _. rewrite (quiet_destroyed ev Hq). cbn. lia.
  - intros by_ particles sound j e w0 _ Hj.
    apply conserved_damage, Hj.
  - auto.
Qed.

Lemma checkCollisions_conserved (now : Q) (w : World) :
  let r := checkCollisions overlap random onBossDefeated now w in
  (length (enemies r.1) + length (destroyed r.2))%nat = length (enemies w).
Proof.
  cbv zeta. unfold checkCollisions.
  pose proof (bulletLoop_conserved (length (bullets w)) w) as C1.
  destruct (bulletLoop _ _ _ _ _) as [w1 t1].
  pose proof (grenadeLoop_conserved (length (grenades w1)) w1) as C2.
  destruct (grenadeLoop _ _ _ _) as [w2 t2]. cbn [fst snd] in *.
  assert (A3 : forall c : bool,
             destroyed (if c then playerScan overlap (player w2) (enemies w2)
                        else (false, [])).2 = []).
  { intros [|]; [apply playerScan_destroyed | reflexivity]. }
  specialize (A3 (negb (Player.getIsInvincible (player w2))
                  && negb (Player.getIsDead (player w2)))).
  destruct (if _ && _ then _ else _) as [dead t3]. cbn [fst snd] in *.
  pose proof (powerUpLoop_destroyed overlap now (length (powerUps w2)) w2)
    as Hk4.
  destruct (powerUpLoop_spec overlap now (length (powerUps w2)) w2)
    as [_ He4].
  destruct dead.
  - cbn [fst snd]. rewrite !destroyed_app, !length_app, A3. cbn [length].
    lia.
  - destruct (powerUpLoop _ _ _ _) as [w4 t4]. cbn [fst snd] in *.
    rewrite !destroyed_app, !length_app, A3, He4, Hk4. cbn [length].
    lia.
Qed.

End Bookkeeping.

(** X22. The books of a collision pass balance. The kills grow by the
    number of enemies that left the list, no enemy enters it, and the
    score grows by at least 100 and at most 1000 for each of them; so
    neither the score nor the kills ever go down. *)
Theorem collision_books_balance
    (overlap : Sprite -> Sprite -> bool) (random : nat -> Q)
    (onBossDefeated : bool) (now : Q) (w : CollisionSystem.World) :
  let r := CollisionSystem.checkCollisions overlap random onBossDefeated
             now w in
  let gone := Z.of_nat (length (CollisionSystem.enemies w))
              - Z.of_nat (length (CollisionSystem.enemies r.1)) in
  0 <= gone
  /\ CollisionSystem.kills r.1 = CollisionSystem.kills w + gone
  /\ CollisionSystem.score w + 100 * gone <= CollisionSystem.score r.1
     <= CollisionSystem.score w + 1000 * gone.
Proof.
  intros r gone. subst gone r.
  pose proof (checkCollisions_conserved overlap random onBossDefeated now w)
    as Hc.
  destruct (checkCollisions_accounted overlap random onBossDefeated now w)
    as (Hs & Hk & _).
  cbv zeta in Hc.
  pose proof (sumPoints_bounds
                (CollisionSystem.destroyed
                   (CollisionSystem.checkCollisions overlap random
                      onBossDefeated now w).2)) as Hb.
  rewrite Hs, Hk. lia.
Qed.

Section PickUps.
Import CollisionSystem.
Variable overlap : Sprite -> Sprite -> bool.

Lemma count_isApply_le (tr : list Event) :
  (count isApply tr <= count isPickup tr)%nat.
Proof.
  induction tr as [|ev tr IH]; cbn [count]; [lia|].
  destruct ev; cbn [isApply isPickup]; lia.
Qed.

Lemma isApply_elem (tr : list Event) (x : nat) :
  Apply x ∈ tr -> count isApply tr <> 0%nat.
Proof.
  intros Hin Hz.
  pose proof (count_zero_elem isApply tr (Apply x) Hz Hin) as H.
  discriminate H.
Qed.

(** The power-up pass: either nothing overlaps the player and nothing
    changes, or the overlapping power-up nearest to the end of the
    list is applied and collected, and no other. *)
Lemma powerUpLoop_pick (now : Q) (n : nat) (w : World) :
  (n <= length (powerUps w))%nat ->
  let r := powerUpLoop overlap now n w in
  (r.1 = w /\ count isApply r.2 = 0%nat)
  \/ exists i u,
       (i < n)%nat /\ powerUps w !! i = Some u
       /\ overlap (Player.sprite (player w)) (PowerUp.sprite u) = true
       /\ r.1 = setPickup (PowerUp.apply now u (player w))
                          (<[i := PowerUp.collect u]> (powerUps w)) w
       /\ count isApply r.2 = 1%nat
       /\ forall x, Apply x ∈ r.2 -> x = PowerUp.oid u.
Proof.
  induction n as [|i IH]; intros Hn; cbn [powerUpLoop].
  - left. split; reflexivity.
  - destruct (lookup_lt_is_Some_2 (powerUps w) i) as [u Hu]; [lia|].
    rewrite Hu.
    destruct (overlap (Player.sprite (player w)) (PowerUp.sprite u)) eqn:Eo.
    + right. exists i, u. cbn [fst snd].
      split; [lia|]. split; [exact Hu|]. split; [exact Eo|].
      split; [reflexivity|]. split; [reflexivity|].
      intros x Hin. apply list_elem_of_In in Hin. cbn in Hin.
      destruct Hin as [H|[H|[H|[H|[H|[]]]]]]; try discriminate H.
      injection H as ->. reflexivity.
    + specialize (IH ltac:(lia)). cbv zeta in IH.
      destruct (powerUpLoop overlap now i w) as [w' tr]. cbn [fst snd] in *.
      destruct IH as [[-> Hz]|(k & u' & Hk & Hu' & Ho & Hw & Hc & Hx)].
      * left. split; [reflexivity|]. cbn [count isApply]. exact Hz.
      * right. exists k, u'.
        split; [lia|]. split; [exact Hu'|]. split; [exact Ho|].
        split; [exact Hw|]. split; [cbn [count isApply]; exact Hc|].
        intros x Hin. apply elem_of_cons in Hin as [Hin|Hin];
          [discriminate Hin|]. apply Hx, Hin.
Qed.

End PickUps.

Section PickUpOnce.
Import CollisionSystem.
Variable overlap : Sprite -> Sprite -> bool.
Variable random : nat -> Q.
Variable onBossDefeated : bool.

Lemma checkCollisions_pick (now : Q) (w : World) :
  let r := checkCollisions overlap random onBossDefeated now w in
  (player r.1 = player w /\ powerUps r.1 = powerUps w
   /\ count isApply r.2 = 0%nat)
  \/ exists i u,
       powerUps w !! i = Some u
       /\ overlap (Player.sprite (player w)) (PowerUp.sprite u) = true
       /\ player r.1 = PowerUp.apply now u (player w)
       /\ powerUps r.1 = <[i := PowerUp.collect u]> (powerUps w)
       /\ count isApply r.2 = 1%nat
       /\ forall x, Apply x ∈ r.2 -> x = PowerUp.oid u.
Proof.
  cbv zeta. unfold checkCollisions.
  pose proof (bulletLoop_framed overlap random onBossDefeated
                (length (bullets w)) w) as (P1 & U1 & _ & _ & K1).
  destruct (bulletLoop _ _ _ _ _) as [w1 t1].
  pose proof (grenadeLoop_framed random onBossDefeated
                (length (grenades w1)) w1) as (P2 & U2 & _ & _ & K2).
  destruct (grenadeLoop _ _ _ _) as [w2 t2]. cbn [fst snd] in *.
  assert (Hp : player w2 = player w) by congruence.
  assert (Hu : powerUps w2 = powerUps w) by congruence.
  assert (K3 : forall c : bool,
             count isPickup
               (if c then playerScan overlap (player w2) (enemies w2)
                else (false, [])).2 = 0%nat).
  { intros [|]; [|reflexivity]. apply playerScan_spec. }
  specialize (K3 (negb (Player.getIsInvincible (player w2))
                  && negb (Player.getIsDead (player w2)))).
  destruct (if _ && _ then _ else _) as [dead t3]. cbn [fst snd] in *.
  pose proof (count_isApply_le t1) as L1.
  pose proof (count_isApply_le t2) as L2.
  pose proof (count_isApply_le t3) as L3.
  assert (Hno : forall x, Apply x ∈ t1 ++ t2 ++ t3 -> False).
  { intros x Hin. apply isApply_elem in Hin. apply Hin.
    rewrite !count_app. lia. }
  destruct dead.
  - left. cbn [fst snd]. split; [exact Hp|]. split; [exact Hu|].
    rewrite !count_app. lia.
  - pose proof (powerUpLoop_pick overlap now (length (powerUps w2)) w2
                  (Nat.le_refl _)) as Hpick.
    cbv zeta in Hpick.
    destruct (powerUpLoop _ _ _ _) as [w4 t4]. cbn [fst snd] in *.
    destruct Hpick as [[-> Hz]|(i & u & _ & Hi & Ho & -> & Hc & Hx)].
    + left. split; [exact Hp|]. split; [exact Hu|].
      rewrite !count_app. lia.
    + right. exists i, u. rewrite Hu in Hi. rewrite Hp in Ho.
      split; [exact Hi|]. split; [exact Ho|].
      cbn [setPickup player powerUps]. rewrite Hp, Hu.
      split; [reflexivity|]. split; [reflexivity|].
      split; [rewrite !count_app; lia|].
      intros x Hin. rewrite !app_assoc in Hin.
      apply elem_of_app in Hin as [Hin|Hin]; [|apply Hx, Hin].
      exfalso. apply (Hno x). rewrite <- !app_assoc in Hin. exact Hin.
Qed.

End PickUpOnce.

(** X23. A power-up is used once. A collision pass applies at most one
    power-up, one that overlaps the player, and marks it collected
    without taking it out of the list; without a pick-up the player
    and the power-ups are returned as they were. When no two power-ups
    share an identity, the one applied is gone after the next
    [updatePowerUps], before another collision pass can see it. *)
Theorem power_up_is_used_once
    (overlap : Sprite -> Sprite -> bool) (random : nat -> Q)
    (onBossDefeated : bool) (now : Q) (w : CollisionSystem.World) :
  NoDup (PowerUp.oid <$> CollisionSystem.powerUps w) ->
  let r := CollisionSystem.checkCollisions overlap random onBossDefeated
             now w in
  (CollisionSystem.count CollisionSystem.isApply r.2 <= 1)%nat
  /\ PowerUp.oid <$> CollisionSystem.powerUps r.1
     = PowerUp.oid <$> CollisionSystem.powerUps w
  /\ (CollisionSystem.count CollisionSystem.isApply r.2 = 0%nat ->
      CollisionSystem.player r.1 = CollisionSystem.player w
      /\ CollisionSystem.powerUps r.1 = CollisionSystem.powerUps w)
  /\ forall x,
       CollisionSystem.Apply x ∈ r.2 ->
       (exists u,
          u ∈ CollisionSystem.powerUps w /\ PowerUp.oid u = x
          /\ overlap (Player.sprite (CollisionSystem.player w))
                     (PowerUp.sprite u) = true
          /\ CollisionSystem.player r.1
             = PowerUp.apply now u (CollisionSystem.player w)
          /\ PowerUp.collect u ∈ CollisionSystem.powerUps r.1)
       /\ x ∉ PowerUp.oid
              <$> (GameScene.updatePowerUps (CollisionSystem.powerUps r.1)).1.
Proof.
  intros Hnd r. subst r.
  destruct (checkCollisions_pick overlap random onBossDefeated now w)
    as [(Hp & Hu & Hz)|(i & u & Hi & Ho & Hp & Hu & Hc & Hx)].
  - rewrite Hz, Hu. split; [lia|]. split; [reflexivity|].
    split; [auto|].
    intros x Hin. apply isApply_elem in Hin. contradiction.
  - rewrite Hc, Hu. split; [lia|]. split.
    + rewrite list_fmap_insert. apply list_insert_id.
      rewrite list_lookup_fmap, Hi. reflexivity.
    + split; [discriminate|].
      intros x Hin. apply Hx in Hin. subst x. split.
      * exists u. split; [eapply list_elem_of_lookup_2, Hi|].
        split; [reflexivity|]. split; [exact Ho|]. split; [exact Hp|].
        eapply list_elem_of_lookup_2.
        apply list_lookup_insert_eq. eapply lookup_lt_Some, Hi.
      * destruct (updatePowerUps_filter_eq
                    (<[i := PowerUp.collect u]> (CollisionSystem.powerUps w)))
          as [_ Hall].
        intros Hin. apply list_elem_of_fmap in Hin as (u' & Hid & Hin).
        rewrite Forall_forall in Hall.
        destruct (Hall u' Hin) as [Hcol _].
        pose proof (updatePowerUps_sublist
                      (<[i := PowerUp.collect u]>
                         (CollisionSystem.powerUps w))) as Hsub.
        apply (elem_of_sublist _ _ _ Hin) in Hsub as Hin'.
        clear Hin. rename Hin' into Hin.
        apply list_elem_of_lookup_1 in Hin as [j Hj].
        destruct (decide (j = i)) as [->|Hne].
        -- rewrite list_lookup_insert_eq in Hj
             by (eapply lookup_lt_Some, Hi).
           injection Hj as <-. discriminate Hcol.
        -- rewrite list_lookup_insert_ne in Hj by congruence.
           apply Hne.
           apply (NoDup_lookup _ j i (PowerUp.oid u) Hnd);
             rewrite list_lookup_fmap.
           ++ rewrite Hj. cbn. congruence.
           ++ rewrite Hi. reflexivity.
Qed.

Lemma power_up_is_used_once_witness :
  (CollisionSystem.count CollisionSystem.isApply
     (CollisionSystem.checkCollisions CollisionSystem.nearby (fun _ => 0%Q)
        false 1000
        (CollisionSystem.mkWorld 0 0 (Player.constructor 384 572) [] [] []
           [PowerUp.mk 7 (mkSprite 384 570 0) (PowerUp.GrenadePack 5) false;
            PowerUp.mk 8 (mkSprite 384 574 0) (PowerUp.Shield 8000) false]
           0)).2
   <= 1)%nat.
Proof.
  apply (power_up_is_used_once CollisionSystem.nearby (fun _ => 0%Q)
           false 1000
           (CollisionSystem.mkWorld 0 0 (Player.constructor 384 572) [] [] []
              [PowerUp.mk 7 (mkSprite 384 570 0) (PowerUp.GrenadePack 5)
                          false;
               PowerUp.mk 8 (mkSprite 384 574 0) (PowerUp.Shield 8000) false]
              0)).
  apply (bool_decide_unpack _). vm_compute. exact I.
Defined.

(** ** takeDamage, class by class *)

Section BossRuns.

(** A Boss stays a Boss with the same full health, loses one point of
    health by call, and does not come back to its first phase. *)
Lemma Boss_takeDamage_step (e : Enemy.t) (p m : Z) :
  exists p',
    Enemy.sub (Boss.takeDamage e p m).1 = Enemy.Boss p' m
    /\ (p' = p \/ p' = 2 \/ p' = 3)
    /\ Enemy.health (Boss.takeDamage e p m).1 = Enemy.health e - 1
    /\ (Boss.takeDamage e p m).2 = (Enemy.health e - 1 <=? 0).
Proof.
  unfold Boss.takeDamage.
  destruct (Qle_bool _ 0.33 && negb (p =? 3));
    [|destruct (Qle_bool _ 0.66 && negb (p =? 2))];
    cbn [fst snd Enemy.sub Enemy.health]; eexists;
    (split; [reflexivity|]); (split; [|split; reflexivity]); auto.
Qed.

Lemma Boss_hits_inv (e : Enemy.t) (p m : Z) (n : nat) :
  Enemy.sub e = Enemy.Boss p m ->
  exists p',
    Enemy.sub (Boss.hits n e) = Enemy.Boss p' m
    /\ Enemy.health (Boss.hits n e) = Enemy.health e - Z.of_nat n
    /\ (p = 2 \/ p = 3 -> p' = 2 \/ p' = 3).
Proof.
  intros Hsub. induction n as [|n IH].
  - exists p. cbn [Boss.hits]. split; [exact Hsub|]. split; [lia | auto].
  - destruct IH as (p1 & Hs & Hh & Hp). cbn [Boss.hits]. rewrite Hs.
    destruct (Boss_takeDamage_step (Boss.hits n e) p1 m)
      as (p2 & Hs2 & Hp2 & Hh2 & _).
    exists p2. split; [exact Hs2|]. split; [lia|].
    intros H. specialize (Hp H).
    destruct Hp2 as [->|Hp2]; [exact Hp | exact Hp2].
Qed.

End BossRuns.

(** X24. What every [takeDamage] has in common, whatever the class of
    the enemy: it takes one point of health or, for a soldier in cover
    that is missed, none; it answers [true] only when the health left
    is zero or less, and whenever it took the point its answer is
    [health <= 0]; it leaves the identity, the place and the archetype
    alone; only a soldier in cover draws a random number, and only
    one. *)
Theorem takeDamage_of_every_class
    (random : nat -> Q) (draws : nat) (e : Enemy.t) :
  let r := takeDamage_dispatch random draws e in
  (Enemy.health r.1.1 = Enemy.health e - 1
   \/ (r.1.1 = e /\ r.1.2 = false
       /\ Enemy.sub e = Enemy.CoveredSoldier true
       /\ (random draws < 0.5)%Q))
  /\ (r.1.2 = true -> Enemy.health r.1.1 <= 0)
  /\ (Enemy.health r.1.1 = Enemy.health e - 1 ->
      r.1.2 = (Enemy.health r.1.1 <=? 0))
  /\ CollisionSystem.key r.1.1 = CollisionSystem.key e
  /\ (Enemy.sub e <> Enemy.CoveredSoldier true -> r.2 = draws)
  /\ (Enemy.sub e = Enemy.CoveredSoldier true -> r.2 = S draws).
Proof.
  intros r. subst r.
  split; [|split; [|split; [|split; [apply takeDamage_dispatch_key|]]]].
  - unfold takeDamage_dispatch.
    destruct (Enemy.sub e) as [|c|p m] eqn:Es.
    + left. reflexivity.
    + unfold CoveredSoldier.takeDamage.
      destruct c; [|left; reflexivity].
      destruct (Qltb (random draws) 0.5) eqn:E; [|left; reflexivity].
      right. apply Qltb_lt in E. cbn [fst snd]. auto.
    + left.
      destruct (Boss_takeDamage_step e p m) as (p' & _ & _ & Hh & _).
      destruct (Boss.takeDamage e p m). exact Hh.
  - unfold takeDamage_dispatch.
    destruct (Enemy.sub e) as [|c|p m].
    + cbn. intros H. apply Z.leb_le in H. exact H.
    + unfold CoveredSoldier.takeDamage.
      destruct c; [destruct (Qltb (random draws) 0.5)|]; cbn;
        try discriminate; intros H; apply Z.leb_le in H; exact H.
    + destruct (Boss_takeDamage_step e p m) as (p' & _ & _ & Hh & Hd).
      destruct (Boss.takeDamage e p m) as [e' d]. cbn [fst snd] in *.
      intros ->. symmetry in Hd. apply Z.leb_le in Hd. lia.
  - unfold takeDamage_dispatch.
    destruct (Enemy.sub e) as [|c|p m].
    + reflexivity.
    + unfold CoveredSoldier.takeDamage.
      destruct c; [destruct (Qltb (random draws) 0.5)|]; cbn;
        try reflexivity.
      intros H. lia.
    + destruct (Boss_takeDamage_step e p m) as (p' & _ & _ & Hh & Hd).
      destruct (Boss.takeDamage e p m) as [e' d]. cbn [fst snd] in *.
      intros _. rewrite Hd, Hh. reflexivity.
  - unfold takeDamage_dispatch.
    destruct (Enemy.sub e) as [|c|p m].
    + split; [reflexivity | discriminate].
    + unfold CoveredSoldier.takeDamage.
      destruct c; [destruct (Qltb (random draws) 0.5)|]; cbn;
        (split; [intros H; try reflexivity; contradiction
                |intros H; try reflexivity; discriminate]).
    + destruct (Boss.takeDamage e p m).
      split; [reflexivity | discriminate].
Qed.

Lemma takeDamage_of_every_class_witness :
  Enemy.health
    (takeDamage_dispatch (fun _ => 0.7%Q) 0
       (Enemy.mk 1 (mkSprite 0 0 0) 100 1 EnemyType.SOLDIER Enemy.Base)).1.1
  <= 0
  /\ (takeDamage_dispatch (fun _ => 0.7%Q) 0
        (Enemy.mk 2 (mkSprite 0 0 0) 100 2 EnemyType.COVERED_SOLDIER
                  (Enemy.CoveredSoldier true))).2 = 1%nat.
Proof.
  split.
  - apply (takeDamage_of_every_class (fun _ => 0.7%Q) 0
             (Enemy.mk 1 (mkSprite 0 0 0) 100 1 EnemyType.SOLDIER
                       Enemy.Base)).
    reflexivity.
  - apply (takeDamage_of_every_class (fun _ => 0.7%Q) 0
             (Enemy.mk 2 (mkSprite 0 0 0) 100 2 EnemyType.COVERED_SOLDIER
                       (Enemy.CoveredSoldier true))).
    reflexivity.
Defined.

(** X25. A Boss that has left its first phase never comes back to it:
    from phase 2 or 3, after any number of calls of [takeDamage] the
    phase is 2 or 3, and each call has taken one point of health. *)
Theorem Boss_never_returns_to_phase_1 (e : Enemy.t) (p m : Z) (n : nat) :
  Enemy.sub e = Enemy.Boss p m ->
  p = 2 \/ p = 3 ->
  (Boss.phase (Boss.hits n e) = Some 2 \/ Boss.phase (Boss.hits n e) = Some 3)
  /\ Enemy.health (Boss.hits n e) = Enemy.health e - Z.of_nat n.
Proof.
  intros Hsub Hp.
  destruct (Boss_hits_inv e p m n Hsub) as (p' & Hs & Hh & Hp').
  split; [|exact Hh].
  unfold Boss.phase. rewrite Hs.
  destruct (Hp' Hp) as [-> | ->]; auto.
Qed.

Lemma Boss_never_returns_to_phase_1_witness :
  (Boss.phase (Boss.hits 9 (Boss.hits 14 (Boss.constructor 1 0 0))) = Some 2
   \/ Boss.phase (Boss.hits 9 (Boss.hits 14 (Boss.constructor 1 0 0)))
      = Some 3)
  /\ Enemy.health (Boss.hits 9 (Boss.hits 14 (Boss.constructor 1 0 0)))
     = Enemy.health (Boss.hits 14 (Boss.constructor 1 0 0)) - Z.of_nat 9.
Proof.
  apply (Boss_never_returns_to_phase_1
           (Boss.hits 14 (Boss.constructor 1 0 0)) 3 20 9).
  - reflexivity.
  - right. reflexivity.
Defined.

(** X26. The life of a new Boss, hit by hit. After [n] calls of
    [takeDamage] its health is [20 - n]; it is in phase 1 up to the
    sixth call and in phase 2 or 3 from the seventh on; and the call
    that follows answers [true], destroyed, exactly from the twentieth
    call on. *)
Theorem Boss_is_destroyed_by_the_twentieth_hit
    (oid : nat) (x y : Q) (n : nat) (random : nat -> Q) (draws : nat) :
  let boss := Boss.hits n (Boss.constructor oid x y) in
  Enemy.health boss = 20 - Z.of_nat n
  /\ ((n < 7)%nat -> Boss.phase boss = Some 1)
  /\ ((7 <= n)%nat ->
      Boss.phase boss = Some 2 \/ Boss.phase boss = Some 3)
  /\ ((takeDamage_dispatch random draws boss).1.2 = true <-> (19 <= n)%nat).
Proof.
  intros boss. subst boss.
  destruct (Boss_hits_inv (Boss.constructor oid x y) 1 20 n eq_refl)
    as (p' & Hs & Hh & _).
  cbn [Boss.constructor Enemy.health] in Hh.
  unfold GameConfig.BOSS_HEALTH in Hh.
  split; [exact Hh|]. split; [|split].
  - intros Hn.
    do 7 (destruct n as [|n]; [vm_compute; reflexivity|]). lia.
  - intros Hn.
    replace n with ((n - 7) + 7)%nat by lia.
    generalize (n - 7)%nat. clear. intros k.
    assert (E : forall a b e, Boss.hits (a + b) e = Boss.hits a (Boss.hits b e)).
    { intros a b e. induction a as [|a IH]; [reflexivity|].
      cbn [Nat.add Boss.hits]. rewrite IH. reflexivity. }
    rewrite E.
    destruct (Boss_hits_inv (Boss.hits 7 (Boss.constructor oid x y)) 2 20 k
                eq_refl) as (p' & Hs & _ & Hp).
    unfold Boss.phase. rewrite Hs.
    destruct Hp as [-> | ->]; auto.
  - unfold takeDamage_dispatch. rewrite Hs.
    destruct (Boss_takeDamage_step (Boss.hits n (Boss.constructor oid x y))
                p' 20) as (p2 & _ & _ & _ & Hd).
    destruct (Boss.takeDamage _ p' 20) as [e' d]. cbn [fst snd] in *.
    rewrite Hd, Hh, Z.leb_le. lia.
Qed.

Lemma Boss_is_destroyed_by_the_twentieth_hit_witness :
  Boss.phase (Boss.hits 3 (Boss.constructor 1 0 0)) = Some 1
  /\ (Boss.phase (Boss.hits 15 (Boss.constructor 1 0 0)) = Some 2
      \/ Boss.phase (Boss.hits 15 (Boss.constructor 1 0 0)) = Some 3).
Proof.
  split.
  - apply (Boss_is_destroyed_by_the_twentieth_hit 1 0 0 3 (fun _ => 0%Q) 0).
    lia.
  - apply (Boss_is_destroyed_by_the_twentieth_hit 1 0 0 15 (fun _ => 0%Q) 0).
    lia.
Defined.

(** ** GameScene: declaring the victory *)

Section Victory.
Import LevelSystem.

Lemma updateObjectives_hasNextLevel (kills : Z) (distance : Q) (boss : bool)
    (s s' : t) (os : list LevelObjective) :
  updateObjectives kills distance boss s = Some (s', os) ->
  current s' = current s /\ hasNextLevel s' = hasNextLevel s.
Proof.
  intros Hu. unfold updateObjectives in Hu.
  destruct (getCurrentLevelData s) as [level|] eqn:El; [|discriminate].
  destruct (updateObjectives_current kills distance boss s level El)
    as (s1 & Hu1 & Hc & Hn & _).
  unfold updateObjectives in Hu1. rewrite El in Hu1.
  rewrite Hu in Hu1. injection Hu1 as <- _.
  split; [exact Hc|].
  unfold hasNextLevel. rewrite Hc.
  specialize (Hn (current s + 1)).
  apply bool_decide_ext.
  destruct (levels s' !! (current s + 1)), (levels s !! (current s + 1));
    try discriminate; split; intros [? ?]; try discriminate; eauto.
Qed.

Lemma completeLevel_store (score kills : Z) (s s' : t) (st : Storage) :
  current s' = current s -> hasNextLevel s' = hasNextLevel s ->
  (completeLevel score kills s' st).2 = (completeLevel score kills s st).2
  /\ current (completeLevel score kills s' st).1
     = current (completeLevel score kills s st).1.
Proof.
  intros Hc Hn. unfold completeLevel. rewrite Hc, Hn.
  destruct (hasNextLevel s); cbn [fst snd current]; auto.
Qed.

End Victory.

(** X27. The victory is declared once, and exactly when the
    objectives hold. In a scene that has not won and is not over,
    [checkVictoryCondition] triggers the victory if and only if every
    objective of the level holds on the kills, the distance covered
    and the boss flag; otherwise scene and store are left as they
    were. When it triggers, the scene is marked won and over, the
    store holds what [completeLevel] saves, and a further
    [checkVictoryCondition] does nothing: the level is completed only
    once. *)
Theorem victory_is_declared_once
    (score kills : Z) (ls : LevelSystem.t) (st : LevelSystem.Storage)
    (s : GameScene.t) (level : LevelSystem.LevelData) :
  GameScene.hasWon s = false ->
  GameScene.isGameOverOrVictory s = false ->
  LevelSystem.getCurrentLevelData ls = Some level ->
  exists s' ls' st' key,
    GameScene.checkVictoryCondition score kills ls st s
    = Some (s', ls', st', key)
    /\ (is_Some key
        <-> Forall (LevelSystem.satisfied kills (GameScene.mapProgress s)
                      (GameScene.bossDefeated s))
                   (LevelSystem.objectives level))
    /\ (key = None ->
        s' = s /\ st' = st
        /\ LevelSystem.current ls' = LevelSystem.current ls)
    /\ (is_Some key ->
        GameScene.hasWon s' = true
        /\ GameScene.isGameOverOrVictory s' = true
        /\ st' = (LevelSystem.completeLevel score kills ls st).2
        /\ LevelSystem.current ls'
           = LevelSystem.current
               (LevelSystem.completeLevel score kills ls st).1
        /\ forall score2 kills2,
             GameScene.checkVictoryCondition score2 kills2 ls' st' s'
             = Some (s', ls', st', None)).
Proof.
  intros Hw Hg Hl. unfold GameScene.checkVictoryCondition. rewrite Hw.
  unfold LevelSystem.areObjectivesComplete. rewrite Hl.
  destruct (updateObjectives_current kills (GameScene.mapProgress s)
              (GameScene.bossDefeated s) ls level Hl)
    as (ls1 & Hu & Hc & _).
  rewrite Hu.
  destruct (updateObjectives_hasNextLevel _ _ _ _ _ _ Hu) as [_ Hn].
  destruct (completeLevel_store score kills ls ls1 st Hc Hn) as [Hst Hcur].
  destruct (LevelSystem.checkObjectives kills (GameScene.mapProgress s)
              (GameScene.bossDefeated s) (LevelSystem.objectives level))
    eqn:E.
  - apply checkObjectives_true in E.
    unfold GameScene.triggerVictory.
    cbn [GameScene.isGameOverOrVictory]. rewrite Hg.
    destruct (LevelSystem.completeLevel score kills ls1 st) as [ls2 st2].
    cbn [fst snd] in *.
    do 4 eexists. split; [reflexivity|].
    split; [split; [intros _; exact E | eauto]|].
    split; [discriminate|].
    intros _. cbn [GameScene.hasWon GameScene.isGameOverOrVictory].
    repeat split; try assumption.
  - do 4 eexists. split; [reflexivity|].
    split.
    + split; [intros [? H]; discriminate H|].
      intros H. apply checkObjectives_true in H. congruence.
    + split; [intros _; auto|]. intros [? H]. discriminate H.
Qed.

Lemma victory_is_declared_once_witness :
  exists s' ls' st' key,
    GameScene.checkVictoryCondition 1500 15
      (LevelSystem.constructor (LevelSystem.mkStorage None false false))
      (LevelSystem.mkStorage None false false)
      (GameScene.mk (Player.constructor 384 572) [] [] [] [] 300 3 false
                    false false)
    = Some (s', ls', st', key)
    /\ is_Some key /\ GameScene.hasWon s' = true.
Proof.
  destruct (victory_is_declared_once 1500 15
              (LevelSystem.constructor (LevelSystem.mkStorage None false false))
              (LevelSystem.mkStorage None false false)
              (GameScene.mk (Player.constructor 384 572) [] [] [] [] 300 3
                            false false false)
              (LevelSystem.mkLevel 1 "OPERATION: JUNGLE STORM" "jungle"
                 [LevelSystem.mkObjective LevelSystem.TDistance 300
                    "Advance 300m into enemy territory" false;
                  LevelSystem.mkObjective LevelSystem.TKills 15
                    "Eliminate 15 enemy combatants" false]
                 300 false 1.0)
              eq_refl eq_refl eq_refl)
    as (s' & ls' & st' & key & He & Hk & _ & Hw).
  exists s', ls', st', key.
  assert (Hs : is_Some key).
  { apply Hk. repeat constructor; vm_compute; discriminate. }
  split; [exact He|]. split; [exact Hs|]. apply Hw, Hs.
Defined.

(** X28. [resetProgress] puts the system back to level 1 in any
    case. On a store that can be written it leaves the default
    progress, which [getProgress] reads back and from which a new
    [LevelSystem] starts at level 1. On a store that refuses the write
    the entry stays as it was: the old progress is still read, and a
    new [LevelSystem] resumes at the level that was stored. *)
Theorem resetProgress_is_a_fresh_start
    (s : LevelSystem.t) (st : LevelSystem.Storage) :
  let r := LevelSystem.resetProgress s st in
  LevelSystem.getCurrentLevel r.1 = 1
  /\ LevelSystem.levels r.1 = LevelSystem.levels s
  /\ (LevelSystem.writeFails st = false ->
      LevelSystem.item r.2 = Some (LevelSystem.mkProgress 1 [] 0 0)
      /\ LevelSystem.getProgress r.2 = LevelSystem.mkProgress 1 [] 0 0
      /\ LevelSystem.getCurrentLevel (LevelSystem.constructor r.2) = 1)
  /\ (LevelSystem.writeFails st = true ->
      r.2 = st
      /\ forall p,
           LevelSystem.item st = Some p ->
           LevelSystem.readFails st = false ->
           LevelSystem.getProgress r.2 = p
           /\ LevelSystem.getCurrentLevel (LevelSystem.constructor r.2)
              = LevelSystem.currentLevel p).
Proof.
  unfold LevelSystem.resetProgress, LevelSystem.saveProgress,
    LevelSystem.getProgress, LevelSystem.constructor,
    LevelSystem.getCurrentLevel.
  cbn [fst snd LevelSystem.current LevelSystem.levels].
  split; [reflexivity|]. split; [reflexivity|]. split.
  - intros Hw. rewrite Hw.
    cbn [LevelSystem.item LevelSystem.readFails LevelSystem.current].
    destruct (LevelSystem.readFails st); repeat split; reflexivity.
  - intros Hw. rewrite Hw. split; [reflexivity|].
    intros p Hp Hr. rewrite Hr, Hp. split; reflexivity.
Qed.

Lemma resetProgress_is_a_fresh_start_witness :
  LevelSystem.getCurrentLevel
    (LevelSystem.constructor
       (LevelSystem.resetProgress
          (LevelSystem.constructor
             (LevelSystem.mkStorage
                (Some (LevelSystem.mkProgress 3 [1; 2] 4000 40)) false true))
          (LevelSystem.mkStorage
             (Some (LevelSystem.mkProgress 3 [1; 2] 4000 40)) false true)).2)
  = 3
  /\ LevelSystem.getCurrentLevel
       (LevelSystem.constructor
          (LevelSystem.resetProgress
             (LevelSystem.constructor
                (LevelSystem.mkStorage
                   (Some (LevelSystem.mkProgress 3 [1; 2] 4000 40)) false
                   false))
             (LevelSystem.mkStorage
                (Some (LevelSystem.mkProgress 3 [1; 2] 4000 40)) false
                false)).2)
     = 1.
Proof.
  split.
  - apply (resetProgress_is_a_fresh_start
             (LevelSystem.constructor
                (LevelSystem.mkStorage
                   (Some (LevelSystem.mkProgress 3 [1; 2] 4000 40)) false
                   true))
             (LevelSystem.mkStorage
                (Some (LevelSystem.mkProgress 3 [1; 2] 4000 40)) false true)
             ) with (p := LevelSystem.mkProgress 3 [1; 2] 4000 40);
      reflexivity.
  - apply (resetProgress_is_a_fresh_start
             (LevelSystem.constructor
                (LevelSystem.mkStorage
                   (Some (LevelSystem.mkProgress 3 [1; 2] 4000 40)) false
                   false))
             (LevelSystem.mkStorage
                (Some (LevelSystem.mkProgress 3 [1; 2] 4000 40)) false
                false)).
    reflexivity.
Defined.
